(** * cfworker-proxy: the request translation and response rewriting pipeline

    A shallow embedding of [src/index.js] (a Cloudflare Worker that relays
    an inbound request to the target URL encoded in its path) together with
    the part of the JavaScript runtime the worker calls.

    Strings.  A JavaScript string is modelled by the [string] of its UTF-8
    bytes.  Every string that occurs in the worker is well-formed UTF-16, so
    the two views agree; a lone surrogate, the only input on which
    [encodeURIComponent] throws, has no representation here.  All the
    patterns the worker searches for are ASCII, and an ASCII byte never
    occurs inside a multi-byte UTF-8 sequence, so prefix tests, substring
    tests and replacements act on bytes exactly as they act on code units.

    Effects.  [Headers] objects are mutable and are passed by reference; they
    live in a store, together with the log of the outbound requests that
    were issued.  JavaScript exceptions are the left summand of the result
    of a computation. *)

From Stdlib Require Import String Ascii List NArith Bool Arith Lia.
From Stdlib Require Import Sorted Permutation OrderedTypeEx.
Import ListNotations.

Local Open Scope string_scope.
Local Open Scope N_scope.

(* ================================================================= *)
(** ** Part I.  The JavaScript runtime, as far as the worker uses it *)
(* ================================================================= *)

Module JS.

(** *** Characters and strings *)

Definition code (c : ascii) : N := N_of_ascii c.

Definition chr (n : N) : ascii := ascii_of_N n.

(** The double quote and the apostrophe, by their codes. *)
Definition dquote : ascii := chr 34.
Definition squote : ascii := chr 39.

Definition str1 (c : ascii) : string := String c EmptyString.

(** [s.startsWith(p)]. *)
Definition startsWith (s p : string) : bool := prefix p s.

(** [s.includes(p)]: [p] occurs in [s] at some position. *)
Fixpoint includes (s p : string) : bool :=
  prefix p s ||
  match s with
  | EmptyString => false
  | String _ s' => includes s' p
  end.

(** Removes the first [n] characters. *)
Fixpoint skipn (n : nat) (s : string) : string :=
  match n, s with
  | O, _ => s
  | S _, EmptyString => EmptyString
  | S k, String _ s' => skipn k s'
  end.

(** Byte-lowercasing (the Fetch standard's operation on header names):
    only [A]..[Z] change. *)
Definition lower_char (c : ascii) : ascii :=
  if (65 <=? code c) && (code c <=? 90) then chr (code c + 32) else c.

Fixpoint byteLowercase (s : string) : string :=
  match s with
  | EmptyString => EmptyString
  | String c s' => String (lower_char c) (byteLowercase s')
  end.

(** [parts.join(sep)]. *)
Fixpoint join (sep : string) (parts : list string) : string :=
  match parts with
  | nil => EmptyString
  | x :: nil => x
  | x :: rest => x ++ sep ++ join sep rest
  end.

(** *** Errors

    Every exception the worker can meet is an [Error] object thrown by the
    runtime; the worker reads nothing but its [message]. *)

Record Error : Type := mkError { name : string; message : string }.

(** The error V8 throws from [decodeURIComponent]. *)
Definition URIError_malformed : Error := mkError "URIError" "URI malformed".

(** *** [decodeURIComponent] and [encodeURIComponent] (ECMA-262, 19.2.6) *)

Definition hexval (c : ascii) : option N :=
  let n := code c in
  if (48 <=? n) && (n <=? 57) then Some (n - 48)
  else if (65 <=? n) && (n <=? 70) then Some (n - 55)
  else if (97 <=? n) && (n <=? 102) then Some (n - 87)
  else None.

Definition hexbyte (h1 h2 : ascii) : option N :=
  match hexval h1, hexval h2 with
  | Some a, Some b => Some (16 * a + b)
  | _, _ => None
  end.

(** A multi-byte UTF-8 sequence under construction: how many continuation
    escapes are still [need]ed, the code point accumulated so far, the
    smallest code point that may be written with this many bytes, and the
    bytes read. *)
Record pending : Type := mkPending
  { need : nat; cp : N; cp_min : N; octets : string }.

(** The leading byte of a sequence: [110xxxxx], [1110xxxx] or [11110xxx].
    A continuation byte in leading position (one leading 1 bit) and five or
    more leading 1 bits are malformed. *)
Definition lead (b : N) : option pending :=
  if (192 <=? b) && (b <=? 223) then
    Some (mkPending 1 (b - 192) 128 (str1 (chr b)))
  else if (224 <=? b) && (b <=? 239) then
    Some (mkPending 2 (b - 224) 2048 (str1 (chr b)))
  else if (240 <=? b) && (b <=? 247) then
    Some (mkPending 3 (b - 240) 65536 (str1 (chr b)))
  else None.

Definition is_continuation (b : N) : bool := (128 <=? b) && (b <=? 191).

Definition push (p : pending) (b : N) : pending :=
  mkPending (pred (need p)) (64 * cp p + (b - 128)) (cp_min p)
            (octets p ++ str1 (chr b)).

(** A complete sequence encodes a code point when it is the shortest
    encoding, is no surrogate and is at most U+10FFFF. *)
Definition valid_code_point (p : pending) : bool :=
  (cp_min p <=? cp p) && (cp p <=? 1114111) &&
  negb ((55296 <=? cp p) && (cp p <=? 57343)).

Definition percent : ascii := chr 37.

(** The abstract operation Decode with an empty reserved set.  The loop of
    the standard reads one character or one escape per step; [pend] is the
    sequence it is in the middle of. [None] stands for the URIError. *)
Fixpoint Decode (pend : option pending) (s : string) {struct s} : option string :=
  match s with
  | EmptyString =>
      match pend with None => Some EmptyString | Some _ => None end
  | String c rest =>
      if Ascii.eqb c percent then
        match rest with
        | String h1 (String h2 rest') =>
            match hexbyte h1 h2 with
            | None => None
            | Some b =>
                match pend with
                | None =>
                    if b <? 128 then
                      option_map (String (chr b)) (Decode None rest')
                    else
                      match lead b with
                      | Some p => Decode (Some p) rest'
                      | None => None
                      end
                | Some p =>
                    if is_continuation b then
                      let p' := push p b in
                      match need p' with
                      | O =>
                          if valid_code_point p' then
                            option_map (append (octets p')) (Decode None rest')
                          else None
                      | S _ => Decode (Some p') rest'
                      end
                    else None
                end
            end
        | _ => None
        end
      else
        match pend with
        | None => option_map (String c) (Decode None rest)
        | Some _ => None
        end
  end.

Definition decodeURIComponent (s : string) : Error + string :=
  match Decode None s with
  | Some r => inr r
  | None => inl URIError_malformed
  end.

(** The characters [encodeURIComponent] leaves alone: ASCII letters, digits
    and [- _ . ! ~ * ' ( )]. *)
Definition unreserved (c : ascii) : bool :=
  let n := code c in
  ((65 <=? n) && (n <=? 90)) || ((97 <=? n) && (n <=? 122)) ||
  ((48 <=? n) && (n <=? 57)) ||
  existsb (N.eqb n) [45; 95; 46; 33; 126; 42; 39; 40; 41].

Definition hexdigit (n : N) : ascii :=
  if n <? 10 then chr (48 + n) else chr (55 + n).

Definition escape (c : ascii) : string :=
  String percent (String (hexdigit (code c / 16))
                         (String (hexdigit (code c mod 16)) EmptyString)).

(** The abstract operation Encode: every other character is written as the
    escapes of its UTF-8 bytes, in upper-case hexadecimal. *)
Fixpoint encodeURIComponent (s : string) : string :=
  match s with
  | EmptyString => EmptyString
  | String c rest =>
      (if unreserved c then str1 c else escape c) ++ encodeURIComponent rest
  end.

(** *** Replacement templates and [String.prototype.replace]

    GetSubstitution (ECMA-262, 22.1.3.19.1) with no named captures: inside a
    replacement template [$$] is a dollar sign, [$&] the matched text, [$`]
    the text [before] the match, [$'] the text [after] it, and [$n], [$nn]
    the n-th capture when the pattern has that many; every other character,
    a dollar sign included, stands for itself. *)

Definition dollar : ascii := chr 36.
Definition backtick : ascii := chr 96.
Definition ampersand : ascii := chr 38.
Definition less_than : ascii := chr 60.

Definition is_digit (c : ascii) : bool := (48 <=? code c) && (code c <=? 57).

Definition digit (c : ascii) : N := code c - 48.

(** The text that stands for capture [index], when [1 <= index <= m];
    a capture that took no part in the match reads as the empty string. *)
Definition capture_text (captures : list (option string)) (index : N)
  : option string :=
  if (1 <=? index) && (index <=? N.of_nat (List.length captures)) then
    Some match nth_error captures (N.to_nat index - 1) with
         | Some (Some s) => s
         | _ => EmptyString
         end
  else None.

Fixpoint GetSubstitution (matched before after : string)
    (captures : list (option string)) (template : string) {struct template}
  : string :=
  match template with
  | EmptyString => EmptyString
  | String c rest =>
      if Ascii.eqb c dollar then
        match rest with
        | EmptyString => str1 dollar
        | String d rest1 =>
            let one_digit :=
              match capture_text captures (digit d) with
              | Some r => r
              | None => String dollar (str1 d)
              end ++ GetSubstitution matched before after captures rest1 in
            if Ascii.eqb d dollar then
              String dollar (GetSubstitution matched before after captures rest1)
            else if Ascii.eqb d backtick then
              before ++ GetSubstitution matched before after captures rest1
            else if Ascii.eqb d ampersand then
              matched ++ GetSubstitution matched before after captures rest1
            else if Ascii.eqb d squote then
              after ++ GetSubstitution matched before after captures rest1
            else if is_digit d then
              match rest1 with
              | String d2 rest2 =>
                  if is_digit d2 &&
                     (10 * digit d + digit d2 <=? N.of_nat (List.length captures))
                  then
                    match capture_text captures (10 * digit d + digit d2) with
                    | Some r => r
                    | None => String dollar (String d (str1 d2))
                    end ++ GetSubstitution matched before after captures rest2
                  else one_digit
              | EmptyString => one_digit
              end
            else if Ascii.eqb d less_than then
              String dollar
                (String d (GetSubstitution matched before after captures rest1))
            else
              String dollar (GetSubstitution matched before after captures rest)
        end
      else String c (GetSubstitution matched before after captures rest)
  end.

(** The first occurrence of [pat] in [s]: the text before it and after it. *)
Fixpoint split_at_first (pat s : string) : option (string * string) :=
  if prefix pat s then Some (EmptyString, skipn (String.length pat) s)
  else
    match s with
    | EmptyString => None
    | String c s' =>
        match split_at_first pat s' with
        | Some (b, a) => Some (String c b, a)
        | None => None
        end
    end.

(** [s.replace(pat, template)] for a string pattern: the first occurrence
    only. *)
Definition String_replace (s pat template : string) : string :=
  match split_at_first pat s with
  | None => s
  | Some (b, a) => b ++ GetSubstitution pat b a [] template ++ a
  end.

(** *** Regular expressions

    The fragment of the pattern language that the worker's expression is
    written in: literals, a character class, concatenation, alternation,
    capturing groups (each carries its number) and negative lookahead. *)
Inductive regex : Type :=
| Lit (s : string)
| Class (cs : list ascii)
| Cat (r1 r2 : regex)
| Alt (r1 r2 : regex)
| Group (i : nat) (r : regex)
| NotFollowedBy (r : regex).

Fixpoint set_capture (i : nat) (v : string) (caps : list (option string))
  : list (option string) :=
  match i, caps with
  | _, nil => nil
  | O, _ :: caps' => Some v :: caps'
  | S k, c :: caps' => c :: set_capture k v caps'
  end.

(** The backtracking matcher: every way [r] can match at the start of [s],
    in the order of priority, as the text consumed, the captures and the
    text that remains. *)
Fixpoint matches (r : regex) (caps : list (option string)) (s : string)
  : list (string * list (option string) * string) :=
  match r with
  | Lit p =>
      if prefix p s then [(p, caps, skipn (String.length p) s)] else []
  | Class cs =>
      match s with
      | String c s' =>
          if existsb (Ascii.eqb c) cs then [(str1 c, caps, s')] else []
      | EmptyString => []
      end
  | Cat r1 r2 =>
      flat_map (fun '(a, caps1, s1) =>
                  map (fun '(b, caps2, s2) => (a ++ b, caps2, s2))
                      (matches r2 caps1 s1))
               (matches r1 caps s)
  | Alt r1 r2 => (matches r1 caps s ++ matches r2 caps s)%list
  | Group i r1 =>
      map (fun '(a, caps1, s1) => (a, set_capture (pred i) a caps1, s1))
          (matches r1 caps s)
  | NotFollowedBy r1 =>
      match matches r1 caps s with
      | nil => [(EmptyString, caps, s)]
      | _ :: _ => []
      end
  end.

(** A compiled expression: the pattern and the number of its groups. *)
Record RegExp : Type := mkRegExp { pattern : regex; ngroups : nat }.

(** The match at the start of [s], if there is one. *)
Definition match_here (re : RegExp) (s : string)
  : option (string * list (option string) * string) :=
  hd_error (matches (pattern re) (repeat None (ngroups re)) s).

(** [text.replace(re, template)] for an expression with the flag [g].  The
    standard advances [lastIndex] through the string: where the expression
    matches, the substitution is written and the search resumes behind the
    match (one character further on when the match is empty); elsewhere the
    character is copied.  [before] is the text already passed and [skip] the
    number of characters of the current match that are still to be passed. *)
Fixpoint replace_from (re : RegExp) (template : string)
    (before : string) (skip : nat) (s : string) {struct s} : string :=
  match s with
  | EmptyString =>
      match skip with
      | O =>
          match match_here re EmptyString with
          | Some (m, caps, rest) => GetSubstitution m before rest caps template
          | None => EmptyString
          end
      | S _ => EmptyString
      end
  | String c s' =>
      match skip with
      | S k => replace_from re template (before ++ str1 c) k s'
      | O =>
          match match_here re s with
          | Some (m, caps, rest) =>
              GetSubstitution m before rest caps template ++
              match String.length m with
              | O => String c (replace_from re template (before ++ str1 c) O s')
              | S k => replace_from re template (before ++ str1 c) k s'
              end
          | None => String c (replace_from re template (before ++ str1 c) O s')
          end
      end
  end.

Definition RegExp_replace (text : string) (re : RegExp) (template : string)
  : string :=
  replace_from re template EmptyString O text.

(** *** [JSON.stringify] on strings and objects (ECMA-262, 25.5.2) *)

#[local] Set Warnings "-register-all".

Inductive JSValue : Type :=
| JSUndefined
| JSString (s : string)
| JSObject (props : list (string * JSValue)).

Definition backslash : ascii := chr 92.

Definition lower_hexdigit (n : N) : ascii :=
  if n <? 10 then chr (48 + n) else chr (87 + n).

(** QuoteJSONString, one character at a time. *)
Definition quote_char (c : ascii) : string :=
  let n := code c in
  if n =? 8 then String backslash "b"
  else if n =? 9 then String backslash "t"
  else if n =? 10 then String backslash "n"
  else if n =? 12 then String backslash "f"
  else if n =? 13 then String backslash "r"
  else if n =? 34 then String backslash (str1 dquote)
  else if n =? 92 then String backslash (str1 backslash)
  else if n <? 32 then
    String backslash
      (String "u" (String "0" (String "0"
         (String (lower_hexdigit (n / 16)) (str1 (lower_hexdigit (n mod 16)))))))
  else str1 c.

Fixpoint quote_chars (s : string) : string :=
  match s with
  | EmptyString => EmptyString
  | String c s' => quote_char c ++ quote_chars s'
  end.

Definition QuoteJSONString (s : string) : string :=
  String dquote (quote_chars s ++ str1 dquote).

(** A property whose value is [undefined] is left out of the object. *)
Fixpoint JSON_stringify (v : JSValue) : option string :=
  match v with
  | JSUndefined => None
  | JSString s => Some (QuoteJSONString s)
  | JSObject props =>
      let fix members (ps : list (string * JSValue)) : list string :=
        match ps with
        | nil => nil
        | (k, x) :: ps' =>
            match JSON_stringify x with
            | Some t => (QuoteJSONString k ++ ":" ++ t) :: members ps'
            | None => members ps'
            end
        end in
      Some ("{" ++ join "," (members props) ++ "}")
  end.

(** *** URLs

    The components of a parsed URL that the worker reads.  Parsing itself
    (the URL standard's state machine) belongs to the platform, see
    [Platform] below. *)

Module URL.
Record t : Type := make
  { href : string;
    protocol : string;
    username : string;
    password : string;
    host : string;
    pathname : string;
    search : string;
    origin : string }.
End URL.

(** *** Header lists (Fetch standard, 2.2.2)

    A header list keeps the headers in the order they were appended, with
    the spelling of the names as given; names are compared after
    byte-lowercasing. *)

Module HeaderList.

Definition t : Type := list (string * string).

Definition same_name (a b : string) : bool :=
  String.eqb (byteLowercase a) (byteLowercase b).

Definition named (name : string) (h : string * string) : bool :=
  same_name (fst h) name.

Definition values_of (name : string) (l : t) : list string :=
  map snd (filter (named name) l).

Definition contains (name : string) (l : t) : bool :=
  existsb (named name) l.

(** Getting a name: the values of every header of that name, in order,
    separated by a comma and a space; [None] is [null]. *)
Definition get (name : string) (l : t) : option string :=
  if contains name l then Some (join ", " (values_of name l)) else None.

Definition append (name value : string) (l : t) : t :=
  (l ++ [(name, value)])%list.

Fixpoint set_first (name value : string) (l : t) : t :=
  match l with
  | nil => nil
  | h :: l' =>
      if named name h then
        (fst h, value) :: filter (fun h' => negb (named name h')) l'
      else h :: set_first name value l'
  end.

(** Setting a name: the first header of that name takes the value and the
    others are removed; without one, the header is appended. *)
Definition set (name value : string) (l : t) : t :=
  if contains name l then set_first name value l else append name value l.

Fixpoint insert_sorted (x : string) (l : list string) : list string :=
  match l with
  | nil => [x]
  | y :: l' => if String.leb x y then x :: l else y :: insert_sorted x l'
  end.

Definition sort_names (l : list string) : list string :=
  fold_right insert_sorted nil l.

Definition add_name (set : list string) (x : string) : list string :=
  if existsb (String.eqb x) set then set else (set ++ [x])%list.

(** The byte-lowercased name of a header. *)
Definition lname (h : string * string) : string := byteLowercase (fst h).

(** The names of the headers of [l], lowercased, added to the ordered set
    [acc]. *)
Definition collect (l : t) (acc : list string) : list string :=
  fold_left (fun set h => add_name set (lname h)) l acc.

(** The names of a header list as a sorted lowercase set. *)
Definition sorted_lowercase_set (l : t) : list string :=
  sort_names (collect l nil).

(** The order of the sort, byte less than or equal. *)
Definition le (x y : string) : Prop := String.leb x y = true.

(** A selection of the names of [l]: some of them, each once. *)
Definition selection (l : t) (N : list string) : Prop :=
  NoDup N /\ forall m, In m N -> In m (sorted_lowercase_set l).

(** The entries that stand for one name when a header list is iterated:
    the combined value, or for [set-cookie] one entry per header. *)
Definition entries_of (l : t) (name : string) : t :=
  if String.eqb name "set-cookie" then
    map (pair name) (values_of name l)
  else
    match get name l with
    | Some v => [(name, v)]
    | None => nil
    end.

(** Sort and combine: what iterating a [Headers] object yields.  Each name
    comes once, lowercased and in ascending order. *)
Definition sort_and_combine (l : t) : t :=
  flat_map (entries_of l) (sorted_lowercase_set l).

End HeaderList.

(** *** The store and the monad of computations *)

(** A request as it travels: the inbound one that reaches the worker, or
    the outbound one that the worker issues. *)
Module HttpRequest.
Record t : Type := make
  { url : string;
    method : string;
    headers : HeaderList.t;
    body : option string;
    redirect : string }.
End HttpRequest.

(** A response as it travels: the one that arrives from upstream, or the
    one the worker sends to its caller. *)
Module HttpResponse.
Record t : Type := make
  { status : N;
    statusText : string;
    headers : HeaderList.t;
    body : option string }.
End HttpResponse.

(** [heap]: the header list of every [Headers] object, by reference;
    [sent]: the outbound requests issued so far, oldest first. *)
Record Store : Type := mkStore
  { heap : list HeaderList.t; sent : list HttpRequest.t }.

Definition M (A : Type) : Type := Store -> (Error + A) * Store.

Definition ret {A} (a : A) : M A := fun st => (inr a, st).

Definition bind {A B} (m : M A) (k : A -> M B) : M B :=
  fun st =>
    match m st with
    | (inr a, st') => k a st'
    | (inl e, st') => (inl e, st')
    end.

(** [throw e]. *)
Definition throw {A} (e : Error) : M A := fun st => (inl e, st).

(** [try { m } catch (error) { handler(error) }]. *)
Definition try_catch {A} (m : M A) (handler : Error -> M A) : M A :=
  fun st =>
    match m st with
    | (inr a, st') => (inr a, st')
    | (inl e, st') => handler e st'
    end.

(** A call that returns or throws without touching the store. *)
Definition lift {A} (r : Error + A) : M A :=
  match r with
  | inl e => throw e
  | inr a => ret a
  end.

Declare Scope js_scope.
Delimit Scope js_scope with js.
Notation "x <- m ;; k" := (bind m (fun x => k))
  (at level 61, m at next level, right associativity) : js_scope.
Notation "m ;; k" := (bind m (fun _ => k))
  (at level 61, right associativity) : js_scope.
Local Open Scope js_scope.

Fixpoint update {A} (r : nat) (v : A) (l : list A) : list A :=
  match r, l with
  | _, nil => nil
  | O, _ :: l' => v :: l'
  | S k, x :: l' => x :: update k v l'
  end.

Definition alloc (l : HeaderList.t) : M nat :=
  fun st => (inr (List.length (heap st)),
             mkStore (heap st ++ [l])%list (sent st)).

Definition read (r : nat) : M HeaderList.t :=
  fun st => (inr (nth r (heap st) nil), st).

Definition write (r : nat) (l : HeaderList.t) : M unit :=
  fun st => (inr tt, mkStore (update r l (heap st)) (sent st)).

Definition record_sent (o : HttpRequest.t) : M unit :=
  fun st => (inr tt, mkStore (heap st) (sent st ++ [o])%list).

(** *** [Headers] objects

    The methods that add a header validate its name and its value and
    strip the white space around the value.  The names and values met here
    are the worker's constants and what other [Headers] objects hold; they
    are taken to be valid and to carry no white space at either end, so
    that adding them cannot throw and stores them as they are. *)

(** [new Headers(init)] for a sequence of pairs or for the properties of
    an object: each one is appended. *)
Definition Headers_new (init : list (string * string)) : M nat :=
  alloc (fold_left (fun l h => HeaderList.append (fst h) (snd h) l) init nil).

Definition Headers_get (r : nat) (name : string) : M (option string) :=
  l <- read r ;; ret (HeaderList.get name l).

Definition Headers_set (r : nat) (name value : string) : M unit :=
  l <- read r ;; write r (HeaderList.set name value l).

(** [[...headers]]. *)
Definition Headers_entries (r : nat) : M (list (string * string)) :=
  l <- read r ;; ret (HeaderList.sort_and_combine l).

(** A [Headers] object where a constructor expects its [init]: the object
    is iterable and is read as the sequence of its entries. *)
Definition Headers_copy (r : nat) : M nat :=
  init <- Headers_entries r ;; Headers_new init.

(** [{...headers}].  Spreading an object into an object literal copies its
    own enumerable properties (ECMA-262, CopyDataProperties).  A [Headers]
    object has none: the Fetch standard keeps its header list in an
    internal slot and defines [append], [get], [set] and the iterators on
    the prototype.  The spread contributes nothing. *)
Definition spread_Headers (r : nat) : list (string * string) := nil.

(** *** Bodies, requests and responses *)

(** A body is a stream of bytes, or a string handed to a constructor. *)
Inductive Body : Type :=
| Stream (bytes : string)
| Text (s : string).

Definition bytes_of (b : Body) : string :=
  match b with Stream s => s | Text s => s end.

Module Request.
Record t : Type := make
  { url : string;
    method : string;
    headers : nat;
    body : option Body;
    redirect : string }.
End Request.

Module Response.
Record t : Type := make
  { status : N;
    statusText : string;
    headers : nat;
    body : option Body }.
End Response.

(** The errors of the constructors; the wording is the runtime's. *)
Definition RangeError_status : Error :=
  mkError "RangeError"
    "Responses may only be constructed with status codes in the range 200 to 599, inclusive.".
Definition TypeError_null_body_status : Error :=
  mkError "TypeError"
    "Response with null body status (101, 204, 205, or 304) cannot have a body.".
Definition TypeError_credentials : Error :=
  mkError "TypeError" "Request cannot be constructed from a URL that includes credentials.".
Definition TypeError_body_not_allowed : Error :=
  mkError "TypeError" "Request with a GET or HEAD method cannot have a body.".

Definition null_body_status (status : N) : bool :=
  existsb (N.eqb status) [101; 103; 204; 205; 304].

(** The second half of [new Response(body, init)], once the headers of
    [init] are in the object [h] (Fetch standard, initialize a response).
    Under a null body status the standard refuses every body.  The
    worker's runtime refuses a stream and a text that is not empty; a text
    of length zero it drops, and the response is made with no body. *)
Definition Response_with (body : option Body) (status : N)
    (statusText : string) (h : nat) : M Response.t :=
  match body with
  | None => ret (Response.make status statusText h None)
  | Some b =>
      if null_body_status status then
        match b with
        | Text EmptyString => ret (Response.make status statusText h None)
        | _ => throw TypeError_null_body_status
        end
      else
        match b with
        | Text _ =>
            ct <- Headers_get h "Content-Type" ;;
            match ct with
            | Some _ => ret tt
            | None =>
                l <- read h ;;
                write h (HeaderList.append "Content-Type" "text/plain;charset=UTF-8" l)
            end
        | Stream _ => ret tt
        end ;;
        ret (Response.make status statusText h (Some b))
  end.

(** [new Response(body, {status, statusText, headers})] with an object
    literal for the headers. *)
Definition new_Response (body : option Body) (status : N)
    (statusText : string) (init : list (string * string)) : M Response.t :=
  if (status <? 200) || (599 <? status) then throw RangeError_status
  else h <- Headers_new init ;; Response_with body status statusText h.

(** The same with a [Headers] object for the headers. *)
Definition new_Response_copy (body : option Body) (status : N)
    (statusText : string) (headers : nat) : M Response.t :=
  if (status <? 200) || (599 <? status) then throw RangeError_status
  else h <- Headers_copy headers ;; Response_with body status statusText h.

(** *** The platform

    What the worker takes from its host and what this development leaves
    open: the URL parser, the network behind the global [fetch], and the
    UTF-8 decoder behind [response.text()]. *)
Record Platform : Type := mkPlatform
  { parseURL : string -> Error + URL.t;
    network : HttpRequest.t -> Error + HttpResponse.t;
    utf8Decode : string -> string }.

Section Platform.
Variable P : Platform.

(** [new URL(input)], with no base. *)
Definition new_URL (input : string) : M URL.t := lift (parseURL P input).

(** [new Request(input, {headers, method, body, redirect})].  The method is
    that of a [Request] object and needs no second validation. *)
Definition new_Request (input : string) (headers : nat) (method : string)
    (body : option Body) (redirect : string) : M Request.t :=
  u <- new_URL input ;;
  if negb (String.eqb (URL.username u) EmptyString) ||
     negb (String.eqb (URL.password u) EmptyString)
  then throw TypeError_credentials
  else
    h <- Headers_copy headers ;;
    match body with
    | Some _ =>
        if String.eqb method "GET" || String.eqb method "HEAD"
        then throw TypeError_body_not_allowed
        else ret tt
    | None => ret tt
    end ;;
    ret (Request.make (URL.href u) method h body redirect).

(** The global [fetch(request)]: the request goes out, and what comes back
    is a response or a network error. *)
Definition fetch (request : Request.t) : M Response.t :=
  l <- read (Request.headers request) ;;
  let out := HttpRequest.make (Request.url request) (Request.method request) l
               (option_map bytes_of (Request.body request))
               (Request.redirect request) in
  record_sent out ;;
  up <- lift (network P out) ;;
  h <- alloc (HttpResponse.headers up) ;;
  ret (Response.make (HttpResponse.status up) (HttpResponse.statusText up) h
         (option_map Stream (HttpResponse.body up))).

(** [response.text()]; no body reads as the empty string. *)
Definition Response_text (response : Response.t) : M string :=
  ret match Response.body response with
      | Some b => utf8Decode P (bytes_of b)
      | None => EmptyString
      end.

End Platform.

End JS.

(* ================================================================= *)
(** ** Part II.  The worker, [src/index.js] *)
(* ================================================================= *)

Module Worker.
Import JS.
Local Open Scope js_scope.

(** Ensure the URL has a protocol. *)
Definition ensureProtocol (url defaultProtocol : string) : string :=
  if startsWith url "http://" || startsWith url "https://" then url
  else defaultProtocol ++ "//" ++ url.

(** The expression of [replaceRelativePaths], written in the source as
    the pattern [((href|src|action)=[dq sq])/(?!/)] with the flag [g], where
    [dq] and [sq] are the two quote characters. *)
Definition relativePathRegex : RegExp :=
  mkRegExp
    (Cat (Group 1
            (Cat (Group 2 (Alt (Lit "href") (Alt (Lit "src") (Lit "action"))))
                 (Cat (Lit "=") (Class [dquote; squote]))))
         (Cat (Lit "/") (NotFollowedBy (Lit "/"))))
    2.

(** Replace relative paths in HTML content. *)
Definition replaceRelativePaths (text protocol host origin : string) : string :=
  RegExp_replace text relativePathRegex
    ("$1" ++ protocol ++ "//" ++ host ++ "/" ++ origin ++ "/").

(** Set no-cache headers. *)
Definition setNoCacheHeaders (headers : nat) : M unit :=
  Headers_set headers "Cache-Control" "no-store".

(** Set CORS headers. *)
Definition setCorsHeaders (headers : nat) : M unit :=
  Headers_set headers "Access-Control-Allow-Origin" "*" ;;
  Headers_set headers "Access-Control-Allow-Methods" "GET, POST, PUT, DELETE" ;;
  Headers_set headers "Access-Control-Allow-Headers" "*".

(** Filter request headers. *)
Definition filterHeaders (headers : nat) (filterFunc : string -> bool) : M nat :=
  entries <- Headers_entries headers ;;
  Headers_new (filter (fun '(name, _) => filterFunc name) entries).

(** Return a JSON response. *)
Definition jsonResponse (data : JSValue) (status : N) : M Response.t :=
  new_Response (option_map Text (JSON_stringify data)) status EmptyString
    [("Content-Type", "application/json; charset=utf-8")].

(** Return HTML for the root directory: the landing page, a fixed text.
    It is cut at its double quotes, which [join] puts back. *)
Definition getRootHtml : string :=
  join (str1 dquote)
  ["<!DOCTYPE html>
  <html lang=";
   "zh-CN";
   ">
  <head>
	<meta charset=";
   "UTF-8";
   ">
	<link href=";
   "https://cdnjs.cloudflare.com/ajax/libs/materialize/1.0.0/css/materialize.min.css";
   " rel=";
   "stylesheet";
   ">
	<title>Proxy Everything</title>
	<link rel=";
   "icon";
   " type=";
   "image/png";
   " href=";
   "https://img.icons8.com/color/1000/kawaii-bread-1.png";
   ">
	<meta name=";
   "Description";
   " content=";
   "Proxy Everything with CF Workers.";
   ">
	<meta property=";
   "og:description";
   " content=";
   "Proxy Everything with CF Workers.";
   ">
	<meta property=";
   "og:image";
   " content=";
   "https://img.icons8.com/color/1000/kawaii-bread-1.png";
   ">
	<meta name=";
   "robots";
   " content=";
   "index, follow";
   ">
	<meta http-equiv=";
   "Content-Language";
   " content=";
   "zh-CN";
   ">
	<meta name=";
   "copyright";
   " content=";
   "Copyright © ymyuuu";
   ">
	<meta name=";
   "author";
   " content=";
   "ymyuuu";
   ">
	<link rel=";
   "apple-touch-icon-precomposed";
   " sizes=";
   "120x120";
   " href=";
   "https://img.icons8.com/color/1000/kawaii-bread-1.png";
   ">
	<meta name=";
   "apple-mobile-web-app-capable";
   " content=";
   "yes";
   ">
	<meta name=";
   "apple-mobile-web-app-status-bar-style";
   " content=";
   "black-translucent";
   ">
	<meta name=";
   "viewport";
   " content=";
   "width=device-width, user-scalable=no, initial-scale=1.0, maximum-scale=1.0, minimum-scale=1.0, user-scalable=no";
   ">
	<style>
		body, html {
			height: 100%;
			margin: 0;
		}
		.background {
			background-image: url('https://imgapi.cn/bing.php');
			background-size: cover;
			background-position: center;
			height: 100%;
			display: flex;
			align-items: center;
			justify-content: center;
		}
		.card {
			background-color: rgba(255, 255, 255, 0.8);
			transition: background-color 0.3s ease, box-shadow 0.3s ease;
		}
		.card:hover {
			background-color: rgba(255, 255, 255, 1);
			box-shadow: 0px 8px 16px rgba(0, 0, 0, 0.3);
		}
		.input-field input[type=text] {
			color: #2c3e50;
		}
		.input-field input[type=text]:focus+label {
			color: #2c3e50 !important;
		}
		.input-field input[type=text]:focus {
			border-bottom: 1px solid #2c3e50 !important;
			box-shadow: 0 1px 0 0 #2c3e50 !important;
		}
	</style>
  </head>
  <body>
	<div class=";
   "background";
   ">
		<div class=";
   "container";
   ">
			<div class=";
   "row";
   ">
				<div class=";
   "col s12 m8 offset-m2 l6 offset-l3";
   ">
					<div class=";
   "card";
   ">
						<div class=";
   "card-content";
   ">
							<span class=";
   "card-title center-align";
   "><i class=";
   "material-icons left";
   ">link</i>Proxy Everything</span>
							<form id=";
   "urlForm";
   " onsubmit=";
   "redirectToProxy(event)";
   ">
								<div class=";
   "input-field";
   ">
									<input type=";
   "text";
   " id=";
   "targetUrl";
   " placeholder=";
   "Enter target URL here";
   " required>
									<label for=";
   "targetUrl";
   ">Target URL</label>
								</div>
								<button type=";
   "submit";
   " class=";
   "btn waves-effect waves-light teal darken-2 full-width";
   ">Go</button>
							</form>
						</div>
					</div>
				</div>
			</div>
		</div>
	</div>
	<script src=";
   "https://cdnjs.cloudflare.com/ajax/libs/materialize/1.0.0/js/materialize.min.js";
   "></script>
	<script>
		function redirectToProxy(event) {
			event.preventDefault();
			const targetUrl = document.getElementById('targetUrl').value.trim();
			const currentOrigin = window.location.origin;
			window.open(currentOrigin + '/' + encodeURIComponent(targetUrl), '_blank');
		}
	</script>
  </body>
  </html>"].

Section Handler.
Variable P : Platform.

(** Handle redirects. *)
Definition handleRedirect (response : Response.t) (body : option Body)
  : M Response.t :=
  header <- Headers_get (Response.headers response) "location" ;;
  location <- new_URL P (match header with Some v => v | None => "null" end) ;;
  let modifiedLocation := "/" ++ encodeURIComponent (URL.href location) in
  new_Response body (Response.status response) (Response.statusText response)
    (spread_Headers (Response.headers response)
       ++ [("Location", modifiedLocation)])%list.

(** Handle relative paths in HTML content. *)
Definition handleHtmlContent (response : Response.t)
    (protocol host actualUrlStr : string) : M string :=
  originalText <- Response_text P response ;;
  target <- new_URL P actualUrlStr ;;
  let modifiedText :=
    replaceRelativePaths originalText protocol host (URL.origin target) in
  ret modifiedText.

(** The target URL, lines 16 to 22 of the handler: the path without its
    first slash is decoded, given a protocol, and the query is appended. *)
Definition actualUrlStr (url : URL.t) : Error + string :=
  match decodeURIComponent (String_replace (URL.pathname url) "/" EmptyString) with
  | inl e => inl e
  | inr s => inr (ensureProtocol s (URL.protocol url) ++ URL.search url)
  end.

Definition redirect_statuses : list N := [301; 302; 303; 307; 308].

(** Lines 48 to 61: the modified response object, with the no-cache and
    the CORS headers added. *)
Definition deliver (response : Response.t) (body : option Body)
  : M Response.t :=
  modifiedResponse <- new_Response_copy body (Response.status response)
                        (Response.statusText response)
                        (Response.headers response) ;;
  setNoCacheHeaders (Response.headers modifiedResponse) ;;
  setCorsHeaders (Response.headers modifiedResponse) ;;
  ret modifiedResponse.

(** Lines 37 to 61: what becomes of the upstream response. *)
Definition respond (url : URL.t) (actualUrlStr : string)
    (response : Response.t) : M Response.t :=
  let body := Response.body response in
  if existsb (N.eqb (Response.status response)) redirect_statuses then
    let body := Response.body response in
    handleRedirect response body
  else
    contentType <- Headers_get (Response.headers response) "Content-Type" ;;
    body <- (if match contentType with
                | Some v => includes v "text/html"
                | None => false
                end
             then
               text <- handleHtmlContent response (URL.protocol url)
                         (URL.host url) actualUrlStr ;;
               ret (Some (Text text))
             else ret body) ;;
    deliver response body.

(** The body of the handler's [try] block. *)
Definition pipeline (request : Request.t) : M Response.t :=
  url <- new_URL P (Request.url request) ;;
  if String.eqb (URL.pathname url) "/" then
    new_Response (Some (Text getRootHtml)) 200 EmptyString
      [("Content-Type", "text/html; charset=utf-8")]
  else
    actualUrlStr <- lift (actualUrlStr url) ;;
    newHeaders <- filterHeaders (Request.headers request)
                    (fun name => negb (startsWith name "cf-")) ;;
    modifiedRequest <- new_Request P actualUrlStr newHeaders
                         (Request.method request) (Request.body request)
                         "manual" ;;
    response <- JS.fetch P modifiedRequest ;;
    respond url actualUrlStr response.

(** [export default { async fetch(request, env, ctx) }]. *)
Definition fetch (request : Request.t) : M Response.t :=
  try_catch (pipeline request)
    (fun error =>
       jsonResponse (JSObject [("error", JSString (message error))]) 500).

(** What the host does around the handler: it wraps the inbound request
    in a [Request] object, whose [Headers] object is the first of the
    store, calls the handler, and sends out what the handler returns. *)
Definition observe (response : Response.t) (st : Store) : HttpResponse.t :=
  HttpResponse.make (Response.status response) (Response.statusText response)
    (nth (Response.headers response) (heap st) nil)
    (option_map bytes_of (Response.body response)).

Definition initial (inbound : HttpRequest.t) : Store :=
  mkStore [HttpRequest.headers inbound] nil.

Definition request_of (inbound : HttpRequest.t) : Request.t :=
  Request.make (HttpRequest.url inbound) (HttpRequest.method inbound) O
    (option_map Stream (HttpRequest.body inbound)) (HttpRequest.redirect inbound).

(** The response sent to the caller (or the error the handler let escape)
    and the outbound requests issued on the way. *)
Definition serve (inbound : HttpRequest.t) : (Error + HttpResponse.t) * list HttpRequest.t :=
  match fetch (request_of inbound) (initial inbound) with
  | (inr response, st) => (inr (observe response st), sent st)
  | (inl e, st) => (inl e, sent st)
  end.

End Handler.

End Worker.

(* ================================================================= *)
(** ** Part III.  A small platform to run the worker on *)
(* ================================================================= *)

Module Demo.
Import JS.

Definition TypeError_invalid_URL : Error := mkError "TypeError" "Invalid URL".

Definition stops (stop : list ascii) (c : ascii) : bool :=
  existsb (Ascii.eqb c) stop.

(** The longest prefix of [s] free of the characters [stop], and the rest. *)
Fixpoint span (stop : list ascii) (s : string) : string * string :=
  match s with
  | EmptyString => (EmptyString, EmptyString)
  | String c s' =>
      if stops stop c then (EmptyString, s)
      else let (a, b) := span stop s' in (String c a, b)
  end.

Definition slash : ascii := chr 47.
Definition question : ascii := chr 63.
Definition hash : ascii := chr 35.

(** A parser for the URLs of the examples: [http://] or [https://], a
    host, then an optional path, query and fragment, all of them already in
    the form the URL standard serialises them to.  On these it returns what
    the standard's parser returns; anything else, a string with no scheme
    in particular, is refused, as the standard refuses it when no base is
    given. *)
Definition parse (input : string) : Error + URL.t :=
  let build (protocol rest : string) : Error + URL.t :=
    let (host, rest1) := span [slash; question; hash] rest in
    let (path, rest2) := span [question; hash] rest1 in
    let (query, fragment) := span [hash] rest2 in
    let pathname := if String.eqb path EmptyString then "/" else path in
    let search := if String.eqb query "?" then EmptyString else query in
    if String.eqb host EmptyString then inl TypeError_invalid_URL
    else inr (URL.make (protocol ++ "//" ++ host ++ pathname ++ search ++ fragment)
                protocol EmptyString EmptyString host pathname search
                (protocol ++ "//" ++ host)) in
  if startsWith input "https://" then build "https:" (skipn 8 input)
  else if startsWith input "http://" then build "http:" (skipn 7 input)
  else inl TypeError_invalid_URL.

Definition NetworkError : Error := mkError "TypeError" "Network connection lost.".

(** A network with one reachable resource per entry of [sites]. *)
Definition network_of (sites : list (string * HttpResponse.t)) (o : HttpRequest.t)
  : Error + HttpResponse.t :=
  match find (fun site => String.eqb (fst site) (HttpRequest.url o)) sites with
  | Some site => inr (snd site)
  | None => inl NetworkError
  end.

Definition platform (sites : list (string * HttpResponse.t)) : Platform :=
  mkPlatform parse (network_of sites) (fun bytes => bytes).

(** A GET request for [url] with the given headers. *)
Definition GET (url : string) (headers : HeaderList.t) : HttpRequest.t :=
  HttpRequest.make url "GET" headers None "follow".

(** *** Upstream resources for the examples *)

(** [s] with a double quote before and after. *)
Definition quoted (s : string) : string :=
  String dquote (s ++ str1 dquote).

Definition page : string :=
  "<img src=" ++ quoted "/logo.png" ++ "><img src=" ++
  quoted "//cdn.example.com/x.png" ++ ">".

Definition link : string := "<a href=" ++ quoted "/x" ++ ">".

(** A redirect to an absolute location, with cookies. *)
Definition found_with_cookies : HttpResponse.t :=
  HttpResponse.make 302 "Found"
    [("Location", "https://example.com/next"); ("Set-Cookie", "a=1");
     ("Set-Cookie", "b=2"); ("Content-Type", "text/html")]
    None.

(** A redirect to a relative location. *)
Definition found_relative : HttpResponse.t :=
  HttpResponse.make 302 "Found" [("Location", "/next")] None.

(** A page, with headers of its own under two of the policy names. *)
Definition page_response : HttpResponse.t :=
  HttpResponse.make 200 "OK"
    [("Content-Type", "text/html; charset=utf-8");
     ("Cache-Control", "max-age=3600");
     ("Access-Control-Allow-Origin", "https://example.com")]
    (Some page).

(** A page whose content type is written in capitals. *)
Definition capitals_response : HttpResponse.t :=
  HttpResponse.make 200 "OK" [("Content-Type", "Text/HTML")] (Some link).

(** A permanent redirect that may be cached for a minute. *)
Definition moved_response : HttpResponse.t :=
  HttpResponse.make 301 "Moved Permanently"
    [("Location", "https://example.org/"); ("Cache-Control", "max-age=60")]
    None.

Definition link_response : HttpResponse.t :=
  HttpResponse.make 200 "OK" [("Content-Type", "text/html")] (Some link).

Definition sites : list (string * HttpResponse.t) :=
  [ ("https://example.com/a", found_with_cookies);
    ("https://example.com/b", found_relative);
    ("https://example.com/c", page_response);
    ("https://example.com/d", capitals_response);
    ("https://example.com/e", moved_response);
    ("http://a$&b.example/", link_response) ].

(** The URL of the relay followed by a path, parsed. *)
Definition relay_url (path : string) : URL.t :=
  URL.make ("https://relay.example" ++ path) "https:" EmptyString EmptyString
    "relay.example" path EmptyString "https://relay.example".

(** A target on [example.com], parsed. *)
Definition example_url (path : string) : URL.t :=
  URL.make ("https://example.com" ++ path) "https:" EmptyString EmptyString
    "example.com" path EmptyString "https://example.com".

End Demo.


(* ================================================================= *)
(** ** Part IV.  The words of the specification *)
(* ================================================================= *)

Module Spec.
Import JS.

(** A string that begins with [http://] or [https://] written with at
    least one upper-case letter. *)
Definition mixed_case_scheme (s : string) : bool :=
  (startsWith (byteLowercase s) "http://" ||
   startsWith (byteLowercase s) "https://") &&
  negb (startsWith s "http://" || startsWith s "https://").

(** The target the URL Resolver is to produce from the decoded path, the
    inbound scheme and the inbound query string. *)
Definition target (decoded scheme query : string) : string :=
  (if startsWith decoded "http://" || startsWith decoded "https://"
   then decoded
   else scheme ++ "//" ++ decoded) ++ query.

(** The hexadecimal digits. *)
Definition hex_digit (c : ascii) : bool :=
  existsb (Ascii.eqb c) (list_ascii_of_string "0123456789abcdefABCDEF").

Definition two_hex_digits (s : string) : bool :=
  match s with
  | String h1 (String h2 _) => hex_digit h1 && hex_digit h2
  | _ => false
  end.

(** A malformed percent-encoding: a percent sign that is not followed by
    two hexadecimal digits. *)
Definition malformed_escape (s : string) : Prop :=
  exists a b, s = a ++ String percent b /\ two_hex_digits b = false.

(** *** Reading JSON

    A reader for the JSON texts that consist of one object whose values
    are strings, written without insignificant white space.  Escapes of
    characters outside ASCII are beyond it. *)

Definition simple_escape (e : ascii) : option ascii :=
  if Ascii.eqb e dquote then Some dquote
  else if Ascii.eqb e backslash then Some backslash
  else if Ascii.eqb e "/" then Some "/"%char
  else if Ascii.eqb e "b" then Some (chr 8)
  else if Ascii.eqb e "f" then Some (chr 12)
  else if Ascii.eqb e "n" then Some (chr 10)
  else if Ascii.eqb e "r" then Some (chr 13)
  else if Ascii.eqb e "t" then Some (chr 9)
  else None.

Definition hex4 (a b c d : ascii) : option N :=
  match hexbyte a b, hexbyte c d with
  | Some hi, Some lo => Some (256 * hi + lo)
  | _, _ => None
  end.

Definition cons_fst (c : ascii) (r : string * string) : string * string :=
  (String c (fst r), snd r).

(** The characters of a string literal behind its opening quote: the
    string they denote and the text behind the closing quote. *)
Fixpoint read_chars (s : string) : option (string * string) :=
  match s with
  | EmptyString => None
  | String c s' =>
      if Ascii.eqb c dquote then Some (EmptyString, s')
      else if Ascii.eqb c backslash then
        match s' with
        | EmptyString => None
        | String e s'' =>
            if Ascii.eqb e "u" then
              match s'' with
              | String x1 (String x2 (String x3 (String x4 s3))) =>
                  match hex4 x1 x2 x3 x4 with
                  | Some n =>
                      if n <? 128 then
                        option_map (cons_fst (chr n)) (read_chars s3)
                      else None
                  | None => None
                  end
              | _ => None
              end
            else
              match simple_escape e with
              | Some x => option_map (cons_fst x) (read_chars s'')
              | None => None
              end
        end
      else if code c <? 32 then None
      else option_map (cons_fst c) (read_chars s')
  end.

Definition read_string (s : string) : option (string * string) :=
  match s with
  | String c s' => if Ascii.eqb c dquote then read_chars s' else None
  | EmptyString => None
  end.

(** The members of an object behind its opening brace, at most [fuel]
    of them. *)
Fixpoint read_members (fuel : nat) (s : string)
  : option (list (string * string)) :=
  match fuel with
  | O => None
  | S fuel' =>
      match read_string s with
      | Some (key, String colon s1) =>
          if Ascii.eqb colon ":" then
            match read_string s1 with
            | Some (value, String sep s2) =>
                if Ascii.eqb sep "}" then
                  match s2 with
                  | EmptyString => Some [(key, value)]
                  | String _ _ => None
                  end
                else if Ascii.eqb sep "," then
                  option_map (cons (key, value)) (read_members fuel' s2)
                else None
            | _ => None
            end
          else None
      | _ => None
      end
  end.

(** [JSON.parse] on such a text: the keys and values of the object, in
    order. *)
Definition read_object (s : string) : option (list (string * string)) :=
  match s with
  | String open s' =>
      if Ascii.eqb open "{" then
        if String.eqb s' "}" then Some nil
        else read_members (String.length s') s'
      else None
  | EmptyString => None
  end.

(** The error envelope of the Error Envelope Builder for a message: status
    500, one header, and the message as the [error] of a JSON object. *)
Definition error_envelope (msg : string) : HttpResponse.t :=
  HttpResponse.make 500 EmptyString
    [("Content-Type", "application/json; charset=utf-8")]
    (Some ("{" ++ QuoteJSONString "error" ++ ":" ++ QuoteJSONString msg ++ "}")).

(** *** The Header Filter, the Upstream Invoker and the classifier *)

(** A name with the reserved prefix, whatever its case. *)
Definition reserved (name : string) : bool :=
  startsWith (byteLowercase name) "cf-".

(** The headers to send upstream: the entries of the inbound headers
    without the reserved ones. *)
Definition forwarded_headers (inbound : HeaderList.t) : HeaderList.t :=
  filter (fun h => negb (reserved (fst h))) (HeaderList.sort_and_combine inbound).

(** The outbound request for a target: method and body mirrored, the
    filtered headers, redirects not followed. *)
Definition outbound (inbound : HttpRequest.t) (target : URL.t) : HttpRequest.t :=
  HttpRequest.make (URL.href target) (HttpRequest.method inbound)
    (forwarded_headers (HttpRequest.headers inbound))
    (HttpRequest.body inbound) "manual".

(** A request may carry a body unless its method is GET or HEAD. *)
Definition body_allowed (inbound : HttpRequest.t) : bool :=
  match HttpRequest.body inbound with
  | None => true
  | Some _ =>
      negb (String.eqb (HttpRequest.method inbound) "GET" ||
            String.eqb (HttpRequest.method inbound) "HEAD")
  end.

(** The inbound request reaches the upstream, which answers [up]: the
    inbound URL parses to [url] with a path other than the root, the path
    resolves to [target], which parses to [tu] without credentials, and
    the network returns [up] for the outbound request. *)
Definition reaches (P : Platform) (inbound : HttpRequest.t) (url : URL.t)
    (target : string) (tu : URL.t) (up : HttpResponse.t) : Prop :=
  parseURL P (HttpRequest.url inbound) = inr url /\
  URL.pathname url <> "/" /\
  Worker.actualUrlStr url = inr target /\
  parseURL P target = inr tu /\
  URL.username tu = EmptyString /\
  URL.password tu = EmptyString /\
  body_allowed inbound = true /\
  network P (outbound inbound tu) = inr up.

(** The three branches of the Response Classifier. *)
Inductive branch : Type := Redirect | Html | Passthrough.

Definition redirect_status (status : N) : bool :=
  existsb (N.eqb status) [301; 302; 303; 307; 308].

(** The classifier as the specification words it: the redirect statuses
    first, then a [Content-Type] that contains [text/html] in any case. *)
Definition classify_any_case (status : N) (contentType : option string) : branch :=
  if redirect_status status then Redirect
  else
    match contentType with
    | Some v => if includes (byteLowercase v) "text/html" then Html else Passthrough
    | None => Passthrough
    end.

(** The classifier with the substring test on the value as it is. *)
Definition classify (status : N) (contentType : option string) : branch :=
  if redirect_status status then Redirect
  else
    match contentType with
    | Some v => if includes v "text/html" then Html else Passthrough
    | None => Passthrough
    end.

(** The Header Policy Injector: the four headers, set. *)
Definition inject (headers : HeaderList.t) : HeaderList.t :=
  HeaderList.set "Access-Control-Allow-Headers" "*"
    (HeaderList.set "Access-Control-Allow-Methods" "GET, POST, PUT, DELETE"
       (HeaderList.set "Access-Control-Allow-Origin" "*"
          (HeaderList.set "Cache-Control" "no-store" headers))).

(** The four headers are present with exactly their values, once each. *)
Definition policy_injected (headers : HeaderList.t) : Prop :=
  HeaderList.values_of "Cache-Control" headers = ["no-store"] /\
  HeaderList.values_of "Access-Control-Allow-Origin" headers = ["*"] /\
  HeaderList.values_of "Access-Control-Allow-Methods" headers =
    ["GET, POST, PUT, DELETE"] /\
  HeaderList.values_of "Access-Control-Allow-Headers" headers = ["*"].

(** A response with this status and this body, handed on as a stream, can
    be constructed. *)
Definition constructible (status : N) (body : option string) : bool :=
  (200 <=? status) && (status <=? 599) &&
  match body with
  | None => true
  | Some _ => negb (null_body_status status)
  end.

(** The error envelope of a failure. *)
Definition envelope_of (e : Error) : HttpResponse.t := error_envelope (message e).

(** The store when the upstream response has arrived: the inbound headers,
    the filtered headers, their copy in the outbound request, and the
    headers of the response; one request was sent. *)
Definition arrived (inbound : HttpRequest.t) (tu : URL.t) (up : HttpResponse.t)
  : Store :=
  mkStore [HttpRequest.headers inbound;
           forwarded_headers (HttpRequest.headers inbound);
           forwarded_headers (HttpRequest.headers inbound);
           HttpResponse.headers up]
          [outbound inbound tu].

(** The [Response] object that the global [fetch] returns then. *)
Definition upstream_response (up : HttpResponse.t) : Response.t :=
  Response.make (HttpResponse.status up) (HttpResponse.statusText up) 3
    (option_map Stream (HttpResponse.body up)).

(** *** The response sent to the caller, branch by branch *)

(** The value of the [Location] header as the worker reads it; a missing
    header reads as [null]. *)
Definition location_of (up : HttpResponse.t) : string :=
  match HeaderList.get "location" (HttpResponse.headers up) with
  | Some v => v
  | None => "null"
  end.

(** What the worker answers to a redirect. *)
Definition redirected (P : Platform) (up : HttpResponse.t) : HttpResponse.t :=
  match parseURL P (location_of up) with
  | inr location =>
      HttpResponse.make (HttpResponse.status up) (HttpResponse.statusText up)
        [("Location", "/" ++ encodeURIComponent (URL.href location))]
        (HttpResponse.body up)
  | inl e => envelope_of e
  end.

(** The error of [new Response] for a status and a body that cannot be
    put together. *)
Definition construction_error (status : N) : Error :=
  if (200 <=? status) && (status <=? 599) then TypeError_null_body_status
  else RangeError_status.

(** What the worker answers otherwise, with the body it settled on, none
    or the stream it hands on. *)
Definition delivered (up : HttpResponse.t) (body : option string) : HttpResponse.t :=
  if constructible (HttpResponse.status up) body then
    HttpResponse.make (HttpResponse.status up) (HttpResponse.statusText up)
      (inject (HeaderList.sort_and_combine (HttpResponse.headers up))) body
  else envelope_of (construction_error (HttpResponse.status up)).

(** What the worker answers on the HTML branch, with the text it settled
    on: under a null body status an empty text leaves the response without
    a body. *)
Definition delivered_text (up : HttpResponse.t) (text : string) : HttpResponse.t :=
  if null_body_status (HttpResponse.status up) && String.eqb text EmptyString
  then delivered up None
  else delivered up (Some text).

(** [new Response] refuses this body under this status: a stream, or a
    text that is not empty, under a null body status. *)
Definition refused (status : N) (body : option Body) : bool :=
  null_body_status status &&
  match body with
  | Some (Text EmptyString) | None => false
  | Some _ => true
  end.

(** The text of an upstream body. *)
Definition text_of (P : Platform) (up : HttpResponse.t) : string :=
  match HttpResponse.body up with
  | Some bytes => utf8Decode P bytes
  | None => EmptyString
  end.

(** A string handed to [new Response] as the body of a response whose
    headers already say what it is; a stream may always be handed on. *)
Definition text_or_stream (headers : HeaderList.t) (body : option Body) : Prop :=
  match body with
  | Some (Text _) => HeaderList.contains "Content-Type" headers = true
  | _ => True
  end.

(** Only ASCII characters, as in every serialised URL. *)
Fixpoint ascii_only (s : string) : bool :=
  match s with
  | EmptyString => true
  | String c s' => (code c <? 128) && ascii_only s'
  end.

(** An absolute [http] or [https] URL, by its first characters. *)
Definition http_or_https (s : string) : bool :=
  startsWith s "http://" || startsWith s "https://".

(** *** The relative-path rewrite rule *)

(** [s.endsWith(k)]. *)
Definition endsWith (s k : string) : bool :=
  (String.length k <=? String.length s)%nat &&
  String.eqb (skipn (String.length s - String.length k) s) k.

(** The attributes [href=], [src=] and [action=], each followed by a
    double quote or by an apostrophe. *)
Definition openings : list string :=
  flat_map (fun attribute =>
              map (fun quote => attribute ++ "=" ++ str1 quote) [dquote; squote])
           ["href"; "src"; "action"].

(** The character [c], with the text [before] it and the text [after] it,
    is the single leading slash of a reference: a slash that is not
    followed by a second one and that comes right after an attribute and
    its quote. *)
Definition relative_slash (before : string) (c : ascii) (after : string) : bool :=
  Ascii.eqb c "/" && negb (startsWith after "/") &&
  existsb (endsWith before) openings.

(** The text with every such slash replaced and everything else as it
    is. *)
Fixpoint rewrite_from (replacement before s : string) : string :=
  match s with
  | EmptyString => EmptyString
  | String c s' =>
      (if relative_slash before c s' then replacement else str1 c) ++
      rewrite_from replacement (before ++ str1 c) s'
  end.

Definition rewrite (replacement text : string) : string :=
  rewrite_from replacement EmptyString text.

(** What takes the place of the slash: the inbound scheme, two slashes,
    the inbound host, a slash, the origin of the target, a slash. *)
Definition replacement (protocol host origin : string) : string :=
  protocol ++ "//" ++ host ++ "/" ++ origin ++ "/".

(** No dollar sign. *)
Fixpoint no_dollar (s : string) : bool :=
  match s with
  | EmptyString => true
  | String c s' => negb (Ascii.eqb c dollar) && no_dollar s'
  end.

(** No match of the worker's expression begins in [since], the text
    passed since the last match, when [s] is the text still to come. *)
Definition unmatched (since s : string) : Prop :=
  forall pre suf, since = pre ++ suf -> suf <> EmptyString ->
                  match_here Worker.relativePathRegex (suf ++ s) = None.

End Spec.

(* ================================================================= *)
(** ** Part IV, continued.  Notions for the further properties *)
(* ================================================================= *)

Module Relay.
Import JS.

(** The inbound request gets as far as the network: its URL parses to
    [url] with a path other than the root, the path resolves to [target],
    which parses to [tu] without credentials, and the method allows the
    body. *)
Definition dispatched (P : Platform) (inbound : HttpRequest.t) (url : URL.t)
    (target : string) (tu : URL.t) : Prop :=
  parseURL P (HttpRequest.url inbound) = inr url /\
  URL.pathname url <> "/" /\
  Worker.actualUrlStr url = inr target /\
  parseURL P target = inr tu /\
  URL.username tu = EmptyString /\
  URL.password tu = EmptyString /\
  Spec.body_allowed inbound = true.

(** The names that the no-cache and the CORS headers are set under. *)
Definition policy_names : list string :=
  ["Cache-Control"; "Access-Control-Allow-Origin";
   "Access-Control-Allow-Methods"; "Access-Control-Allow-Headers"].

Definition policy_name (name : string) : bool :=
  existsb (HeaderList.same_name name) policy_names.

(** No percent sign. *)
Fixpoint no_percent (s : string) : bool :=
  match s with
  | EmptyString => true
  | String c s' => negb (Ascii.eqb c percent) && no_percent s'
  end.

(** *** Well-formed UTF-8 *)

(** The code of [c] lies between [lo] and [hi]. *)
Definition between (lo hi : N) (c : ascii) : bool :=
  (lo <=? code c) && (code c <=? hi).

Definition continuation (c : ascii) : bool := between 128 191 c.

(** The first two bytes of a three-byte and of a four-byte sequence
    (Unicode, table 3-7): no overlong form, no surrogate, nothing above
    U+10FFFF. *)
Definition three_bytes (c1 c2 : ascii) : bool :=
  (between 224 224 c1 && between 160 191 c2) ||
  (between 225 236 c1 && continuation c2) ||
  (between 237 237 c1 && between 128 159 c2) ||
  (between 238 239 c1 && continuation c2).

Definition four_bytes (c1 c2 : ascii) : bool :=
  (between 240 240 c1 && between 144 191 c2) ||
  (between 241 243 c1 && continuation c2) ||
  (between 244 244 c1 && between 128 143 c2).

(** The strings of bytes that stand for a JavaScript string. *)
Fixpoint well_formed (s : string) : bool :=
  match s with
  | EmptyString => true
  | String c1 r1 =>
      if code c1 <? 128 then well_formed r1
      else
        match r1 with
        | String c2 r2 =>
            if between 194 223 c1 && continuation c2 then well_formed r2
            else
              match r2 with
              | String c3 r3 =>
                  if three_bytes c1 c2 && continuation c3 then well_formed r3
                  else
                    match r3 with
                    | String c4 r4 =>
                        four_bytes c1 c2 && continuation c3 && continuation c4 &&
                        well_formed r4
                    | EmptyString => false
                    end
              | EmptyString => false
              end
        | EmptyString => false
        end
  end.

(** *** Texts with and without references *)

(** No character of [s], the text [before] it given, is the single leading
    slash of a reference. *)
Fixpoint no_reference_from (before s : string) : bool :=
  match s with
  | EmptyString => true
  | String c s' =>
      negb (Spec.relative_slash before c s') &&
      no_reference_from (before ++ str1 c) s'
  end.

Definition no_reference (text : string) : bool :=
  no_reference_from EmptyString text.

(** Neither a double quote nor an apostrophe. *)
Fixpoint no_quote (s : string) : bool :=
  match s with
  | EmptyString => true
  | String c s' =>
      negb (Ascii.eqb c dquote) && negb (Ascii.eqb c squote) && no_quote s'
  end.

(** Neither a dollar sign nor a quote. *)
Definition plain (s : string) : bool := Spec.no_dollar s && no_quote s.

(** A text that is empty or ends with a slash. *)
Definition closed (d : string) : Prop :=
  d = EmptyString \/ exists d', d = d' ++ "/".

(** *** More upstream resources for the examples *)

(** A conditional request answered for a page. *)
Definition not_modified : HttpResponse.t :=
  HttpResponse.make 304 "Not Modified"
    [("Content-Type", "text/html"); ("ETag", "v1")] None.

(** A status of no class. *)
Definition request_denied : HttpResponse.t :=
  HttpResponse.make 999 "Request Denied" [("Content-Type", "text/html")]
    (Some "denied").

(** A redirect that names no location. *)
Definition found_nowhere : HttpResponse.t :=
  HttpResponse.make 302 "Found" [("Content-Length", "0")] None.

(** A page that sets two cookies. *)
Definition page_with_cookies : HttpResponse.t :=
  HttpResponse.make 200 "OK"
    [("Content-Type", "text/html; charset=utf-8"); ("Set-Cookie", "a=1");
     ("cache-control", "max-age=3600"); ("Set-Cookie", "b=2");
     ("CACHE-CONTROL", "public")]
    (Some Demo.page).

Definition sites : list (string * HttpResponse.t) :=
  [ ("https://example.com/n", not_modified);
    ("https://example.com/u", request_denied);
    ("https://example.com/w", found_nowhere);
    ("https://example.com/k", page_with_cookies) ].

(** The parser of the examples, with [ftp://] URLs accepted as well. *)
Definition parse (input : string) : Error + URL.t :=
  if startsWith input "ftp://" then
    let (host, rest1) :=
      Demo.span [Demo.slash; Demo.question; Demo.hash] (skipn 6 input) in
    let (path, rest2) := Demo.span [Demo.question; Demo.hash] rest1 in
    let (query, fragment) := Demo.span [Demo.hash] rest2 in
    let pathname := if String.eqb path EmptyString then "/" else path in
    let search := if String.eqb query "?" then EmptyString else query in
    if String.eqb host EmptyString then inl Demo.TypeError_invalid_URL
    else inr (URL.make ("ftp://" ++ host ++ pathname ++ search ++ fragment)
                "ftp:" EmptyString EmptyString host pathname search
                ("ftp://" ++ host))
  else Demo.parse input.

(** A redirect to a location that is neither [http] nor [https]. *)
Definition found_ftp : HttpResponse.t :=
  HttpResponse.make 302 "Found" [("Location", "ftp://example.com/file")] None.

(** The platform of the examples with this parser and this one resource. *)
Definition platform : Platform :=
  mkPlatform parse (Demo.network_of [("https://example.com/f", found_ftp)])
    (fun bytes => bytes).

(** Inbound headers of two names, one of them twice, around a header of
    the edge platform. *)
Definition mixed_headers : HeaderList.t :=
  [("X-B", "2"); ("CF-Ray", "8a1b2c3d4e5f"); ("X-A", "1"); ("X-B", "3")].

(** An inbound request with a body and with headers of the edge
    platform. *)
Definition post (url : string) : HttpRequest.t :=
  HttpRequest.make url "POST"
    [("CF-Ray", "8a1b2c3d4e5f"); ("Accept", "text/html");
     ("cf-connecting-ip", "203.0.113.7")]
    (Some "q=1") "follow".

(** What goes upstream for it when it asks for [/example.com/k?x=1]. *)
Definition forwarded_post : HttpRequest.t :=
  HttpRequest.make "https://example.com/k?x=1" "POST" [("accept", "text/html")]
    (Some "q=1") "manual".

(** A target with a letter outside ASCII, U+00E9, which takes the two bytes
    195 and 169. *)
Definition cafe : string :=
  "example.com/caf" ++ String (chr 195) (String (chr 169) EmptyString).

(** A reference in capitals and a protocol-relative one. *)
Definition capitals : string :=
  "<a HREF=" ++ Demo.quoted "/x" ++ "><img src=" ++
  Demo.quoted "//cdn.example.com/x.png" ++ ">".

End Relay.

(* ================================================================= *)
(** ** Part V.  Facts about the runtime *)
(* ================================================================= *)

Import JS.

Lemma append_assoc (a b c : string) : (a ++ b) ++ c = a ++ (b ++ c).
Proof. induction a as [|x a IH]; simpl; [reflexivity | now rewrite IH]. Qed.

Lemma append_empty_r (a : string) : a ++ EmptyString = a.
Proof. induction a as [|x a IH]; simpl; [reflexivity | now rewrite IH]. Qed.

Lemma length_append (a b : string) :
  String.length (a ++ b) = (String.length a + String.length b)%nat.
Proof. induction a as [|x a IH]; simpl; [reflexivity | now rewrite IH]. Qed.

Lemma prefix_empty (s : string) : prefix EmptyString s = true.
Proof. destruct s; reflexivity. Qed.

Lemma prefix_append (p r : string) : prefix p (p ++ r) = true.
Proof.
  induction p as [|x p IH]; simpl.
  - apply prefix_empty.
  - destruct (ascii_dec x x) as [_|n]; [exact IH | now destruct n].
Qed.

Lemma skipn_append (p r : string) : skipn (String.length p) (p ++ r) = r.
Proof. induction p as [|x p IH]; simpl; [reflexivity | exact IH]. Qed.

Lemma prefix_split (p s : string) :
  prefix p s = true -> s = p ++ skipn (String.length p) s.
Proof.
  revert s; induction p as [|x p IH]; intros s H; simpl.
  - reflexivity.
  - destruct s as [|y s]; simpl in H; [discriminate|].
    destruct (ascii_dec x y) as [->|]; [|discriminate].
    simpl. now rewrite <- IH.
Qed.

(** Removing the first slash of a path that begins with one leaves the
    rest of the path. *)
Lemma String_replace_leading_slash (p : string) :
  String_replace ("/" ++ p) "/" EmptyString = p.
Proof.
  unfold String_replace. simpl.
  destruct (ascii_dec "/" "/") as [_|n]; [|now destruct n].
  rewrite prefix_empty. reflexivity.
Qed.

(* ================================================================= *)
(** ** Part VI.  The URL Resolver *)
(* ================================================================= *)

Import Worker.

(** C3.  For an inbound request with a non-root path, the target is the
    percent-decoded path after the leading slash, used as it is when it
    begins with [http://] or [https://] and otherwise prefixed with the
    inbound protocol and two slashes, followed by the inbound query
    string, once. *)
Theorem actualUrlStr_resolves (url : URL.t) (path decoded : string) :
  URL.pathname url = "/" ++ path ->
  path <> EmptyString ->
  decodeURIComponent path = inr decoded ->
  actualUrlStr url =
    inr (Spec.target decoded (URL.protocol url) (URL.search url)).
Proof.
  intros Hpath _ Hdec. unfold actualUrlStr.
  rewrite Hpath, String_replace_leading_slash, Hdec.
  reflexivity.
Qed.

Lemma actualUrlStr_resolves_witness :
  actualUrlStr
    (URL.make "https://relay.example/example.com/a?x=1" "https:" EmptyString
       EmptyString "relay.example" "/example.com/a" "?x=1"
       "https://relay.example")
  = inr "https://example.com/a?x=1".
Proof.
  apply (actualUrlStr_resolves
           (URL.make "https://relay.example/example.com/a?x=1" "https:"
              EmptyString EmptyString "relay.example" "/example.com/a" "?x=1"
              "https://relay.example")
           "example.com/a" "example.com/a");
    [reflexivity | discriminate | reflexivity].
Defined.

(** C9.  Scheme detection is case-sensitive: a decoded path whose scheme
    is written with an upper-case letter is not taken to have a scheme, and
    the inbound protocol and two slashes are put in front of it. *)
Theorem ensureProtocol_is_case_sensitive (url defaultProtocol : string) :
  Spec.mixed_case_scheme url = true ->
  ensureProtocol url defaultProtocol = defaultProtocol ++ "//" ++ url.
Proof.
  unfold Spec.mixed_case_scheme, ensureProtocol. intros H.
  apply andb_prop in H as [_ H]. apply negb_true_iff in H.
  now rewrite H.
Qed.

Lemma ensureProtocol_is_case_sensitive_witness :
  Spec.mixed_case_scheme "HTTP://example.com" = true /\
  ensureProtocol "HTTP://example.com" "https:" = "https://HTTP://example.com".
Proof.
  split; [reflexivity|].
  exact (ensureProtocol_is_case_sensitive "HTTP://example.com" "https:" eq_refl).
Defined.

(* ================================================================= *)
(** ** Part VII.  Malformed paths and the error envelope *)
(* ================================================================= *)

Ltac each_char c :=
  let b0 := fresh in let b1 := fresh in let b2 := fresh in
  let b3 := fresh in let b4 := fresh in let b5 := fresh in
  let b6 := fresh in let b7 := fresh in
  destruct c as [b0 b1 b2 b3 b4 b5 b6 b7];
  destruct b0, b1, b2, b3, b4, b5, b6, b7.

Lemma hexval_not_hex (c : ascii) : Spec.hex_digit c = false -> hexval c = None.
Proof. each_char c; vm_compute; intros H; solve [reflexivity | discriminate H]. Qed.

Lemma hexbyte_not_hex (h1 h2 : ascii) :
  Spec.hex_digit h1 && Spec.hex_digit h2 = false -> hexbyte h1 h2 = None.
Proof.
  intros H. unfold hexbyte. apply andb_false_iff in H as [H|H].
  - now rewrite (hexval_not_hex _ H).
  - rewrite (hexval_not_hex _ H). now destruct (hexval h1).
Qed.

Lemma hexbyte_percent_l (h : ascii) : hexbyte percent h = None.
Proof. reflexivity. Qed.

Lemma hexbyte_percent_r (h : ascii) : hexbyte h percent = None.
Proof. unfold hexbyte. now destruct (hexval h). Qed.

Lemma Decode_at_malformed (b : string) (pend : option pending) :
  Spec.two_hex_digits b = false -> Decode pend (String percent b) = None.
Proof.
  intros H. simpl.
  destruct b as [|h1 [|h2 b]]; try reflexivity.
  simpl in H. now rewrite (hexbyte_not_hex _ _ H).
Qed.

(** Decode fails on every string with a malformed escape, whatever it is
    in the middle of. *)
Lemma Decode_malformed (n : nat) :
  forall (a b : string) (pend : option pending),
    (String.length a <= n)%nat ->
    Spec.two_hex_digits b = false ->
    Decode pend (a ++ String percent b) = None.
Proof.
  induction n as [|n IH]; intros a b pend Hlen Hb.
  - destruct a; [|simpl in Hlen; lia]. now apply Decode_at_malformed.
  - destruct a as [|c a]; [now apply Decode_at_malformed|].
    simpl in Hlen.
    change (String c a ++ String percent b) with (String c (a ++ String percent b)).
    cbn [Decode]. destruct (Ascii.eqb c percent).
    + destruct a as [|h1 [|h2 a]].
      * cbn [String.append]. destruct b as [|h2 b]; [reflexivity|].
        now rewrite hexbyte_percent_l.
      * cbn [String.append]. now rewrite hexbyte_percent_r.
      * cbn [String.append].
        assert (Hrec : forall q, Decode q (a ++ String percent b) = None).
        { intros q. apply IH; [simpl in Hlen; lia | exact Hb]. }
        destruct (hexbyte h1 h2) as [v|]; [|reflexivity].
        destruct pend as [p|].
        -- destruct (is_continuation v); [|reflexivity].
           cbv zeta. destruct (need (push p v)).
           ++ destruct (valid_code_point (push p v)); [|reflexivity].
              now rewrite Hrec.
           ++ apply Hrec.
        -- destruct (v <? 128); [now rewrite Hrec|].
           destruct (lead v); [apply Hrec | reflexivity].
    + destruct pend; [reflexivity|].
      rewrite IH; [reflexivity | lia | exact Hb].
Qed.

Lemma decodeURIComponent_malformed (s : string) :
  Spec.malformed_escape s -> decodeURIComponent s = inl URIError_malformed.
Proof.
  intros (a & b & -> & Hb). unfold decodeURIComponent.
  now rewrite (Decode_malformed (String.length a) a b None (le_n _) Hb).
Qed.

Lemma malformed_escape_nonempty (s : string) :
  Spec.malformed_escape s -> s <> EmptyString.
Proof. intros (a & b & -> & _). now destruct a. Qed.

Lemma nth_length_app {A} (l : list A) (x d : A) :
  nth (List.length l) (l ++ [x]) d = x.
Proof. induction l; simpl; auto. Qed.

Lemma eqb_slash_path (path : string) :
  path <> EmptyString -> String.eqb ("/" ++ path) "/" = false.
Proof. intros H. destruct path; [now destruct H | reflexivity]. Qed.

(** What [jsonResponse] does with an error message: a new [Headers]
    object with the one header, and the response that refers to it. *)
Lemma jsonResponse_error (msg : string) (st : Store) :
  jsonResponse (JSObject [("error", JSString msg)]) 500 st =
  (inr (Response.make 500 EmptyString (List.length (heap st))
          (option_map Text (HttpResponse.body (Spec.error_envelope msg)))),
   mkStore (heap st ++ [HttpResponse.headers (Spec.error_envelope msg)]) (sent st)).
Proof.
  unfold jsonResponse, new_Response, Headers_new, Response_with, Headers_get,
    alloc, read, bind, ret.
  cbn. rewrite nth_length_app. reflexivity.
Qed.

(** The handler, when its pipeline throws. *)
Lemma fetch_caught (P : Platform) (request : Request.t) (st st1 : Store) (e : Error) :
  pipeline P request st = (inl e, st1) ->
  Worker.fetch P request st =
  (inr (Response.make 500 EmptyString (List.length (heap st1))
          (option_map Text (HttpResponse.body (Spec.error_envelope (message e))))),
   mkStore (heap st1 ++ [HttpResponse.headers (Spec.error_envelope (message e))])
           (sent st1)).
Proof.
  intros H. unfold Worker.fetch, try_catch. rewrite H. apply jsonResponse_error.
Qed.

Lemma observe_envelope (msg : string) (st : Store) :
  observe
    (Response.make 500 EmptyString (List.length (heap st))
       (option_map Text (HttpResponse.body (Spec.error_envelope msg))))
    (mkStore (heap st ++ [HttpResponse.headers (Spec.error_envelope msg)]) (sent st))
  = Spec.error_envelope msg.
Proof. unfold observe. cbn. now rewrite nth_length_app. Qed.

(** C10.  An inbound path with a malformed percent-encoding makes the
    decoding fail: no outbound request is issued and the caller receives
    the 500 JSON error envelope, with the message of the URIError. *)
Theorem malformed_path_yields_envelope
    (P : Platform) (inbound : HttpRequest.t) (url : URL.t) (path : string) :
  parseURL P (HttpRequest.url inbound) = inr url ->
  URL.pathname url = "/" ++ path ->
  Spec.malformed_escape path ->
  serve P inbound = (inr (Spec.error_envelope (message URIError_malformed)), nil).
Proof.
  intros Hurl Hpath Hbad. unfold serve.
  assert (Hpipe : pipeline P (request_of inbound) (initial inbound) =
                  (inl URIError_malformed, initial inbound)).
  { unfold pipeline, bind, new_URL, lift. cbn [request_of Request.url].
    rewrite Hurl. cbn [ret]. rewrite Hpath.
    rewrite (eqb_slash_path _ (malformed_escape_nonempty _ Hbad)).
    unfold actualUrlStr. rewrite Hpath, String_replace_leading_slash.
    now rewrite (decodeURIComponent_malformed _ Hbad). }
  rewrite (fetch_caught _ _ _ _ _ Hpipe), observe_envelope. reflexivity.
Qed.

Lemma malformed_path_yields_envelope_witness :
  serve (Demo.platform nil) (Demo.GET "https://relay.example/%zz" nil) =
  (inr (Spec.error_envelope "URI malformed"), nil).
Proof.
  apply (malformed_path_yields_envelope (Demo.platform nil)
           (Demo.GET "https://relay.example/%zz" nil)
           (URL.make "https://relay.example/%zz" "https:" EmptyString EmptyString
              "relay.example" "/%zz" EmptyString "https://relay.example")
           "%zz");
    [reflexivity | reflexivity |].
  exists EmptyString, "zz". split; reflexivity.
Defined.

(** *** The envelope, read back *)

Lemma read_chars_quote_char (c : ascii) (k : string) :
  Spec.read_chars (quote_char c ++ k) =
  option_map (Spec.cons_fst c) (Spec.read_chars k).
Proof. each_char c; reflexivity. Qed.

Lemma read_chars_quote_chars (s rest : string) :
  Spec.read_chars (quote_chars s ++ String dquote rest) = Some (s, rest).
Proof.
  induction s as [|c s IH].
  - reflexivity.
  - cbn [quote_chars]. rewrite append_assoc, read_chars_quote_char, IH.
    reflexivity.
Qed.

Lemma read_string_quote (s rest : string) :
  Spec.read_string (QuoteJSONString s ++ rest) = Some (s, rest).
Proof.
  unfold QuoteJSONString. cbn [String.append Spec.read_string].
  change (Ascii.eqb dquote dquote) with true. cbv iota.
  rewrite append_assoc. apply read_chars_quote_chars.
Qed.

(** A JSON reader finds one key in the envelope, [error], and the message
    as its value. *)
Lemma read_envelope (msg : string) :
  option_map Spec.read_object (HttpResponse.body (Spec.error_envelope msg)) =
  Some (Some [("error", msg)]).
Proof.
  cbn [Spec.error_envelope HttpResponse.body option_map]. f_equal.
  change ("{" ++ QuoteJSONString "error" ++ ":" ++ QuoteJSONString msg ++ "}")
    with (String "{" (QuoteJSONString "error" ++ ":" ++ QuoteJSONString msg ++ "}")).
  cbn [Spec.read_object]. change (Ascii.eqb "{" "{") with true. cbv iota.
  replace (String.eqb (QuoteJSONString "error" ++ ":" ++ QuoteJSONString msg ++ "}") "}")
    with false by reflexivity.
  set (body := QuoteJSONString "error" ++ ":" ++ QuoteJSONString msg ++ "}").
  assert (Hlen : exists n, String.length body = S n) by (eexists; reflexivity).
  destruct Hlen as [n ->]. subst body. cbn [Spec.read_members].
  rewrite read_string_quote.
  change (":" ++ QuoteJSONString msg ++ "}")
    with (String ":" (QuoteJSONString msg ++ "}")).
  cbv iota. change (Ascii.eqb ":" ":") with true. cbv iota.
  rewrite read_string_quote. reflexivity.
Qed.

(** C8.  An error raised anywhere in the pipeline is caught by the handler
    and becomes a response with status 500, the one header [Content-Type:
    application/json; charset=utf-8], and a JSON body whose only key is
    [error] and whose value is the message of the error; nothing else of
    the error is used, and no further request is issued. *)
Theorem errors_become_envelope
    (P : Platform) (request : Request.t) (st st1 : Store) (e : Error) :
  pipeline P request st = (inl e, st1) ->
  exists response st2,
    Worker.fetch P request st = (inr response, st2) /\
    observe response st2 = Spec.error_envelope (message e) /\
    option_map Spec.read_object (HttpResponse.body (observe response st2)) =
      Some (Some [("error", message e)]) /\
    sent st2 = sent st1.
Proof.
  intros H. eexists _, _. split; [exact (fetch_caught _ _ _ _ _ H)|].
  rewrite observe_envelope, read_envelope. auto.
Qed.

Lemma errors_become_envelope_witness :
  exists response st2,
    Worker.fetch (Demo.platform nil)
      (request_of (Demo.GET "https://relay.example/example.com/a" nil))
      (initial (Demo.GET "https://relay.example/example.com/a" nil))
    = (inr response, st2) /\
    observe response st2 = Spec.error_envelope "Network connection lost." /\
    option_map Spec.read_object (HttpResponse.body (observe response st2)) =
      Some (Some [("error", "Network connection lost.")]) /\
    sent st2 = [HttpRequest.make "https://example.com/a" "GET" nil None "manual"].
Proof.
  exact (errors_become_envelope (Demo.platform nil)
           (request_of (Demo.GET "https://relay.example/example.com/a" nil))
           (initial (Demo.GET "https://relay.example/example.com/a" nil))
           (mkStore [nil; nil; nil]
              [HttpRequest.make "https://example.com/a" "GET" nil None "manual"])
           Demo.NetworkError eq_refl).
Defined.

(** The handler never lets an error escape: it always returns a
    response. *)
Lemma fetch_always_responds (P : Platform) (request : Request.t) (st : Store) :
  exists response st', Worker.fetch P request st = (inr response, st').
Proof.
  destruct (pipeline P request st) as [[e|r] st1] eqn:H.
  - eexists _, _. exact (fetch_caught _ _ _ _ _ H).
  - exists r, st1. unfold Worker.fetch, try_catch. now rewrite H.
Qed.

(* ================================================================= *)
(** ** Part VIII.  Header lists and the Header Filter *)
(* ================================================================= *)

Section HeaderListFacts.
Local Open Scope list_scope.
Import HeaderList.

Lemma lower_char_idem (c : ascii) : lower_char (lower_char c) = lower_char c.
Proof. each_char c; reflexivity. Qed.

Lemma byteLowercase_idem (s : string) :
  byteLowercase (byteLowercase s) = byteLowercase s.
Proof.
  induction s as [|c s IH]; simpl; [reflexivity|].
  now rewrite lower_char_idem, IH.
Qed.

Lemma named_lname (name : string) (h : string * string) :
  named name h = String.eqb (lname h) (byteLowercase name).
Proof. reflexivity. Qed.

Lemma named_lower (name : string) (h : string * string) :
  named (byteLowercase name) h = named name h.
Proof. unfold named, same_name. now rewrite byteLowercase_idem. Qed.

Lemma values_of_lower (name : string) (l : t) :
  values_of (byteLowercase name) l = values_of name l.
Proof.
  unfold values_of. f_equal. apply filter_ext. intros h. apply named_lower.
Qed.

Lemma contains_lower (name : string) (l : t) :
  contains (byteLowercase name) l = contains name l.
Proof.
  unfold contains. induction l as [|h l IH]; simpl; [reflexivity|].
  now rewrite named_lower, IH.
Qed.

Lemma get_lower (name : string) (l : t) :
  get (byteLowercase name) l = get name l.
Proof. unfold get. now rewrite contains_lower, values_of_lower. Qed.

Lemma contains_In (name : string) (l : t) :
  contains name l = true <-> In (byteLowercase name) (map lname l).
Proof.
  unfold contains. rewrite existsb_exists, in_map_iff. split.
  - intros (h & Hin & Hn). exists h. split; [|exact Hin].
    rewrite named_lname in Hn. now apply String.eqb_eq in Hn.
  - intros (h & Heq & Hin). exists h. split; [exact Hin|].
    rewrite named_lname. now apply String.eqb_eq.
Qed.

Lemma contains_values (name : string) (l : t) :
  contains name l = false -> values_of name l = nil.
Proof.
  unfold contains, values_of. induction l as [|h l IH]; simpl; [reflexivity|].
  intros H. apply orb_false_iff in H as [H1 H2]. rewrite H1. auto.
Qed.

Lemma values_contains (name : string) (l : t) :
  contains name l = true -> values_of name l <> nil.
Proof.
  unfold contains, values_of. induction l as [|h l IH]; simpl; [discriminate|].
  destruct (named name h); simpl; [discriminate | exact IH].
Qed.

Lemma values_of_app (name : string) (l1 l2 : t) :
  values_of name (l1 ++ l2) = values_of name l1 ++ values_of name l2.
Proof. unfold values_of. now rewrite filter_app, map_app. Qed.

(** *** The sorted lowercase set *)

Lemma add_name_In (set : list string) (x y : string) :
  In y (add_name set x) <-> In y set \/ y = x.
Proof.
  unfold add_name. destruct (existsb (String.eqb x) set) eqn:E.
  - apply existsb_exists in E as (z & Hz & Hxz). apply String.eqb_eq in Hxz.
    subst z. split; [auto | intros [H| ->]; auto].
  - rewrite in_app_iff. simpl. intuition.
Qed.

Lemma add_name_NoDup (set : list string) (x : string) :
  NoDup set -> NoDup (add_name set x).
Proof.
  intros H. unfold add_name. destruct (existsb (String.eqb x) set) eqn:E.
  - exact H.
  - apply NoDup_app; [exact H | repeat constructor; intros [] | ].
    intros y Hy [->|[]].
    assert (existsb (String.eqb y) set = true) as Habs; [|congruence].
    apply existsb_exists. exists y. split; [exact Hy | apply String.eqb_refl].
Qed.

Lemma collect_In (l : t) (acc : list string) (y : string) :
  In y (collect l acc) <-> In y acc \/ In y (map lname l).
Proof.
  revert acc. induction l as [|h l IH]; intros acc; simpl.
  - intuition.
  - unfold collect in *. simpl. rewrite IH, add_name_In. unfold lname. intuition.
Qed.

Lemma collect_NoDup (l : t) (acc : list string) :
  NoDup acc -> NoDup (collect l acc).
Proof.
  revert acc. induction l as [|h l IH]; intros acc H; simpl; [exact H|].
  apply IH. now apply add_name_NoDup.
Qed.

Lemma le_iff (x y : string) : le x y <-> x = y \/ String_as_OT.lt x y.
Proof.
  unfold le, String.leb. rewrite <- String_as_OT.cmp_eq, <- String_as_OT.cmp_lt.
  unfold String_as_OT.cmp. destruct (String.compare x y); intuition discriminate.
Qed.

Lemma le_trans (x y z : string) : le x y -> le y z -> le x z.
Proof.
  rewrite !le_iff. intros [->|H1] [->|H2]; auto.
  right. eapply String_as_OT.lt_trans; eassumption.
Qed.

Lemma le_total (x y : string) : String.leb x y = false -> le y x.
Proof.
  intros H. destruct (String.leb_total x y) as [H'|H']; [congruence | exact H'].
Qed.

Lemma insert_sorted_perm (x : string) (l : list string) :
  Permutation (insert_sorted x l) (x :: l).
Proof.
  induction l as [|y l IH]; simpl; [reflexivity|].
  destruct (String.leb x y); [reflexivity|].
  rewrite IH. apply perm_swap.
Qed.

Lemma sort_names_perm (l : list string) : Permutation (sort_names l) l.
Proof.
  induction l as [|x l IH]; simpl; [reflexivity|].
  now rewrite insert_sorted_perm, IH.
Qed.

Lemma insert_sorted_Sorted (x : string) (l : list string) :
  Sorted le l -> Sorted le (insert_sorted x l).
Proof.
  induction l as [|y l IH]; intros H; simpl.
  - repeat constructor.
  - destruct (String.leb x y) eqn:E.
    + constructor; [exact H | constructor; exact E].
    + apply Sorted_inv in H as [Hs Hh]. constructor; [now apply IH|].
      destruct l as [|z l]; simpl.
      * constructor. now apply le_total.
      * destruct (String.leb x z); constructor;
          [now apply le_total | now inversion Hh].
Qed.

Lemma sort_names_Sorted (l : list string) : Sorted le (sort_names l).
Proof.
  induction l as [|x l IH]; simpl; [constructor | now apply insert_sorted_Sorted].
Qed.

(** Sorting a sorted list changes nothing. *)
Lemma sort_names_id (l : list string) : Sorted le l -> sort_names l = l.
Proof.
  induction l as [|x l IH]; intros H; simpl; [reflexivity|].
  apply Sorted_inv in H as [Hs Hh]. rewrite (IH Hs).
  destruct Hh as [|y l' Hxy]; simpl; [reflexivity|].
  unfold le in Hxy. now rewrite Hxy.
Qed.

Lemma filter_Sorted (f : string -> bool) (l : list string) :
  Sorted le l -> Sorted le (filter f l).
Proof.
  intros H. apply StronglySorted_Sorted.
  apply Sorted_StronglySorted in H; [|exact le_trans].
  induction H as [|x l Hs IH Hall]; simpl; [constructor|].
  destruct (f x); [|exact IH].
  constructor; [exact IH|].
  rewrite Forall_forall in *. intros y Hy. apply filter_In in Hy as [Hy _]. auto.
Qed.

Lemma set_In (l : t) (x : string) :
  In x (sorted_lowercase_set l) <-> In x (map lname l).
Proof.
  unfold sorted_lowercase_set.
  split; intros H.
  - apply (Permutation_in _ (sort_names_perm _)) in H.
    apply collect_In in H as [[]|H]; exact H.
  - apply (Permutation_in _ (Permutation_sym (sort_names_perm _))).
    apply collect_In. now right.
Qed.

Lemma set_NoDup (l : t) : NoDup (sorted_lowercase_set l).
Proof.
  unfold sorted_lowercase_set.
  eapply Permutation_NoDup; [apply Permutation_sym, sort_names_perm|].
  apply collect_NoDup. constructor.
Qed.

Lemma set_Sorted (l : t) : Sorted le (sorted_lowercase_set l).
Proof. apply sort_names_Sorted. Qed.

Lemma set_lower (l : t) (x : string) :
  In x (sorted_lowercase_set l) -> byteLowercase x = x.
Proof.
  intros H. apply set_In, in_map_iff in H as (h & <- & _).
  apply byteLowercase_idem.
Qed.

Lemma set_contains (l : t) (x : string) :
  In x (sorted_lowercase_set l) -> contains x l = true.
Proof.
  intros H. apply contains_In. rewrite (set_lower _ _ H). now apply set_In.
Qed.

(** *** The entries of one name *)

Lemma join_one (sep x : string) : join sep [x] = x.
Proof. reflexivity. Qed.

Lemma entries_of_fst (l : t) (n : string) (h : string * string) :
  In h (entries_of l n) -> fst h = n.
Proof.
  unfold entries_of. destruct (String.eqb n "set-cookie").
  - intros H. apply in_map_iff in H as (v & <- & _). reflexivity.
  - destruct (get n l); simpl; [intros [<-|[]]; reflexivity | intros []].
Qed.

Lemma entries_of_nonempty (l : t) (m : string) :
  In m (sorted_lowercase_set l) -> entries_of l m <> nil.
Proof.
  intros H. apply set_contains in H. unfold entries_of, get. rewrite H.
  destruct (String.eqb m "set-cookie"); [|discriminate].
  apply values_contains in H. destruct (values_of m l); [now destruct H | discriminate].
Qed.

(** In a list of entries that all carry the lowercase name [m], a
    lowercase name finds all of them or none. *)
Lemma named_group (E : t) (n m : string) :
  (forall h, In h E -> fst h = m) ->
  byteLowercase m = m -> byteLowercase n = n ->
  filter (named n) E = if String.eqb n m then E else nil.
Proof.
  intros HE Hm Hn. induction E as [|h E IH]; simpl.
  - now destruct (String.eqb n m).
  - rewrite IH by (intros; apply HE; now right).
    unfold named, same_name. rewrite (HE h (or_introl eq_refl)), Hm, Hn.
    rewrite String.eqb_sym. now destruct (String.eqb n m).
Qed.

Lemma values_of_group (E : t) (n m : string) :
  (forall h, In h E -> fst h = m) ->
  byteLowercase m = m -> byteLowercase n = n ->
  values_of n E = if String.eqb n m then map snd E else nil.
Proof.
  intros HE Hm Hn. unfold values_of. rewrite (named_group E n m HE Hm Hn).
  now destruct (String.eqb n m).
Qed.

Lemma contains_group (E : t) (n m : string) :
  (forall h, In h E -> fst h = m) -> E <> nil ->
  byteLowercase m = m -> byteLowercase n = n ->
  contains n E = String.eqb n m.
Proof.
  intros HE Hne Hm Hn. unfold contains.
  destruct (existsb (named n) E) eqn:Hex.
  - apply existsb_exists in Hex as (h & Hh & Hnamed).
    unfold named, same_name in Hnamed. rewrite (HE h Hh), Hm, Hn in Hnamed.
    now rewrite String.eqb_sym.
  - destruct E as [|h E]; [now destruct Hne|]. simpl in Hex.
    apply orb_false_iff in Hex as [Hex _].
    unfold named, same_name in Hex.
    rewrite (HE h (or_introl eq_refl)), Hm, Hn in Hex.
    now rewrite String.eqb_sym.
Qed.

Lemma existsb_eqb_In (n : string) (N : list string) :
  existsb (String.eqb n) N = true <-> In n N.
Proof.
  rewrite existsb_exists. split.
  - intros (m & Hm & E). apply String.eqb_eq in E. now subst.
  - intros H. exists n. split; [exact H | apply String.eqb_refl].
Qed.

Lemma existsb_eqb_notIn (n : string) (N : list string) :
  ~ In n N -> existsb (String.eqb n) N = false.
Proof.
  intros H. destruct (existsb (String.eqb n) N) eqn:E; [|reflexivity].
  now apply existsb_eqb_In in E.
Qed.

(** *** A selection [N] of the names of [l], and the entries that stand
    for it *)

Lemma selection_tail (l : t) (m : string) (N : list string) :
  selection l (m :: N) -> ~ In m N /\ selection l N.
Proof.
  intros [Hnd Hsub]. apply NoDup_cons_iff in Hnd as [Hm Hnd].
  split; [exact Hm|]. split; [exact Hnd|]. intros x Hx. apply Hsub. now right.
Qed.

Lemma selection_head (l : t) (m : string) (N : list string) :
  selection l (m :: N) ->
  In m (sorted_lowercase_set l) /\ byteLowercase m = m.
Proof.
  intros [_ Hsub]. assert (H : In m (sorted_lowercase_set l)) by (apply Hsub; now left).
  split; [exact H | exact (set_lower _ _ H)].
Qed.

Lemma values_of_flat_map (l : t) (N : list string) (n : string) :
  selection l N -> byteLowercase n = n ->
  values_of n (flat_map (entries_of l) N) =
  if existsb (String.eqb n) N then map snd (entries_of l n) else nil.
Proof.
  intros HN Hn. induction N as [|m N IH]; [reflexivity|].
  destruct (selection_tail _ _ _ HN) as [Hm HN'].
  destruct (selection_head _ _ _ HN) as [_ Hlow].
  simpl. rewrite values_of_app, (IH HN').
  rewrite (values_of_group _ n m (entries_of_fst l m) Hlow Hn).
  destruct (String.eqb n m) eqn:E; simpl.
  - apply String.eqb_eq in E. subst m.
    rewrite (existsb_eqb_notIn _ _ Hm). apply app_nil_r.
  - reflexivity.
Qed.

Lemma contains_flat_map (l : t) (N : list string) (n : string) :
  selection l N -> byteLowercase n = n ->
  contains n (flat_map (entries_of l) N) = existsb (String.eqb n) N.
Proof.
  intros HN Hn. induction N as [|m N IH]; [reflexivity|].
  destruct (selection_tail _ _ _ HN) as [Hm HN'].
  destruct (selection_head _ _ _ HN) as [Hin Hlow].
  simpl. unfold contains in *. rewrite existsb_app, (IH HN').
  f_equal.
  exact (contains_group _ n m (entries_of_fst l m) (entries_of_nonempty _ _ Hin)
           Hlow Hn).
Qed.

Lemma join_snd_entries_of (l : t) (n : string) :
  contains n l = true ->
  join ", " (map snd (entries_of l n)) = join ", " (values_of n l).
Proof.
  intros H. unfold entries_of, get. rewrite H.
  destruct (String.eqb n "set-cookie"); [|reflexivity].
  rewrite map_map. simpl. now rewrite map_id.
Qed.

Lemma get_flat_map (l : t) (N : list string) (n : string) :
  selection l N -> byteLowercase n = n ->
  get n (flat_map (entries_of l) N) =
  if existsb (String.eqb n) N then get n l else None.
Proof.
  intros HN Hn. unfold get at 1.
  rewrite (contains_flat_map _ _ _ HN Hn), (values_of_flat_map _ _ _ HN Hn).
  destruct (existsb (String.eqb n) N) eqn:E; [|reflexivity].
  apply existsb_eqb_In in E. destruct HN as [_ Hsub].
  pose proof (set_contains _ _ (Hsub _ E)) as Hc.
  unfold get. now rewrite Hc, (join_snd_entries_of _ _ Hc).
Qed.

Lemma selection_all (l : t) : selection l (sorted_lowercase_set l).
Proof. split; [apply set_NoDup | auto]. Qed.

Lemma selection_filter (l : t) (f : string -> bool) (N : list string) :
  selection l N -> selection l (filter f N).
Proof.
  intros [Hnd Hsub]. split; [now apply NoDup_filter|].
  intros m Hm. apply filter_In in Hm as [Hm _]. auto.
Qed.

(** Iterating a header list loses nothing of what [get] returns. *)
Lemma get_sort_and_combine (l : t) (n : string) :
  get n (sort_and_combine l) = get n l.
Proof.
  rewrite <- (get_lower n (sort_and_combine l)), <- (get_lower n l).
  unfold sort_and_combine.
  rewrite (get_flat_map _ _ _ (selection_all l) (byteLowercase_idem n)).
  destruct (existsb (String.eqb (byteLowercase n)) (sorted_lowercase_set l)) eqn:E;
    [reflexivity|].
  unfold get. destruct (contains (byteLowercase n) l) eqn:Hc; [|reflexivity].
  rewrite contains_lower in Hc. apply contains_In, set_In, existsb_eqb_In in Hc.
  congruence.
Qed.

Lemma filter_group (f : string -> bool) (E : t) (m : string) :
  (forall h, In h E -> fst h = m) ->
  filter (fun '(name, _) => f name) E = if f m then E else nil.
Proof.
  intros HE. induction E as [|[a b] E IH]; simpl.
  - now destruct (f m).
  - rewrite IH by (intros; apply HE; now right).
    rewrite (HE (a, b) (or_introl eq_refl) : a = m). now destruct (f m).
Qed.

Lemma filter_flat_map (f : string -> bool) (l : t) (N : list string) :
  filter (fun '(name, _) => f name) (flat_map (entries_of l) N) =
  flat_map (entries_of l) (filter f N).
Proof.
  induction N as [|m N IH]; [reflexivity|].
  simpl. rewrite filter_app, IH, (filter_group f _ m (entries_of_fst l m)).
  now destruct (f m).
Qed.

Lemma entries_of_flat_map (l : t) (N : list string) (m : string) :
  selection l N -> In m N ->
  entries_of (flat_map (entries_of l) N) m = entries_of l m.
Proof.
  intros HN Hm.
  assert (Hlow : byteLowercase m = m) by (destruct HN as [_ Hs]; eapply set_lower; eauto).
  unfold entries_of at 1.
  rewrite (get_flat_map _ _ _ HN Hlow), (values_of_flat_map _ _ _ HN Hlow).
  apply existsb_eqb_In in Hm. rewrite Hm.
  unfold entries_of. destruct (String.eqb m "set-cookie"); [|reflexivity].
  rewrite !map_map. reflexivity.
Qed.

Lemma collect_present (E : t) (m : string) (acc : list string) :
  (forall h, In h E -> fst h = m) -> byteLowercase m = m -> In m acc ->
  collect E acc = acc.
Proof.
  intros HE Hlow Hin. induction E as [|h E IH]; [reflexivity|].
  unfold collect in *. simpl. unfold lname at 2.
  rewrite (HE h (or_introl eq_refl)), Hlow.
  unfold add_name. apply existsb_eqb_In in Hin. rewrite Hin.
  apply IH. intros; apply HE; now right.
Qed.

Lemma collect_group (E : t) (m : string) (acc : list string) :
  (forall h, In h E -> fst h = m) -> E <> nil -> byteLowercase m = m ->
  ~ In m acc -> collect E acc = acc ++ [m].
Proof.
  intros HE Hne Hlow Hin. destruct E as [|h E]; [now destruct Hne|].
  unfold collect. simpl. unfold lname at 2.
  rewrite (HE h (or_introl eq_refl)), Hlow.
  unfold add_name. rewrite (existsb_eqb_notIn _ _ Hin).
  apply collect_present with (m := m); auto.
  - intros; apply HE; now right.
  - apply in_or_app. right. now left.
Qed.

Lemma collect_flat_map (l : t) (N acc : list string) :
  selection l N -> NoDup (acc ++ N) ->
  collect (flat_map (entries_of l) N) acc = acc ++ N.
Proof.
  revert acc. induction N as [|m N IH]; intros acc HN Hnd.
  - simpl. now rewrite app_nil_r.
  - destruct (selection_tail _ _ _ HN) as [_ HN'].
    destruct (selection_head _ _ _ HN) as [Hin Hlow].
    simpl. unfold collect. rewrite fold_left_app. fold (collect (entries_of l m) acc).
    rewrite (collect_group _ m acc (entries_of_fst l m) (entries_of_nonempty _ _ Hin) Hlow).
    + fold (collect (flat_map (entries_of l) N) (acc ++ [m])).
      rewrite IH; [now rewrite <- app_assoc | exact HN' | now rewrite <- app_assoc].
    + apply NoDup_remove_2 in Hnd. intros H. apply Hnd. apply in_or_app. now left.
Qed.

Lemma flat_map_entries_of_ext (l l' : t) (N : list string) :
  (forall m, In m N -> entries_of l' m = entries_of l m) ->
  flat_map (entries_of l') N = flat_map (entries_of l) N.
Proof.
  induction N as [|m N IH]; intros H; [reflexivity|].
  simpl. rewrite (H m (or_introl eq_refl)), IH; [reflexivity|].
  intros; apply H; now right.
Qed.

(** The entries that stand for a selection of names form a header list
    that iterates to itself. *)
Lemma sort_and_combine_selection (l : t) (N : list string) :
  selection l N -> Sorted le N ->
  sort_and_combine (flat_map (entries_of l) N) = flat_map (entries_of l) N.
Proof.
  intros HN Hs. unfold sort_and_combine, sorted_lowercase_set.
  rewrite (collect_flat_map l N nil HN (proj1 HN)). simpl.
  rewrite (sort_names_id _ Hs).
  apply flat_map_entries_of_ext. intros m Hm. now apply entries_of_flat_map.
Qed.

(** Filtering the entries of a header list by name and building a header
    list from what is left gives a list that iterates to exactly these
    entries. *)
Lemma sort_and_combine_filter (l : t) (f : string -> bool) :
  sort_and_combine (filter (fun '(name, _) => f name) (sort_and_combine l)) =
  filter (fun '(name, _) => f name) (sort_and_combine l).
Proof.
  unfold sort_and_combine at 2 3. rewrite filter_flat_map.
  apply sort_and_combine_selection.
  - apply selection_filter, selection_all.
  - apply filter_Sorted, set_Sorted.
Qed.

Lemma get_filter (l : t) (f : string -> bool) (n : string) :
  get n (filter (fun '(name, _) => f name) (sort_and_combine l)) =
  if f (byteLowercase n) then get n l else None.
Proof.
  unfold sort_and_combine. rewrite filter_flat_map.
  rewrite <- (get_lower n (flat_map _ _)), <- (get_lower n l).
  rewrite (get_flat_map _ _ _ (selection_filter _ f _ (selection_all l))
             (byteLowercase_idem n)).
  destruct (f (byteLowercase n)) eqn:Hf.
  - destruct (existsb _ (filter f _)) eqn:E; [reflexivity|].
    unfold get. destruct (contains (byteLowercase n) l) eqn:Hc; [|reflexivity].
    rewrite contains_lower in Hc. apply contains_In, set_In in Hc.
    assert (In (byteLowercase n) (filter f (sorted_lowercase_set l)))
      by (apply filter_In; auto).
    apply existsb_eqb_In in H. congruence.
  - destruct (existsb _ (filter f _)) eqn:E; [|reflexivity].
    apply existsb_eqb_In, filter_In in E as [_ E]. congruence.
Qed.

(** *** [set] *)

Lemma same_name_refl (n : string) : same_name n n = true.
Proof. apply String.eqb_refl. Qed.

Lemma same_name_trans_false (a n m : string) :
  same_name a n = true -> same_name n m = false -> same_name a m = false.
Proof.
  unfold same_name. intros H1 H2. apply String.eqb_eq in H1. now rewrite H1.
Qed.

Lemma values_of_without (n : string) (l : t) :
  values_of n (filter (fun h => negb (named n h)) l) = nil.
Proof.
  unfold values_of. induction l as [|h l IH]; simpl; [reflexivity|].
  destruct (named n h) eqn:E; simpl; [exact IH | now rewrite E].
Qed.

Lemma values_of_without_other (n m : string) (l : t) :
  same_name n m = false ->
  values_of m (filter (fun h => negb (named n h)) l) = values_of m l.
Proof.
  intros Hnm. unfold values_of. f_equal.
  induction l as [|h l IH]; simpl; [reflexivity|].
  destruct (named n h) eqn:E; simpl.
  - rewrite IH. unfold named in *.
    now rewrite (same_name_trans_false _ _ _ E Hnm).
  - now rewrite IH.
Qed.

Lemma values_of_set_first (n v : string) (l : t) :
  contains n l = true -> values_of n (set_first n v l) = [v].
Proof.
  unfold contains. induction l as [|h l IH]; simpl; [discriminate|].
  destruct (named n h) eqn:E; simpl; intros H.
  - unfold values_of. simpl. unfold named at 1. simpl. fold (named n h). rewrite E.
    simpl. f_equal. apply values_of_without.
  - unfold values_of in *. simpl. rewrite E. auto.
Qed.

Lemma values_of_set_first_other (n m v : string) (l : t) :
  same_name n m = false -> values_of m (set_first n v l) = values_of m l.
Proof.
  intros Hnm. induction l as [|h l IH]; simpl; [reflexivity|].
  destruct (named n h) eqn:E.
  - assert (Hm : named m h = false)
      by (unfold named in *; exact (same_name_trans_false _ _ _ E Hnm)).
    assert (Hm' : named m (fst h, v) = false) by exact Hm.
    unfold values_of. simpl. rewrite Hm, Hm'.
    apply (values_of_without_other n m l Hnm).
  - unfold values_of in *. simpl. destruct (named m h); simpl; now rewrite IH.
Qed.

(** After [set], the name has the one value. *)
Lemma values_of_set (n v : string) (l : t) : values_of n (set n v l) = [v].
Proof.
  unfold set. destruct (contains n l) eqn:E.
  - now apply values_of_set_first.
  - unfold append. rewrite values_of_app, (contains_values _ _ E).
    unfold values_of. simpl. unfold named. simpl. now rewrite same_name_refl.
Qed.

(** [set] leaves the values of every other name alone. *)
Lemma values_of_set_other (n m v : string) (l : t) :
  same_name n m = false -> values_of m (set n v l) = values_of m l.
Proof.
  intros Hnm. unfold set. destruct (contains n l).
  - now apply values_of_set_first_other.
  - unfold append. rewrite values_of_app. unfold values_of at 2. simpl.
    unfold named. simpl. rewrite Hnm. apply app_nil_r.
Qed.

Lemma policy_injected_inject (l : t) : Spec.policy_injected (Spec.inject l).
Proof.
  unfold Spec.policy_injected, Spec.inject. repeat split.
  - rewrite !values_of_set_other by reflexivity. apply values_of_set.
  - rewrite !values_of_set_other by reflexivity. apply values_of_set.
  - rewrite !values_of_set_other by reflexivity. apply values_of_set.
  - apply values_of_set.
Qed.

Lemma get_of_values (n v : string) (l : t) :
  values_of n l = [v] -> get n l = Some v.
Proof.
  intros H. unfold get. destruct (contains n l) eqn:E.
  - now rewrite H.
  - rewrite (contains_values _ _ E) in H. discriminate.
Qed.

(** *** Entries have lowercase names *)

Lemma sort_and_combine_lower (l : t) (h : string * string) :
  In h (sort_and_combine l) -> byteLowercase (fst h) = fst h.
Proof.
  unfold sort_and_combine. intros H. apply in_flat_map in H as (m & Hm & Hh).
  rewrite (entries_of_fst _ _ _ Hh). eapply set_lower; eauto.
Qed.

Lemma keep_is_not_reserved (l : t) :
  filter (fun '(name, _) => negb (startsWith name "cf-")) (sort_and_combine l) =
  Spec.forwarded_headers l.
Proof.
  unfold Spec.forwarded_headers. apply filter_ext_in. intros [n v] H.
  pose proof (sort_and_combine_lower _ _ H) as E. simpl in E.
  unfold Spec.reserved. simpl. now rewrite E.
Qed.

Lemma fold_left_append (init acc : t) :
  fold_left (fun l h => append (fst h) (snd h) l) init acc = acc ++ init.
Proof.
  revert acc. induction init as [|[a b] init IH]; intros acc; simpl.
  - now rewrite app_nil_r.
  - rewrite IH. unfold append. now rewrite <- app_assoc.
Qed.

Lemma sort_and_combine_forwarded (l : t) :
  sort_and_combine (Spec.forwarded_headers l) = Spec.forwarded_headers l.
Proof.
  rewrite <- keep_is_not_reserved. apply sort_and_combine_filter.
Qed.

Lemma get_forwarded (l : t) (n : string) :
  get n (Spec.forwarded_headers l) = if Spec.reserved n then None else get n l.
Proof.
  rewrite <- keep_is_not_reserved.
  rewrite (get_filter l (fun name => negb (startsWith name "cf-")) n).
  unfold Spec.reserved. now destruct (startsWith (byteLowercase n) "cf-").
Qed.

End HeaderListFacts.

(** [new Headers(init)] stores [init] as it is. *)
Lemma Headers_new_run (init : HeaderList.t) (st : Store) :
  Headers_new init st =
  (inr (List.length (heap st)), mkStore (heap st ++ [init]) (sent st)).
Proof. unfold Headers_new, alloc. now rewrite fold_left_append. Qed.

Lemma filterHeaders_run (headers : nat) (st : Store) :
  filterHeaders headers (fun name => negb (startsWith name "cf-")) st =
  (inr (List.length (heap st)),
   mkStore (heap st ++ [Spec.forwarded_headers (nth headers (heap st) nil)])
           (sent st)).
Proof.
  unfold filterHeaders, Headers_entries, bind, read, ret.
  now rewrite Headers_new_run, keep_is_not_reserved.
Qed.

(** C4 (as amended).  The header filter never fails and never changes the
    object it reads, nor any other: it makes a new [Headers] object.  A
    header whose name starts with [cf-], in whatever case, is not in it.
    The others pass as the entries that iterating the inbound object
    yields: the names lowercased and in ascending order, the values of one
    name combined into one, the [set-cookie] headers apart; every name that
    is not reserved reads as it did inbound. *)
Theorem filterHeaders_drops_reserved (headers : nat) (st : Store) :
  exists kept,
    filterHeaders headers (fun name => negb (startsWith name "cf-")) st =
      (inr (List.length (heap st)), mkStore (heap st ++ [kept])%list (sent st)) /\
    (forall r, (r < List.length (heap st))%nat ->
       nth r (heap st ++ [kept])%list nil = nth r (heap st) nil) /\
    kept =
      filter (fun h => negb (Spec.reserved (fst h)))
        (HeaderList.sort_and_combine (nth headers (heap st) nil)) /\
    (forall name, Spec.reserved name = true -> HeaderList.get name kept = None) /\
    (forall name, Spec.reserved name = false ->
       HeaderList.get name kept = HeaderList.get name (nth headers (heap st) nil)) /\
    HeaderList.sort_and_combine kept = kept.
Proof.
  exists (Spec.forwarded_headers (nth headers (heap st) nil)).
  split; [apply filterHeaders_run|].
  split; [intros r Hr; now apply app_nth1|].
  split; [reflexivity|].
  split; [intros name H; now rewrite get_forwarded, H|].
  split; [intros name H; now rewrite get_forwarded, H|].
  apply sort_and_combine_forwarded.
Qed.

(** C4, counterexample.  Inbound headers [X-B: 2], [CF-Ray], [X-A: 1],
    [X-B: 3]: without the reserved one and otherwise unchanged they would be
    [X-B: 2], [X-A: 1], [X-B: 3]; the filter yields [x-a: 1] and one header
    [x-b] with both values, and these go upstream. *)
Lemma header_order_counterexample :
  filter (fun h => negb (Spec.reserved (fst h))) Relay.mixed_headers =
    [("X-B", "2"); ("X-A", "1"); ("X-B", "3")] /\
  filterHeaders 0 (fun name => negb (startsWith name "cf-"))
    (mkStore [Relay.mixed_headers] nil) =
    (inr 1%nat, mkStore [Relay.mixed_headers; [("x-a", "1"); ("x-b", "2, 3")]] nil) /\
  snd (serve (Demo.platform Demo.sites)
         (Demo.GET "https://relay.example/example.com/c" Relay.mixed_headers)) =
    [HttpRequest.make "https://example.com/c" "GET" [("x-a", "1"); ("x-b", "2, 3")]
       None "manual"] /\
  ([("x-a", "1"); ("x-b", "2, 3")] <>
   filter (fun h => negb (Spec.reserved (fst h))) Relay.mixed_headers).
Proof. repeat split. discriminate. Qed.

(* ================================================================= *)
(** ** Part IX.  From the inbound request to the upstream response *)
(* ================================================================= *)

Lemma eqb_not_root (path : string) :
  path <> "/" -> String.eqb path "/" = false.
Proof. intros H. now apply String.eqb_neq. Qed.

Lemma option_map_bytes_Stream (b : option string) :
  option_map bytes_of (option_map Stream b) = b.
Proof. now destruct b. Qed.

Lemma body_check (inbound : HttpRequest.t) (st : Store) :
  Spec.body_allowed inbound = true ->
  match option_map Stream (HttpRequest.body inbound) with
  | Some _ =>
      if String.eqb (HttpRequest.method inbound) "GET" ||
         String.eqb (HttpRequest.method inbound) "HEAD"
      then throw TypeError_body_not_allowed
      else ret tt
  | None => ret tt
  end st = (inr tt, st).
Proof.
  unfold Spec.body_allowed. destruct (HttpRequest.body inbound); simpl.
  - intros H. apply negb_true_iff in H. now rewrite H.
  - reflexivity.
Qed.

Lemma pipeline_reaches (P : Platform) (inbound : HttpRequest.t) (url : URL.t)
    (target : string) (tu : URL.t) (up : HttpResponse.t) :
  Spec.reaches P inbound url target tu up ->
  pipeline P (request_of inbound) (initial inbound) =
  respond P url target (Spec.upstream_response up) (Spec.arrived inbound tu up).
Proof.
  intros (Hurl & Hroot & Htarget & Htu & Huser & Hpass & Hbody & Hnet).
  unfold pipeline, bind at 1, new_URL, lift. cbn [request_of Request.url].
  rewrite Hurl. cbn [ret]. rewrite (eqb_not_root _ Hroot).
  unfold bind at 1. rewrite Htarget. cbn [lift ret].
  unfold bind at 1. cbn [Request.headers]. rewrite filterHeaders_run.
  cbn [initial heap sent nth List.length app request_of Request.headers].
  unfold bind at 1, new_Request, bind at 1, new_URL, lift. rewrite Htu. cbn [ret].
  rewrite Huser, Hpass. cbn [String.eqb negb orb].
  unfold bind at 1, Headers_copy, bind at 1, Headers_entries, bind at 1, read, ret.
  cbn [heap nth]. rewrite sort_and_combine_forwarded, Headers_new_run.
  cbn [heap sent List.length app request_of Request.body Request.method].
  unfold bind at 1. fold (@ret unit tt). rewrite (body_check _ _ Hbody).
  unfold JS.fetch, bind, read, record_sent, lift.
  cbn [heap sent nth Request.headers Request.url Request.method Request.body
       Request.redirect app].
  rewrite option_map_bytes_Stream. fold (Spec.outbound inbound tu).
  rewrite Hnet. reflexivity.
Qed.

(* ================================================================= *)
(** ** Part X.  The Response Classifier and Rewriter *)
(* ================================================================= *)

Lemma redirect_status_range (status : N) :
  Spec.redirect_status status = true ->
  (status <? 200) || (599 <? status) = false /\ null_body_status status = false.
Proof.
  unfold Spec.redirect_status. cbn [existsb]. rewrite !orb_true_iff, !N.eqb_eq.
  intros [H|[H|[H|[H|[H|H]]]]]; try discriminate; subst; split; reflexivity.
Qed.

Lemma observe_new (response : Response.t) (h : HeaderList.t) (st : Store) :
  Response.headers response = List.length (heap st) ->
  observe response (mkStore (heap st ++ [h]) (sent st)) =
  HttpResponse.make (Response.status response) (Response.statusText response) h
    (option_map bytes_of (Response.body response)).
Proof. intros H. unfold observe. cbn [heap]. now rewrite H, nth_length_app. Qed.

(** The handler on a redirect. *)
Lemma serve_redirect (P : Platform) (inbound : HttpRequest.t) (url : URL.t)
    (target : string) (tu : URL.t) (up : HttpResponse.t) :
  Spec.reaches P inbound url target tu up ->
  Spec.redirect_status (HttpResponse.status up) = true ->
  serve P inbound = (inr (Spec.redirected P up), [Spec.outbound inbound tu]).
Proof.
  intros Hreach Hred. unfold serve.
  destruct (redirect_status_range _ Hred) as [Hrange Hnull].
  assert (Hpipe : pipeline P (request_of inbound) (initial inbound) =
    match parseURL P (Spec.location_of up) with
    | inr location =>
        (inr (Response.make (HttpResponse.status up) (HttpResponse.statusText up) 4
                (option_map Stream (HttpResponse.body up))),
         mkStore (heap (Spec.arrived inbound tu up) ++
                    [[("Location", "/" ++ encodeURIComponent (URL.href location))]])
                 (sent (Spec.arrived inbound tu up)))
    | inl e => (inl e, Spec.arrived inbound tu up)
    end).
  { rewrite (pipeline_reaches _ _ _ _ _ _ Hreach).
    unfold respond, Spec.upstream_response.
    cbn [Response.status Response.body Response.headers Response.statusText].
    unfold Spec.redirect_status in Hred.
    change [301; 302; 303; 307; 308] with redirect_statuses in Hred. rewrite Hred.
    unfold handleRedirect, bind at 1, Headers_get, bind at 1, read, ret.
    cbn [Response.status Response.body Response.headers Response.statusText
         Spec.arrived heap nth].
    fold (Spec.location_of up). unfold bind at 1, new_URL, lift.
    destruct (parseURL P (Spec.location_of up)) as [e|location]; [reflexivity|].
    cbn [ret spread_Headers app].
    unfold new_Response. rewrite Hrange. unfold bind at 1.
    rewrite Headers_new_run. unfold Response_with.
    destruct (HttpResponse.body up); cbn [option_map]; [rewrite Hnull|]; reflexivity. }
  unfold Worker.fetch, try_catch. rewrite Hpipe. unfold Spec.redirected.
  destruct (parseURL P (Spec.location_of up)) as [e|location].
  - rewrite jsonResponse_error, observe_envelope. reflexivity.
  - rewrite observe_new by reflexivity. cbn [Response.status Response.statusText
      Response.body sent Spec.arrived]. now rewrite option_map_bytes_Stream.
Qed.

Lemma serve_of_pipeline (P : Platform) (inbound : HttpRequest.t)
    (result : (Error + Response.t) * Store) :
  pipeline P (request_of inbound) (initial inbound) = result ->
  serve P inbound =
  match result with
  | (inr response, st) => (inr (observe response st), sent st)
  | (inl e, st) => (inr (Spec.envelope_of e), sent st)
  end.
Proof.
  intros H. unfold serve, Worker.fetch, try_catch. rewrite H.
  destruct result as [[e|response] st]; [|reflexivity].
  now rewrite jsonResponse_error, observe_envelope.
Qed.

(** Lines 48 to 61 on the upstream response, with the body settled on. *)
Lemma deliver_run (inbound : HttpRequest.t) (tu : URL.t) (up : HttpResponse.t)
    (body : option Body) :
  Spec.text_or_stream (HttpResponse.headers up) body ->
  deliver (Spec.upstream_response up) body (Spec.arrived inbound tu up) =
  if (HttpResponse.status up <? 200) || (599 <? HttpResponse.status up) then
    (inl RangeError_status, Spec.arrived inbound tu up)
  else if Spec.refused (HttpResponse.status up) body then
    (inl TypeError_null_body_status,
     mkStore (heap (Spec.arrived inbound tu up) ++
                [HeaderList.sort_and_combine (HttpResponse.headers up)])
             (sent (Spec.arrived inbound tu up)))
  else
    (inr (Response.make (HttpResponse.status up) (HttpResponse.statusText up) 4
            (if null_body_status (HttpResponse.status up) then None else body)),
     mkStore (heap (Spec.arrived inbound tu up) ++
                [Spec.inject (HeaderList.sort_and_combine (HttpResponse.headers up))])
             (sent (Spec.arrived inbound tu up))).
Proof.
  intros Hbody. unfold deliver, bind at 1, new_Response_copy.
  cbn [Spec.upstream_response Response.status Response.statusText Response.headers].
  destruct ((HttpResponse.status up <? 200) || (599 <? HttpResponse.status up));
    [reflexivity|].
  unfold bind at 1, Headers_copy, bind at 1, Headers_entries, bind at 1, read, ret.
  cbn [Spec.arrived heap nth]. rewrite Headers_new_run.
  unfold Spec.arrived. cbn [heap sent Datatypes.length app].
  assert (Hsets : forall b,
    (let (s, st') :=
       (inr (Response.make (HttpResponse.status up) (HttpResponse.statusText up) 4 b),
        mkStore [HttpRequest.headers inbound;
                 Spec.forwarded_headers (HttpRequest.headers inbound);
                 Spec.forwarded_headers (HttpRequest.headers inbound);
                 HttpResponse.headers up;
                 HeaderList.sort_and_combine (HttpResponse.headers up)]
                [Spec.outbound inbound tu]) in
     match s with
     | inl e => (inl e, st')
     | inr a =>
         (setNoCacheHeaders (Response.headers a);;
          setCorsHeaders (Response.headers a);;
          (fun st : Store => (inr a, st)))%js st'
     end) =
    (inr (Response.make (HttpResponse.status up) (HttpResponse.statusText up) 4 b),
     mkStore [HttpRequest.headers inbound;
              Spec.forwarded_headers (HttpRequest.headers inbound);
              Spec.forwarded_headers (HttpRequest.headers inbound);
              HttpResponse.headers up;
              Spec.inject (HeaderList.sort_and_combine (HttpResponse.headers up))]
             [Spec.outbound inbound tu])) by reflexivity.
  unfold Response_with, Spec.refused. destruct body as [[bytes|text]|].
  - destruct (null_body_status (HttpResponse.status up)); [reflexivity|].
    unfold bind at 2. cbn [ret]. apply Hsets.
  - destruct (null_body_status (HttpResponse.status up));
      [destruct text; [apply Hsets | reflexivity]|]. cbn [andb].
    unfold Headers_get, read, ret, bind. cbn [heap nth]. unfold HeaderList.get at 1.
    assert (Hc : HeaderList.contains "Content-Type"
                   (HeaderList.sort_and_combine (HttpResponse.headers up)) = true).
    { simpl in Hbody.
      pose proof (get_sort_and_combine (HttpResponse.headers up) "Content-Type") as G.
      unfold HeaderList.get in G. rewrite Hbody in G.
      destruct (HeaderList.contains "Content-Type"
                  (HeaderList.sort_and_combine (HttpResponse.headers up)));
        [reflexivity | discriminate]. }
    rewrite Hc. reflexivity.
  - destruct (null_body_status (HttpResponse.status up)); apply Hsets.
Qed.

Lemma out_of_range (status : N) :
  (status <? 200) || (599 <? status) = negb ((200 <=? status) && (status <=? 599)).
Proof. rewrite negb_andb, !N.leb_antisym, !negb_involutive. reflexivity. Qed.

Lemma serve_deliver (P : Platform) (inbound : HttpRequest.t) (tu : URL.t)
    (up : HttpResponse.t) (body : option Body) :
  Spec.text_or_stream (HttpResponse.headers up) body ->
  pipeline P (request_of inbound) (initial inbound) =
    deliver (Spec.upstream_response up) body (Spec.arrived inbound tu up) ->
  serve P inbound =
  (inr match body with
       | Some (Text text) => Spec.delivered_text up text
       | _ => Spec.delivered up (option_map bytes_of body)
       end,
   [Spec.outbound inbound tu]).
Proof.
  intros Hbody Hpipe. rewrite (serve_of_pipeline _ _ _ Hpipe).
  rewrite (deliver_run _ _ _ _ Hbody), out_of_range.
  unfold Spec.delivered_text, Spec.delivered, Spec.constructible,
    Spec.construction_error, Spec.refused.
  destruct ((200 <=? HttpResponse.status up) && (HttpResponse.status up <=? 599));
    cbn [negb andb].
  - destruct body as [[bytes|[|c text]]|]; cbn [option_map String.eqb];
      destruct (null_body_status (HttpResponse.status up)); cbn [negb andb];
      try reflexivity; now rewrite observe_new by reflexivity.
  - destruct body as [[bytes|text]|]; [reflexivity| |reflexivity].
    now destruct (null_body_status (HttpResponse.status up) && String.eqb text EmptyString).
Qed.

Lemma serve_passthrough (P : Platform) (inbound : HttpRequest.t) (tu : URL.t)
    (up : HttpResponse.t) :
  pipeline P (request_of inbound) (initial inbound) =
    deliver (Spec.upstream_response up) (option_map Stream (HttpResponse.body up))
      (Spec.arrived inbound tu up) ->
  serve P inbound =
  (inr (Spec.delivered up (HttpResponse.body up)), [Spec.outbound inbound tu]).
Proof.
  intros Hpipe. rewrite (serve_deliver P inbound tu up _) with (2 := Hpipe).
  - now destruct (HttpResponse.body up).
  - now destruct (HttpResponse.body up).
Qed.

(** The answer with a text is the answer with some body or with none. *)
Lemma delivered_text_cases (up : HttpResponse.t) (text : string) :
  exists body, Spec.delivered_text up text = Spec.delivered up body.
Proof.
  unfold Spec.delivered_text.
  destruct (null_body_status (HttpResponse.status up) && String.eqb text EmptyString);
    eexists; reflexivity.
Qed.

Lemma redirect_statuses_eq (status : N) :
  existsb (N.eqb status) redirect_statuses = Spec.redirect_status status.
Proof. reflexivity. Qed.

(** The response of the worker, by the branch the upstream response falls
    in. *)
Lemma serve_classified (P : Platform) (inbound : HttpRequest.t) (url : URL.t)
    (target : string) (tu : URL.t) (up : HttpResponse.t) :
  Spec.reaches P inbound url target tu up ->
  serve P inbound =
  (inr match Spec.classify (HttpResponse.status up)
               (HeaderList.get "Content-Type" (HttpResponse.headers up)) with
       | Spec.Redirect => Spec.redirected P up
       | Spec.Html =>
           Spec.delivered_text up
             (replaceRelativePaths (Spec.text_of P up) (URL.protocol url)
                (URL.host url) (URL.origin tu))
       | Spec.Passthrough => Spec.delivered up (HttpResponse.body up)
       end,
   [Spec.outbound inbound tu]).
Proof.
  intros Hreach. unfold Spec.classify.
  destruct (Spec.redirect_status (HttpResponse.status up)) eqn:Hred.
  - now apply serve_redirect with (url := url) (target := target).
  - pose proof (pipeline_reaches _ _ _ _ _ _ Hreach) as Hpipe.
    unfold respond in Hpipe.
    cbn [Spec.upstream_response Response.status Response.headers Response.body]
      in Hpipe.
    rewrite redirect_statuses_eq, Hred in Hpipe.
    unfold bind at 1, Headers_get, bind at 1, read, ret in Hpipe.
    cbn [Spec.arrived heap nth] in Hpipe.
    destruct (HeaderList.get "Content-Type" (HttpResponse.headers up)) as [v|] eqn:Hct.
    + destruct (includes v "text/html").
      * apply (serve_deliver P inbound tu up
                 (Some (Text (replaceRelativePaths (Spec.text_of P up)
                                (URL.protocol url) (URL.host url) (URL.origin tu))))).
        -- simpl. unfold HeaderList.get in Hct.
           destruct (HeaderList.contains "Content-Type" (HttpResponse.headers up));
             [reflexivity | discriminate].
        -- rewrite Hpipe. unfold bind at 1, bind at 1, handleHtmlContent, bind at 1,
             Response_text, ret, bind at 1, new_URL, lift.
           destruct Hreach as (_ & _ & _ & Htu & _). rewrite Htu.
           cbn [ret]. unfold Spec.text_of.
           change (Response.body (Spec.upstream_response up))
             with (option_map Stream (HttpResponse.body up)).
           destruct (HttpResponse.body up); reflexivity.
      * apply serve_passthrough. rewrite Hpipe. reflexivity.
    + apply serve_passthrough. rewrite Hpipe. reflexivity.
Qed.

(** C5 (as amended).  Every upstream response falls in exactly one of three
    branches, the redirect statuses first: with one of them the response
    is treated as a redirect whatever its [Content-Type]; otherwise it is
    treated as HTML exactly when the value of its [Content-Type] header
    contains [text/html] as a substring, in this very case; otherwise its
    body is passed through with no modification. *)
Theorem classification (P : Platform) (inbound : HttpRequest.t) (url : URL.t)
    (target : string) (tu : URL.t) (up : HttpResponse.t) :
  Spec.reaches P inbound url target tu up ->
  serve P inbound =
  (inr match Spec.classify (HttpResponse.status up)
               (HeaderList.get "Content-Type" (HttpResponse.headers up)) with
       | Spec.Redirect => Spec.redirected P up
       | Spec.Html =>
           Spec.delivered_text up
             (replaceRelativePaths (Spec.text_of P up) (URL.protocol url)
                (URL.host url) (URL.origin tu))
       | Spec.Passthrough => Spec.delivered up (HttpResponse.body up)
       end,
   [Spec.outbound inbound tu]).
Proof. exact (serve_classified P inbound url target tu up). Qed.

Lemma reaches_example (path : string) (up : HttpResponse.t) :
  String.eqb ("/example.com" ++ path) "/" = false ->
  Demo.network_of Demo.sites
    (Spec.outbound (Demo.GET ("https://relay.example/example.com" ++ path) nil)
       (Demo.example_url path)) = inr up ->
  Demo.parse ("https://relay.example/example.com" ++ path) =
    inr (Demo.relay_url ("/example.com" ++ path)) ->
  actualUrlStr (Demo.relay_url ("/example.com" ++ path)) =
    inr ("https://example.com" ++ path) ->
  Demo.parse ("https://example.com" ++ path) = inr (Demo.example_url path) ->
  Spec.reaches (Demo.platform Demo.sites)
    (Demo.GET ("https://relay.example/example.com" ++ path) nil)
    (Demo.relay_url ("/example.com" ++ path)) ("https://example.com" ++ path)
    (Demo.example_url path) up.
Proof.
  intros Hroot Hnet Hurl Htarget Htu. unfold Spec.reaches.
  repeat split; try assumption; try reflexivity.
  now apply String.eqb_neq.
Qed.

Lemma classification_witness :
  serve (Demo.platform Demo.sites) (Demo.GET "https://relay.example/example.com/c" nil) =
  (inr (HttpResponse.make 200 "OK"
          [("access-control-allow-origin", "*"); ("cache-control", "no-store");
           ("content-type", "text/html; charset=utf-8");
           ("Access-Control-Allow-Methods", "GET, POST, PUT, DELETE");
           ("Access-Control-Allow-Headers", "*")]
          (Some ("<img src=" ++
                 Demo.quoted "https://relay.example/https://example.com/logo.png" ++
                 "><img src=" ++ Demo.quoted "//cdn.example.com/x.png" ++ ">"))),
   [HttpRequest.make "https://example.com/c" "GET" nil None "manual"]).
Proof.
  exact (classification (Demo.platform Demo.sites)
           (Demo.GET "https://relay.example/example.com/c" nil)
           (Demo.relay_url "/example.com/c") "https://example.com/c"
           (Demo.example_url "/c") _
           (reaches_example "/c" _ eq_refl eq_refl eq_refl eq_refl eq_refl)).
Defined.

(** C5, counterexample.  An upstream response with status 200 and
    [Content-Type: Text/HTML] contains [text/html] when case is ignored, yet
    the worker passes its body through, although the HTML rewrite would
    change it. *)
Lemma classification_counterexample :
  Spec.classify_any_case 200 (Some "Text/HTML") = Spec.Html /\
  serve (Demo.platform Demo.sites) (Demo.GET "https://relay.example/example.com/d" nil) =
  (inr (HttpResponse.make 200 "OK"
          [("content-type", "Text/HTML"); ("Cache-Control", "no-store");
           ("Access-Control-Allow-Origin", "*");
           ("Access-Control-Allow-Methods", "GET, POST, PUT, DELETE");
           ("Access-Control-Allow-Headers", "*")]
          (Some Demo.link)),
   [HttpRequest.make "https://example.com/d" "GET" nil None "manual"]) /\
  (replaceRelativePaths Demo.link "https:" "relay.example" "https://example.com"
     <> Demo.link).
Proof. split; [reflexivity|]. split; [reflexivity|]. discriminate. Qed.

(* ================================================================= *)
(** ** Part XI.  Redirects *)
(* ================================================================= *)

Lemma Decode_encoded_char (c : ascii) (rest : string) :
  (code c <? 128) = true ->
  Decode None ((if unreserved c then str1 c else escape c) ++ rest) =
  option_map (String c) (Decode None rest).
Proof. each_char c; intros H; solve [discriminate H | reflexivity]. Qed.

(** On ASCII strings decoding undoes encoding. *)
Lemma decode_encode (s : string) :
  Spec.ascii_only s = true ->
  decodeURIComponent (encodeURIComponent s) = inr s.
Proof.
  unfold decodeURIComponent. intros H.
  assert (E : Decode None (encodeURIComponent s) = Some s); [|now rewrite E].
  induction s as [|c s IH]; [reflexivity|].
  cbn [Spec.ascii_only] in H. apply andb_prop in H as [Hc Hs].
  cbn [encodeURIComponent]. rewrite (Decode_encoded_char c _ Hc), (IH Hs).
  reflexivity.
Qed.

(** C1 (as amended).  For an upstream response with a redirect status whose
    [Location] header is an absolute URL, the worker answers with the
    [Location] made of a slash and the percent-encoded serialisation of that
    URL; percent-decoding the rewritten location gives the URL back, behind
    the slash; and when the URL is an [http] or [https] URL, the URL
    Resolver, given the rewritten location as the path of a request with no
    query, resolves to the same URL. *)
Theorem redirect_location_round_trip
    (P : Platform) (inbound : HttpRequest.t) (url : URL.t) (target : string)
    (tu : URL.t) (up : HttpResponse.t) (location : URL.t) :
  Spec.reaches P inbound url target tu up ->
  Spec.redirect_status (HttpResponse.status up) = true ->
  parseURL P (Spec.location_of up) = inr location ->
  Spec.ascii_only (URL.href location) = true ->
  serve P inbound =
    (inr (HttpResponse.make (HttpResponse.status up) (HttpResponse.statusText up)
            [("Location", "/" ++ encodeURIComponent (URL.href location))]
            (HttpResponse.body up)),
     [Spec.outbound inbound tu]) /\
  decodeURIComponent ("/" ++ encodeURIComponent (URL.href location)) =
    inr ("/" ++ URL.href location) /\
  (Spec.http_or_https (URL.href location) = true ->
   forall next : URL.t,
     URL.pathname next = "/" ++ encodeURIComponent (URL.href location) ->
     URL.search next = EmptyString ->
     actualUrlStr next = inr (URL.href location)).
Proof.
  intros Hreach Hred Hloc Hascii. split; [|split].
  - rewrite (serve_redirect _ _ _ _ _ _ Hreach Hred). unfold Spec.redirected.
    now rewrite Hloc.
  - apply (decode_encode (String "/" (URL.href location))).
    cbn [Spec.ascii_only]. now rewrite Hascii.
  - intros Hhttp next Hpath Hsearch. unfold actualUrlStr.
    rewrite Hpath, String_replace_leading_slash, (decode_encode _ Hascii).
    unfold ensureProtocol. unfold Spec.http_or_https in Hhttp. rewrite Hhttp, Hsearch.
    now rewrite append_empty_r.
Qed.

Lemma redirect_location_round_trip_witness :
  serve (Demo.platform Demo.sites)
    (Demo.GET "https://relay.example/example.com/e" nil) =
    (inr (HttpResponse.make 301 "Moved Permanently"
            [("Location", "/https%3A%2F%2Fexample.org%2F")] None),
     [HttpRequest.make "https://example.com/e" "GET" nil None "manual"]) /\
  decodeURIComponent "/https%3A%2F%2Fexample.org%2F" = inr "/https://example.org/" /\
  forall next : URL.t,
    URL.pathname next = "/https%3A%2F%2Fexample.org%2F" ->
    URL.search next = EmptyString ->
    actualUrlStr next = inr "https://example.org/".
Proof.
  destruct (redirect_location_round_trip (Demo.platform Demo.sites)
              (Demo.GET "https://relay.example/example.com/e" nil)
              (Demo.relay_url "/example.com/e") "https://example.com/e"
              (Demo.example_url "/e") _
              (URL.make "https://example.org/" "https:" EmptyString EmptyString
                 "example.org" "/" EmptyString "https://example.org")
              (reaches_example "/e" _ eq_refl eq_refl eq_refl eq_refl eq_refl)
              eq_refl eq_refl eq_refl) as (Hserve & Hdecode & Hresolve).
  exact (conj Hserve (conj Hdecode (Hresolve eq_refl))).
Defined.

(** C1, counterexamples.  An upstream 302 with [Location: /next]: the
    location is no absolute URL, it is not resolved against the URL of the
    upstream response, and the caller receives the error envelope instead
    of a redirect.  An upstream 302 with [Location: ftp://example.com/file]:
    the location is rewritten, and the URL Resolver, given the rewritten
    location, puts the inbound protocol in front of it and resolves to
    another URL. *)
Lemma redirect_location_counterexample :
  Spec.redirect_status (HttpResponse.status Demo.found_relative) = true /\
  Spec.location_of Demo.found_relative = "/next" /\
  Demo.network_of Demo.sites
    (Spec.outbound (Demo.GET "https://relay.example/example.com/b" nil)
       (Demo.example_url "/b")) = inr Demo.found_relative /\
  serve (Demo.platform Demo.sites)
    (Demo.GET "https://relay.example/example.com/b" nil) =
    (inr (Spec.error_envelope "Invalid URL"),
     [HttpRequest.make "https://example.com/b" "GET" nil None "manual"]) /\
  serve Relay.platform (Demo.GET "https://relay.example/example.com/f" nil) =
    (inr (HttpResponse.make 302 "Found"
            [("Location", "/ftp%3A%2F%2Fexample.com%2Ffile")] None),
     [HttpRequest.make "https://example.com/f" "GET" nil None "manual"]) /\
  decodeURIComponent "/ftp%3A%2F%2Fexample.com%2Ffile" =
    inr "/ftp://example.com/file" /\
  actualUrlStr (Demo.relay_url "/ftp%3A%2F%2Fexample.com%2Ffile") =
    inr "https://ftp://example.com/file".
Proof. repeat split. Qed.

(** C2, the failing input.  The upstream redirect carries two [Set-Cookie]
    headers and a [Content-Type]; the response of the worker carries the
    [Location] header and nothing else. *)
Lemma redirect_drops_upstream_headers :
  serve (Demo.platform Demo.sites)
    (Demo.GET "https://relay.example/example.com/a" nil) =
  (inr (HttpResponse.make 302 "Found"
          [("Location", "/https%3A%2F%2Fexample.com%2Fnext")] None),
   [HttpRequest.make "https://example.com/a" "GET" nil None "manual"]).
Proof. reflexivity. Qed.

(** The same for every platform and every redirect whose location
    parses: the headers of the response are the one [Location] header. *)
Lemma redirect_headers (P : Platform) (inbound : HttpRequest.t) (url : URL.t)
    (target : string) (tu : URL.t) (up : HttpResponse.t) (location : URL.t)
    (response : HttpResponse.t) (sent : list HttpRequest.t) :
  Spec.reaches P inbound url target tu up ->
  Spec.redirect_status (HttpResponse.status up) = true ->
  parseURL P (Spec.location_of up) = inr location ->
  serve P inbound = (inr response, sent) ->
  HttpResponse.headers response =
    [("Location", "/" ++ encodeURIComponent (URL.href location))].
Proof.
  intros Hreach Hred Hloc. rewrite (serve_redirect _ _ _ _ _ _ Hreach Hred).
  unfold Spec.redirected. rewrite Hloc. intros H. now inversion H.
Qed.

(* ================================================================= *)
(** ** Part XII.  The Header Policy Injector *)
(* ================================================================= *)

(** A response that went through lines 48 to 61 carries the four headers,
    whatever the upstream sent under these names. *)
Lemma delivered_policy (up : HttpResponse.t) (body : option string) :
  Spec.constructible (HttpResponse.status up) body = true ->
  Spec.policy_injected (HttpResponse.headers (Spec.delivered up body)).
Proof.
  intros H. unfold Spec.delivered. rewrite H. apply policy_injected_inject.
Qed.

Lemma not_redirect_policy (P : Platform) (inbound : HttpRequest.t) (url : URL.t)
    (target : string) (tu : URL.t) (up : HttpResponse.t) :
  Spec.reaches P inbound url target tu up ->
  Spec.redirect_status (HttpResponse.status up) = false ->
  exists response,
    serve P inbound = (inr response, [Spec.outbound inbound tu]) /\
    (HttpResponse.status response = 500 \/
     Spec.policy_injected (HttpResponse.headers response)).
Proof.
  intros Hreach Hred. rewrite (serve_classified _ _ _ _ _ _ Hreach).
  unfold Spec.classify. rewrite Hred.
  eexists. split; [reflexivity|].
  assert (D : forall body, HttpResponse.status (Spec.delivered up body) = 500 \/
                 Spec.policy_injected (HttpResponse.headers (Spec.delivered up body))).
  { intros body. destruct (Spec.constructible (HttpResponse.status up) body) eqn:E.
    - right. now apply delivered_policy.
    - left. unfold Spec.delivered. now rewrite E. }
  destruct (HeaderList.get "Content-Type" (HttpResponse.headers up)) as [v|];
    [destruct (includes v "text/html")|]; try apply D.
  destruct (delivered_text_cases up
              (replaceRelativePaths (Spec.text_of P up) (URL.protocol url)
                 (URL.host url) (URL.origin tu))) as [body ->].
  apply D.
Qed.

(** C7, the failing input.  An upstream 301 that carries [Cache-Control:
    max-age=60]: the response of the worker is the redirect, and none of
    the four headers is in it. *)
Lemma redirect_without_policy_headers :
  exists response,
    serve (Demo.platform Demo.sites)
      (Demo.GET "https://relay.example/example.com/e" nil) =
      (inr response,
       [HttpRequest.make "https://example.com/e" "GET" nil None "manual"]) /\
    HttpResponse.status response = 301 /\
    HeaderList.get "Cache-Control" (HttpResponse.headers response) = None /\
    HeaderList.get "Access-Control-Allow-Origin" (HttpResponse.headers response) = None /\
    HeaderList.get "Access-Control-Allow-Methods" (HttpResponse.headers response) = None /\
    HeaderList.get "Access-Control-Allow-Headers" (HttpResponse.headers response) = None.
Proof. eexists. repeat split. Qed.


(* ================================================================= *)
(** ** Part XIII.  The relative-path rewrite *)
(* ================================================================= *)

(** *** The replacement template *)

Lemma GetSubstitution_literal (m b a : string) (caps : list (option string))
    (t : string) :
  Spec.no_dollar t = true -> GetSubstitution m b a caps t = t.
Proof.
  induction t as [|c t IH]; intros H; [reflexivity|].
  cbn [Spec.no_dollar] in H. apply andb_prop in H as [Hc Ht].
  apply negb_true_iff in Hc. cbn [GetSubstitution]. rewrite Hc.
  now rewrite (IH Ht).
Qed.

(** A template that is [$1] and then a text with no dollar sign stands
    for the first capture and then that text. *)
Lemma GetSubstitution_capture1 (m b a g1 g2 R : string) :
  Spec.no_dollar R = true ->
  GetSubstitution m b a [Some g1; Some g2] ("$1" ++ R) = g1 ++ R.
Proof.
  intros HR. change ("$1" ++ R) with (String dollar (String "1" R)).
  cbn [GetSubstitution]. change (Ascii.eqb dollar dollar) with true. cbv iota.
  change (Ascii.eqb "1" dollar) with false.
  change (Ascii.eqb "1" backtick) with false.
  change (Ascii.eqb "1" ampersand) with false.
  change (Ascii.eqb "1" squote) with false.
  change (is_digit "1") with true. cbv iota.
  change (capture_text [Some g1; Some g2] (digit "1")) with (Some g1).
  rewrite (GetSubstitution_literal _ _ _ _ _ HR).
  destruct R as [|d2 R']; [reflexivity|].
  replace (is_digit d2 &&
           (10 * digit "1" + digit d2 <=? N.of_nat (List.length [Some g1; Some g2])))
    with false; [reflexivity|].
  symmetry. apply andb_false_iff. right. apply N.leb_gt.
  change (digit "1") with 1. cbn [List.length N.of_nat]. lia.
Qed.

Lemma no_dollar_append (a b : string) :
  Spec.no_dollar (a ++ b) = Spec.no_dollar a && Spec.no_dollar b.
Proof.
  induction a as [|c a IH]; [reflexivity|].
  cbn [String.append Spec.no_dollar]. now rewrite IH, andb_assoc.
Qed.

(** *** The matcher *)

Section Matcher.
Variables (caps c : list (option string)) (s a r : string).

Lemma matches_Lit (p : string) :
  In (a, c, r) (matches (Lit p) caps s) -> a = p /\ c = caps /\ s = p ++ r.
Proof.
  cbn [matches]. destruct (prefix p s) eqn:E; [|intros []].
  intros [H|[]]. inversion H; subst. repeat split. now apply prefix_split.
Qed.

Lemma matches_Class (cs : list ascii) :
  In (a, c, r) (matches (Class cs) caps s) ->
  exists q, In q cs /\ a = str1 q /\ c = caps /\ s = String q r.
Proof.
  cbn [matches]. destruct s as [|x s']; [intros []|].
  destruct (existsb (Ascii.eqb x) cs) eqn:E; [|intros []].
  intros [H|[]]. inversion H; subst. exists x. repeat split.
  apply existsb_exists in E as (q & Hq & Hc). apply Ascii.eqb_eq in Hc. now subst.
Qed.

Lemma matches_Cat (r1 r2 : regex) :
  In (a, c, r) (matches (Cat r1 r2) caps s) ->
  exists a1 c1 s1 a2,
    In (a1, c1, s1) (matches r1 caps s) /\
    In (a2, c, r) (matches r2 c1 s1) /\
    a = a1 ++ a2.
Proof.
  cbn [matches]. intros H. apply in_flat_map in H as ([[a1 c1] s1] & H1 & H2).
  apply in_map_iff in H2 as ([[a2 c2] s2] & E & H2). inversion E; subst.
  exists a1, c1, s1, a2. auto.
Qed.

Lemma matches_Alt (r1 r2 : regex) :
  In (a, c, r) (matches (Alt r1 r2) caps s) ->
  In (a, c, r) (matches r1 caps s) \/ In (a, c, r) (matches r2 caps s).
Proof. cbn [matches]. apply in_app_or. Qed.

Lemma matches_Group (i : nat) (r1 : regex) :
  In (a, c, r) (matches (Group i r1) caps s) ->
  exists c1, In (a, c1, r) (matches r1 caps s) /\ c = set_capture (pred i) a c1.
Proof.
  cbn [matches]. intros H. apply in_map_iff in H as ([[a' c1] s1] & E & H).
  inversion E; subst. exists c1. auto.
Qed.

Lemma matches_NotFollowedBy (r1 : regex) :
  In (a, c, r) (matches (NotFollowedBy r1) caps s) ->
  a = EmptyString /\ c = caps /\ r = s /\ matches r1 caps s = nil.
Proof.
  cbn [matches]. destruct (matches r1 caps s); [|intros []].
  intros [H|[]]. inversion H; subst. auto.
Qed.

End Matcher.

Lemma lookahead_slash (caps : list (option string)) (s : string) :
  matches (Lit "/") caps s = nil -> startsWith s "/" = false.
Proof.
  cbn [matches]. unfold startsWith. now destruct (prefix "/" s).
Qed.

(** Every match of the worker's expression is an attribute with its
    quote, then a slash, and what remains does not begin with a slash; the
    first capture is the attribute with its quote. *)
Lemma matches_relative (s m rest : string) (caps : list (option string)) :
  In (m, caps, rest) (matches (pattern relativePathRegex) [None; None] s) ->
  exists k a,
    In k Spec.openings /\
    m = k ++ "/" /\ caps = [Some k; Some a] /\
    s = k ++ "/" ++ rest /\
    startsWith rest "/" = false.
Proof.
  cbn [relativePathRegex pattern]. intros H.
  apply matches_Cat in H as (g1 & c1 & s1 & tail & Hg1 & Htail & ->).
  apply matches_Group in Hg1 as (c1' & Hg1 & ->). cbn [pred].
  apply matches_Cat in Hg1 as (a & c2 & s2 & eq_quote & Ha & Heq & ->).
  apply matches_Group in Ha as (c2' & Ha & ->). cbn [pred] in *.
  apply matches_Cat in Heq as (e & c3 & s3 & q & He & Hq & ->).
  apply matches_Lit in He as (-> & -> & Hs2).
  apply matches_Class in Hq as (qc & Hqc & -> & -> & Hs3).
  apply matches_Cat in Htail as (sl & c4 & s4 & la & Hsl & Hla & ->).
  apply matches_Lit in Hsl as (-> & -> & Hs1).
  apply matches_NotFollowedBy in Hla as (-> & -> & -> & Hnot).
  apply lookahead_slash in Hnot.
  assert (Hattr : (a = "href" \/ a = "src" \/ a = "action") /\ c2' = [None; None] /\
                  s = a ++ s2).
  { apply matches_Alt in Ha as [Ha|Ha]; [|apply matches_Alt in Ha as [Ha|Ha]];
      apply matches_Lit in Ha as (-> & -> & Hs); auto 6. }
  destruct Hattr as (Hattr & -> & Hs).
  exists (a ++ "=" ++ str1 qc), a.
  split; [|split; [|split; [|split; [|exact Hnot]]]].
  - cbn in Hqc. destruct Hqc as [<-|[<-|[]]];
      destruct Hattr as [->|[->| ->]]; cbn; auto 10.
  - now rewrite append_empty_r, !append_assoc.
  - reflexivity.
  - rewrite Hs, Hs2, Hs3, Hs1. now rewrite !append_assoc.
Qed.

Lemma matches_opening (k rest : string) :
  In k Spec.openings -> startsWith rest "/" = false ->
  exists a,
    matches (pattern relativePathRegex) [None; None] (k ++ "/" ++ rest) =
    [(k ++ "/", [Some k; Some a], rest)].
Proof.
  unfold startsWith. intros Hk Hrest. cbn in Hk.
  destruct Hk as [<-|[<-|[<-|[<-|[<-|[<-|[]]]]]]];
    eexists; cbn; rewrite prefix_empty; cbn; rewrite Hrest; reflexivity.
Qed.

(** *** Strings, cut in two ways *)

Lemma string_app_eq_app (a b c d : string) :
  a ++ b = c ++ d ->
  exists l, (a = c ++ l /\ d = l ++ b) \/ (c = a ++ l /\ b = l ++ d).
Proof.
  revert c. induction a as [|x a IH]; intros c H.
  - exists c. right. auto.
  - destruct c as [|y c].
    + exists (String x a). left. auto.
    + cbn [String.append] in H. inversion H; subst y.
      destruct (IH c H2) as (l & [[-> ->]|[-> ->]]); exists l; [left|right]; auto.
Qed.

Lemma append_eq_empty (a b : string) :
  a ++ b = EmptyString -> a = EmptyString /\ b = EmptyString.
Proof. destruct a; [auto | discriminate]. Qed.

Lemma snoc_split (pre suf since : string) (c : ascii) :
  pre ++ suf = since ++ str1 c -> suf <> EmptyString ->
  exists suf0, suf = suf0 ++ str1 c /\ since = pre ++ suf0.
Proof.
  intros H Hsuf. destruct (string_app_eq_app _ _ _ _ H) as (l & [[-> Hl]|[-> ->]]).
  - destruct l as [|x l].
    + exists EmptyString. cbn [String.append] in Hl. subst suf.
      rewrite !append_empty_r. auto.
    + cbn [String.append] in Hl. unfold str1 in Hl. inversion Hl.
      symmetry in H2. apply append_eq_empty in H2 as [_ ->]. now destruct Hsuf.
  - exists l. auto.
Qed.

Lemma skipn_suffix (n : nat) (s : string) : exists pre, s = pre ++ skipn n s.
Proof.
  revert s. induction n as [|n IH]; intros s.
  - exists EmptyString. reflexivity.
  - destruct s as [|c s]; [exists EmptyString; reflexivity|].
    destruct (IH s) as [pre H]. exists (String c pre). cbn. now rewrite <- H.
Qed.

Lemma endsWith_iff (s k : string) :
  Spec.endsWith s k = true <-> exists pre, s = pre ++ k.
Proof.
  unfold Spec.endsWith. split.
  - intros H. apply andb_prop in H as [_ H]. apply String.eqb_eq in H.
    destruct (skipn_suffix (String.length s - String.length k) s) as [pre E].
    exists pre. now rewrite H in E.
  - intros [pre ->]. rewrite length_append. apply andb_true_intro. split.
    + apply Nat.leb_le. lia.
    + replace (String.length pre + String.length k - String.length k)%nat
        with (String.length pre) by lia.
      rewrite skipn_append. apply String.eqb_refl.
Qed.

Lemma includes_middle (a p b : string) : includes (a ++ p ++ b) p = true.
Proof.
  induction a as [|c a IH].
  - cbn [String.append]. destruct (p ++ b) eqn:E; cbn [includes];
      rewrite <- E, prefix_append; reflexivity.
  - cbn [String.append includes]. rewrite IH. apply orb_true_r.
Qed.

Lemma opening_no_slash (k : string) :
  In k Spec.openings -> includes k "/" = false.
Proof.
  cbn. intros [<-|[<-|[<-|[<-|[<-|[<-|[]]]]]]]; reflexivity.
Qed.

Lemma opening_nonempty (k : string) :
  In k Spec.openings -> exists c k', k = String c k'.
Proof.
  cbn. intros [<-|[<-|[<-|[<-|[<-|[<-|[]]]]]]]; eexists _, _; reflexivity.
Qed.

(** An attribute with its quote at the end of a text that is empty or ends
    with a slash, followed by more text, lies within the text that
    follows. *)
Lemma opening_within (done since pre0 k : string) :
  done = EmptyString \/ (exists d, done = d ++ "/") ->
  In k Spec.openings ->
  done ++ since = pre0 ++ k ->
  exists pre, since = pre ++ k.
Proof.
  intros Hdone Hk H.
  destruct (string_app_eq_app _ _ _ _ H) as (l & [[Hd Hl]|[_ Hs]]).
  - destruct l as [|x l].
    + exists EmptyString. now rewrite Hl.
    + exfalso. destruct Hdone as [->|[d ->]].
      * now destruct pre0.
      * pose proof (opening_no_slash _ Hk) as Hno.
        destruct (string_app_eq_app _ _ _ _ Hd) as (l' & [[_ Hl']|[_ Hl']]).
        -- rewrite Hl, Hl', append_assoc, includes_middle in Hno. discriminate.
        -- destruct l' as [|y l'].
           ++ cbn [String.append] in Hl'. rewrite Hl, <- Hl' in Hno.
              change ("/" ++ since) with (EmptyString ++ "/" ++ since) in Hno.
              rewrite includes_middle in Hno. discriminate.
           ++ cbn [String.append] in Hl'. inversion Hl'. now destruct l'.
  - exists l. exact Hs.
Qed.

(** *** The scan of the expression against the rule *)

(** Passing the characters of a match. *)
Lemma replace_skip (re : RegExp) (t a before s : string) :
  replace_from re t before (String.length a) (a ++ s) =
  replace_from re t (before ++ a) O s.
Proof.
  revert before. induction a as [|c a IH]; intros before.
  - cbn [String.length String.append]. now rewrite append_empty_r.
  - cbn [String.length String.append replace_from]. rewrite IH.
    now rewrite append_assoc.
Qed.

Section Rewrite.
Variable R : string.
Hypothesis R_literal : Spec.no_dollar R = true.

Local Abbreviation re := relativePathRegex.
Local Abbreviation T := ("$1" ++ R).

Lemma match_here_opening (k rest : string) :
  In k Spec.openings -> startsWith rest "/" = false ->
  exists a, match_here re (k ++ "/" ++ rest) = Some (k ++ "/", [Some k; Some a], rest).
Proof.
  intros Hk Hrest. destruct (matches_opening k rest Hk Hrest) as [a H].
  exists a. unfold match_here. cbn [ngroups relativePathRegex repeat].
  cbn [pattern relativePathRegex] in *. now rewrite H.
Qed.

Lemma match_here_shape (s m rest : string) (caps : list (option string)) :
  match_here re s = Some (m, caps, rest) ->
  exists k, In k Spec.openings /\ s = k ++ "/" ++ rest /\
            startsWith rest "/" = false.
Proof.
  unfold match_here. cbn [ngroups relativePathRegex repeat]. intros H.
  assert (Hin : In (m, caps, rest)
                  (matches (pattern relativePathRegex) [None; None] s)).
  { destruct (matches (pattern relativePathRegex) [None; None] s) as [|x l];
      [discriminate|]. cbn in H. inversion H. now left. }
  apply matches_relative in Hin as (k & a & Hk & _ & _ & Hs & Hrest).
  exists k. auto.
Qed.

Lemma replace_at_opening (k before rest : string) :
  In k Spec.openings -> startsWith rest "/" = false ->
  replace_from re T before O (k ++ "/" ++ rest) =
  k ++ R ++ replace_from re T (before ++ k ++ "/") O rest.
Proof.
  intros Hk Hrest. destruct (match_here_opening k rest Hk Hrest) as [a Hm].
  destruct (opening_nonempty k Hk) as (c & k' & ->).
  cbn [String.append] in *. cbn [replace_from]. rewrite Hm.
  cbn [String.length].
  rewrite (GetSubstitution_capture1 _ _ _ _ _ _ R_literal).
  change (k' ++ String "/" rest) with (k' ++ "/" ++ rest).
  rewrite <- (append_assoc k' "/" rest), replace_skip.
  rewrite (append_assoc before (str1 c)). cbn [str1 String.append].
  now rewrite append_assoc.
Qed.

(** Copying characters that are no slash. *)
Lemma rewrite_copy (a before s : string) :
  includes a "/" = false ->
  Spec.rewrite_from R before (a ++ s) = a ++ Spec.rewrite_from R (before ++ a) s.
Proof.
  revert before. induction a as [|c a IH]; intros before Ha.
  - cbn [String.append]. now rewrite append_empty_r.
  - cbn [includes] in Ha. apply orb_false_iff in Ha as [Hc Ha].
    cbn [String.append Spec.rewrite_from].
    assert (Hslash : Ascii.eqb c "/" = false).
    { destruct (Ascii.eqb_spec c "/") as [->|]; [|reflexivity].
      cbn in Hc. now rewrite prefix_empty in Hc. }
    unfold Spec.relative_slash. rewrite Hslash. cbn [andb String.append].
    rewrite (IH _ Ha). now rewrite append_assoc.
Qed.

Lemma rewrite_at_opening (k before rest : string) :
  In k Spec.openings -> startsWith rest "/" = false ->
  Spec.rewrite_from R before (k ++ "/" ++ rest) =
  k ++ R ++ Spec.rewrite_from R (before ++ k ++ "/") rest.
Proof.
  intros Hk Hrest. rewrite (rewrite_copy _ _ _ (opening_no_slash _ Hk)).
  cbn [String.append Spec.rewrite_from]. unfold Spec.relative_slash.
  rewrite Hrest. cbn [Ascii.eqb Bool.eqb andb negb].
  replace (existsb (Spec.endsWith (before ++ k)) Spec.openings) with true.
  - now rewrite !append_assoc.
  - symmetry. apply existsb_exists. exists k. split; [exact Hk|].
    apply endsWith_iff. now exists before.
Qed.

Lemma not_relative_slash (done since : string) (c : ascii) (s' : string) :
  done = EmptyString \/ (exists d, done = d ++ "/") ->
  Spec.unmatched since (String c s') ->
  match_here re (String c s') = None ->
  Spec.relative_slash (done ++ since) c s' = false.
Proof.
  intros Hdone Hsince Hhere. unfold Spec.relative_slash.
  destruct (Ascii.eqb_spec c "/") as [->|]; [|reflexivity].
  destruct (startsWith s' "/") eqn:Hnext; [reflexivity|]. cbn [andb negb].
  destruct (existsb (Spec.endsWith (done ++ since)) Spec.openings) eqn:E;
    [|reflexivity].
  exfalso. apply existsb_exists in E as (k & Hk & Hends).
  apply endsWith_iff in Hends as [pre0 Hends].
  destruct (opening_within _ _ _ _ Hdone Hk Hends) as [pre Hpre].
  destruct (match_here_opening k s' Hk Hnext) as [a Hm].
  destruct (opening_nonempty k Hk) as (x & k' & Hx).
  assert (Hnone : match_here re (k ++ String "/" s') = None).
  { apply (Hsince pre k Hpre). rewrite Hx. discriminate. }
  change (k ++ String "/" s') with (k ++ "/" ++ s') in Hnone. congruence.
Qed.

Lemma unmatched_step (since : string) (c : ascii) (s' : string) :
  Spec.unmatched since (String c s') ->
  match_here re (String c s') = None ->
  Spec.unmatched (since ++ str1 c) s'.
Proof.
  intros Hsince Hhere pre suf Hsplit Hsuf.
  destruct (snoc_split _ _ _ _ (eq_sym Hsplit) Hsuf) as (suf0 & -> & ->).
  rewrite append_assoc. cbn [str1 String.append].
  destruct suf0 as [|x suf0]; [exact Hhere|].
  apply (Hsince pre (String x suf0) eq_refl). discriminate.
Qed.

Lemma unmatched_start (s : string) : Spec.unmatched EmptyString s.
Proof.
  intros pre suf H Hsuf. symmetry in H. apply append_eq_empty in H as [_ ->].
  now destruct Hsuf.
Qed.

(** The scan of the expression and the rule agree. *)
Lemma replace_rewrite (n : nat) :
  forall s done since,
    (String.length s <= n)%nat ->
    done = EmptyString \/ (exists d, done = d ++ "/") ->
    Spec.unmatched since s ->
    replace_from re T (done ++ since) O s =
    Spec.rewrite_from R (done ++ since) s.
Proof.
  induction n as [|n IH]; intros s done since Hlen Hdone Hsince.
  - destruct s; [reflexivity | cbn in Hlen; lia].
  - destruct s as [|c s']; [reflexivity|].
    destruct (match_here re (String c s')) as [[[m caps] rest]|] eqn:Hhere.
    + destruct (match_here_shape _ _ _ _ Hhere) as (k & Hk & Hs & Hrest).
      rewrite Hs, (replace_at_opening _ _ _ Hk Hrest),
        (rewrite_at_opening _ _ _ Hk Hrest).
      do 2 f_equal.
      rewrite <- (append_empty_r ((done ++ since) ++ k ++ "/")).
      apply IH.
      * assert (String.length (String c s') = String.length (k ++ "/" ++ rest))
          by now rewrite Hs.
        rewrite !length_append in H. cbn [String.length] in *. lia.
      * right. exists ((done ++ since) ++ k). now rewrite !append_assoc.
      * apply unmatched_start.
    + cbn [replace_from Spec.rewrite_from]. rewrite Hhere.
      rewrite (not_relative_slash _ _ _ _ Hdone Hsince Hhere).
      cbn [str1 String.append]. f_equal.
      rewrite !append_assoc. apply IH.
      * cbn [String.length] in Hlen. lia.
      * exact Hdone.
      * now apply unmatched_step.
Qed.

End Rewrite.

(** The worker's replacement of a text is the rule applied to it, when
    what is put in contains no dollar sign. *)
Lemma replaceRelativePaths_rewrite (text protocol host origin : string) :
  Spec.no_dollar (Spec.replacement protocol host origin) = true ->
  replaceRelativePaths text protocol host origin =
  Spec.rewrite (Spec.replacement protocol host origin) text.
Proof.
  intros H. unfold replaceRelativePaths, RegExp_replace, Spec.rewrite.
  apply (replace_rewrite _ H (String.length text) text EmptyString EmptyString).
  - apply le_n.
  - now left.
  - apply unmatched_start.
Qed.

Lemma no_dollar_replacement (protocol host origin : string) :
  Spec.no_dollar protocol = true -> Spec.no_dollar host = true ->
  Spec.no_dollar origin = true ->
  Spec.no_dollar (Spec.replacement protocol host origin) = true.
Proof.
  intros Hp Hh Ho. unfold Spec.replacement.
  now rewrite !no_dollar_append, Hp, Hh, Ho.
Qed.

(** X20.  When the inbound protocol, the inbound host and the origin of
    the target contain no dollar sign, the body of a response classified as
    HTML is rewritten by the rule: every slash that comes right after
    [href=], [src=] or [action=] and a quote and is not followed by a second
    slash is replaced by the inbound protocol, two slashes, the inbound
    host, a slash, the origin of the target and a slash, and every other
    character stays, those of protocol-relative references included. *)
Theorem html_relative_paths (P : Platform) (inbound : HttpRequest.t)
    (url : URL.t) (target : string) (tu : URL.t) (up : HttpResponse.t) :
  Spec.reaches P inbound url target tu up ->
  Spec.classify (HttpResponse.status up)
    (HeaderList.get "Content-Type" (HttpResponse.headers up)) = Spec.Html ->
  Spec.no_dollar (URL.protocol url) = true ->
  Spec.no_dollar (URL.host url) = true ->
  Spec.no_dollar (URL.origin tu) = true ->
  replaceRelativePaths (Spec.text_of P up) (URL.protocol url) (URL.host url)
    (URL.origin tu) =
    Spec.rewrite (Spec.replacement (URL.protocol url) (URL.host url) (URL.origin tu))
      (Spec.text_of P up) /\
  serve P inbound =
    (inr (Spec.delivered_text up
            (Spec.rewrite
               (Spec.replacement (URL.protocol url) (URL.host url) (URL.origin tu))
               (Spec.text_of P up))),
     [Spec.outbound inbound tu]).
Proof.
  intros Hreach Hhtml Hp Hh Ho.
  pose proof (replaceRelativePaths_rewrite (Spec.text_of P up) _ _ _
                (no_dollar_replacement _ _ _ Hp Hh Ho)) as E.
  split; [exact E|].
  rewrite (serve_classified _ _ _ _ _ _ Hreach), Hhtml. now rewrite E.
Qed.

Lemma html_relative_paths_witness :
  replaceRelativePaths Demo.page "https:" "relay.example" "https://example.com" =
    Spec.rewrite "https://relay.example/https://example.com/" Demo.page /\
  serve (Demo.platform Demo.sites)
    (Demo.GET "https://relay.example/example.com/c" nil) =
    (inr (HttpResponse.make 200 "OK"
            [("access-control-allow-origin", "*"); ("cache-control", "no-store");
             ("content-type", "text/html; charset=utf-8");
             ("Access-Control-Allow-Methods", "GET, POST, PUT, DELETE");
             ("Access-Control-Allow-Headers", "*")]
            (Some ("<img src=" ++
                   Demo.quoted "https://relay.example/https://example.com/logo.png" ++
                   "><img src=" ++ Demo.quoted "//cdn.example.com/x.png" ++ ">"))),
     [HttpRequest.make "https://example.com/c" "GET" nil None "manual"]).
Proof.
  exact (html_relative_paths (Demo.platform Demo.sites)
           (Demo.GET "https://relay.example/example.com/c" nil)
           (Demo.relay_url "/example.com/c") "https://example.com/c"
           (Demo.example_url "/c") _
           (reaches_example "/c" _ eq_refl eq_refl eq_refl eq_refl eq_refl)
           eq_refl eq_refl eq_refl eq_refl).
Defined.

(** C6, the failing input.  The target [http://a$&b.example/] serves a page
    with one relative link.  The worker writes the origin of the target
    into the replacement template as it is; the origin contains [$&], which
    the replacement reads as the matched text, and what is put in place of
    the slash is not the origin, as the rule has it. *)
Lemma replacement_pattern_in_origin :
  serve (Demo.platform Demo.sites)
    (Demo.GET "https://relay.example/http://a$&b.example/" nil) =
    (inr (HttpResponse.make 200 "OK"
            [("content-type", "text/html"); ("Cache-Control", "no-store");
             ("Access-Control-Allow-Origin", "*");
             ("Access-Control-Allow-Methods", "GET, POST, PUT, DELETE");
             ("Access-Control-Allow-Headers", "*")]
            (Some ("<a href=" ++ String dquote "https://relay.example/http://ahref=" ++
                   String dquote "/b.example/x" ++ str1 dquote ++ ">"))),
     [HttpRequest.make "http://a$&b.example/" "GET" nil None "manual"]) /\
  Spec.rewrite (Spec.replacement "https:" "relay.example" "http://a$&b.example")
    Demo.link =
    "<a href=" ++ Demo.quoted "https://relay.example/http://a$&b.example/x" ++ ">" /\
  (replaceRelativePaths Demo.link "https:" "relay.example" "http://a$&b.example" <>
   Spec.rewrite (Spec.replacement "https:" "relay.example" "http://a$&b.example")
     Demo.link).
Proof. split; [reflexivity|]. split; [reflexivity|]. discriminate. Qed.

(* ================================================================= *)
(** ** Part XIV.  The root page, and the requests that leave the relay *)
(* ================================================================= *)

(** [new Response(text, {headers: {'Content-Type': v}})]: status 200, and
    the content type as given. *)
Lemma new_Response_text (t v : string) (st : Store) :
  new_Response (Some (Text t)) 200 EmptyString [("Content-Type", v)] st =
  (inr (Response.make 200 EmptyString (List.length (heap st)) (Some (Text t))),
   mkStore (heap st ++ [[("Content-Type", v)]]) (sent st)).
Proof.
  unfold new_Response.
  change ((200 <? 200) || (599 <? 200)) with false. cbv iota.
  unfold bind at 1. rewrite Headers_new_run.
  unfold Response_with. change (null_body_status 200) with false. cbv iota.
  unfold bind, Headers_get, read, ret. unfold bind. cbn [heap].
  rewrite nth_length_app. reflexivity.
Qed.

(** The handler on the root path. *)
Lemma root_page_response (P : Platform) (inbound : HttpRequest.t) (url : URL.t) :
  parseURL P (HttpRequest.url inbound) = inr url ->
  URL.pathname url = "/" ->
  serve P inbound =
  (inr (HttpResponse.make 200 EmptyString
          [("Content-Type", "text/html; charset=utf-8")] (Some getRootHtml)),
   nil).
Proof.
  intros Hurl Hpath.
  rewrite (serve_of_pipeline P inbound
             (inr (Response.make 200 EmptyString 1 (Some (Text getRootHtml))),
              mkStore [HttpRequest.headers inbound;
                       [("Content-Type", "text/html; charset=utf-8")]] nil)).
  - reflexivity.
  - unfold pipeline, bind at 1, new_URL, lift. cbn [request_of Request.url].
    rewrite Hurl. cbn [ret]. rewrite Hpath. cbn [String.eqb Ascii.eqb Bool.eqb].
    cbv iota. now rewrite new_Response_text.
Qed.

(** X1.  A request whose URL has the path [/] is answered with the landing
    page: status 200, the one header [Content-Type: text/html;
    charset=utf-8] and the text of [getRootHtml] as body, whatever the
    method, the headers, the body and the query of the request are; nothing
    is sent upstream. *)
Theorem root_page (P : Platform) (inbound : HttpRequest.t) (url : URL.t) :
  parseURL P (HttpRequest.url inbound) = inr url ->
  URL.pathname url = "/" ->
  serve P inbound =
  (inr (HttpResponse.make 200 EmptyString
          [("Content-Type", "text/html; charset=utf-8")] (Some getRootHtml)),
   nil).
Proof. exact (root_page_response P inbound url). Qed.

Lemma root_page_witness :
  serve (Demo.platform Relay.sites) (Relay.post "https://relay.example/?q=1") =
  (inr (HttpResponse.make 200 EmptyString
          [("Content-Type", "text/html; charset=utf-8")] (Some getRootHtml)),
   nil).
Proof.
  exact (root_page (Demo.platform Relay.sites)
           (Relay.post "https://relay.example/?q=1")
           (URL.make "https://relay.example/?q=1" "https:" EmptyString EmptyString
              "relay.example" "/" "?q=1" "https://relay.example")
           eq_refl eq_refl).
Defined.

(** The handler up to the network, when the request is dispatched. *)
Lemma pipeline_dispatched (P : Platform) (inbound : HttpRequest.t) (url : URL.t)
    (target : string) (tu : URL.t) :
  Relay.dispatched P inbound url target tu ->
  pipeline P (request_of inbound) (initial inbound) =
  match network P (Spec.outbound inbound tu) with
  | inr up =>
      respond P url target (Spec.upstream_response up) (Spec.arrived inbound tu up)
  | inl e =>
      (inl e,
       mkStore [HttpRequest.headers inbound;
                Spec.forwarded_headers (HttpRequest.headers inbound);
                Spec.forwarded_headers (HttpRequest.headers inbound)]
               [Spec.outbound inbound tu])
  end.
Proof.
  intros (Hurl & Hroot & Htarget & Htu & Huser & Hpass & Hbody).
  destruct (network P (Spec.outbound inbound tu)) as [e|up] eqn:Hnet.
  - unfold pipeline, bind at 1, new_URL, lift. cbn [request_of Request.url].
    rewrite Hurl. cbn [ret]. rewrite (eqb_not_root _ Hroot).
    unfold bind at 1. rewrite Htarget. cbn [lift ret].
    unfold bind at 1. cbn [Request.headers]. rewrite filterHeaders_run.
    cbn [initial heap sent nth List.length app request_of Request.headers].
    unfold bind at 1, new_Request, bind at 1, new_URL, lift. rewrite Htu. cbn [ret].
    rewrite Huser, Hpass. cbn [String.eqb negb orb].
    unfold bind at 1, Headers_copy, bind at 1, Headers_entries, bind at 1, read, ret.
    cbn [heap nth]. rewrite sort_and_combine_forwarded, Headers_new_run.
    cbn [heap sent List.length app request_of Request.body Request.method].
    unfold bind at 1. fold (@ret unit tt). rewrite (body_check _ _ Hbody).
    unfold JS.fetch, bind, read, record_sent, lift.
    cbn [heap sent nth Request.headers Request.url Request.method Request.body
         Request.redirect app].
    rewrite option_map_bytes_Stream. fold (Spec.outbound inbound tu).
    rewrite Hnet. reflexivity.
  - apply pipeline_reaches. unfold Spec.reaches. repeat split; assumption.
Qed.

Lemma reaches_dispatched (P : Platform) (inbound : HttpRequest.t) (url : URL.t)
    (target : string) (tu : URL.t) (up : HttpResponse.t) :
  Spec.reaches P inbound url target tu up <->
  Relay.dispatched P inbound url target tu /\
  network P (Spec.outbound inbound tu) = inr up.
Proof. unfold Spec.reaches, Relay.dispatched. tauto. Qed.

(** Without a target to dispatch to, the handler answers with the landing
    page or fails before anything is sent. *)
Lemma pipeline_idle_result (P : Platform) (inbound : HttpRequest.t) :
  (forall url target tu, ~ Relay.dispatched P inbound url target tu) ->
  (exists url, parseURL P (HttpRequest.url inbound) = inr url /\
               URL.pathname url = "/") \/
  (exists e st, pipeline P (request_of inbound) (initial inbound) = (inl e, st) /\
                sent st = nil).
Proof.
  intros H. unfold pipeline, bind at 1, new_URL, lift. cbn [request_of Request.url].
  destruct (parseURL P (HttpRequest.url inbound)) as [e|url] eqn:Hurl;
    [right; eexists _, _; split; reflexivity|].
  cbn [ret]. destruct (String.eqb (URL.pathname url) "/") eqn:Hroot.
  { left. exists url. apply String.eqb_eq in Hroot. auto. }
  right. unfold bind at 1. destruct (actualUrlStr url) as [e|target] eqn:Htarget;
    [eexists _, _; split; reflexivity|].
  cbn [lift ret]. unfold bind at 1. cbn [Request.headers]. rewrite filterHeaders_run.
  cbn [initial heap sent nth List.length app request_of Request.headers].
  unfold bind at 1, new_Request, bind at 1, new_URL, lift.
  destruct (parseURL P target) as [e|tu] eqn:Htu;
    [eexists _, _; split; reflexivity|]. cbn [ret].
  destruct (String.eqb (URL.username tu) EmptyString) eqn:Huser;
    [|eexists _, _; split; reflexivity].
  destruct (String.eqb (URL.password tu) EmptyString) eqn:Hpass;
    [|eexists _, _; split; reflexivity].
  cbn [negb orb].
  unfold bind at 1, Headers_copy, bind at 1, Headers_entries, bind at 1, read, ret.
  cbn [heap nth]. rewrite sort_and_combine_forwarded, Headers_new_run.
  cbn [heap sent List.length app request_of Request.body Request.method].
  destruct (Spec.body_allowed inbound) eqn:Hbody.
  - exfalso. apply (H url target tu). unfold Relay.dispatched.
    apply String.eqb_neq in Hroot. apply String.eqb_eq in Huser, Hpass.
    repeat split; assumption.
  - unfold Spec.body_allowed in Hbody. unfold bind at 1.
    destruct (HttpRequest.body inbound) as [b|]; [|discriminate].
    cbn [option_map]. apply negb_false_iff in Hbody. rewrite Hbody.
    eexists _, _; split; reflexivity.
Qed.

Lemma serve_idle (P : Platform) (inbound : HttpRequest.t) :
  (forall url target tu, ~ Relay.dispatched P inbound url target tu) ->
  snd (serve P inbound) = nil.
Proof.
  intros H.
  destruct (pipeline_idle_result P inbound H) as [(url & Hurl & Hroot)|(e & st & Hp & Hs)].
  - now rewrite (root_page_response P inbound url Hurl Hroot).
  - now rewrite (serve_of_pipeline P inbound _ Hp).
Qed.

(** The requests sent while an inbound request is served. *)
Lemma serve_sent (P : Platform) (inbound : HttpRequest.t) :
  snd (serve P inbound) =
  sent (snd (pipeline P (request_of inbound) (initial inbound))).
Proof.
  rewrite (serve_of_pipeline P inbound _ eq_refl).
  now destruct (pipeline P (request_of inbound) (initial inbound)) as [[e|r] st].
Qed.

Lemma serve_dispatched (P : Platform) (inbound : HttpRequest.t) (url : URL.t)
    (target : string) (tu : URL.t) :
  Relay.dispatched P inbound url target tu ->
  snd (serve P inbound) = [Spec.outbound inbound tu].
Proof.
  intros H. destruct (network P (Spec.outbound inbound tu)) as [e|up] eqn:Hnet.
  - rewrite serve_sent, (pipeline_dispatched _ _ _ _ _ H), Hnet. reflexivity.
  - rewrite (serve_classified P inbound url target tu up); [reflexivity|].
    now apply reaches_dispatched.
Qed.

Lemma dispatched_or_idle (P : Platform) (inbound : HttpRequest.t) :
  (exists url target tu, Relay.dispatched P inbound url target tu) \/
  (forall url target tu, ~ Relay.dispatched P inbound url target tu).
Proof.
  unfold Relay.dispatched.
  destruct (parseURL P (HttpRequest.url inbound)) as [e|url] eqn:Hurl.
  { right. intros ? ? ? (H & _). discriminate. }
  destruct (String.eqb (URL.pathname url) "/") eqn:Hroot.
  { right. intros ? ? ? (H & Hr & _). injection H as <-.
    now apply String.eqb_eq in Hroot. }
  destruct (actualUrlStr url) as [e|target] eqn:Htarget.
  { right. intros ? ? ? (H & _ & Ht & _). injection H as <-. congruence. }
  destruct (parseURL P target) as [e|tu] eqn:Htu.
  { right. intros ? ? ? (H & _ & Ht & Hp & _). injection H as <-.
    rewrite Htarget in Ht. injection Ht as <-. congruence. }
  destruct (String.eqb (URL.username tu) EmptyString) eqn:Huser.
  2:{ right. intros ? ? ? (H & _ & Ht & Hp & Hu & _). injection H as <-.
      rewrite Htarget in Ht. injection Ht as <-. rewrite Htu in Hp.
      injection Hp as <-. now apply String.eqb_neq in Huser. }
  destruct (String.eqb (URL.password tu) EmptyString) eqn:Hpass.
  2:{ right. intros ? ? ? (H & _ & Ht & Hp & _ & Hw & _). injection H as <-.
      rewrite Htarget in Ht. injection Ht as <-. rewrite Htu in Hp.
      injection Hp as <-. now apply String.eqb_neq in Hpass. }
  destruct (Spec.body_allowed inbound) eqn:Hbody.
  2:{ right. intros ? ? ? (_ & _ & _ & _ & _ & _ & Hb). discriminate. }
  left. exists url, target, tu. apply String.eqb_neq in Hroot.
  apply String.eqb_eq in Huser, Hpass. repeat split; assumption.
Qed.

(** X2.  The handler never lets an exception escape: every inbound request,
    on every platform, is answered with a response.  The response is the
    landing page, with nothing sent; or the error envelope of some error;
    or it has the status and the status text of the response that the
    network gave to the one request sent. *)
Theorem every_request_is_answered (P : Platform) (inbound : HttpRequest.t) :
  exists response,
    fst (serve P inbound) = inr response /\
    ((response =
        HttpResponse.make 200 EmptyString
          [("Content-Type", "text/html; charset=utf-8")] (Some getRootHtml) /\
      snd (serve P inbound) = nil) \/
     (exists e, response = Spec.error_envelope (message e)) \/
     (exists o up,
        snd (serve P inbound) = [o] /\ network P o = inr up /\
        HttpResponse.status response = HttpResponse.status up /\
        HttpResponse.statusText response = HttpResponse.statusText up)).
Proof.
  destruct (dispatched_or_idle P inbound) as [(url & target & tu & H)|H].
  - destruct (network P (Spec.outbound inbound tu)) as [e|up] eqn:Hnet.
    + rewrite (serve_of_pipeline P inbound _ (pipeline_dispatched _ _ _ _ _ H)), Hnet.
      eexists. split; [reflexivity|]. right. left. now exists e.
    + rewrite (serve_classified P inbound url target tu up)
        by now apply reaches_dispatched.
      eexists. split; [reflexivity|]. right. cbn [snd].
      assert (Hd : forall body,
        (exists e, Spec.delivered up body = Spec.error_envelope (message e)) \/
        (exists o up0,
           [Spec.outbound inbound tu] = [o] /\ network P o = inr up0 /\
           HttpResponse.status (Spec.delivered up body) = HttpResponse.status up0 /\
           HttpResponse.statusText (Spec.delivered up body) =
             HttpResponse.statusText up0)).
      { intros body. unfold Spec.delivered.
        destruct (Spec.constructible (HttpResponse.status up) body).
        - right. now exists (Spec.outbound inbound tu), up.
        - left. eexists. reflexivity. }
      destruct (Spec.classify _ _);
        [|destruct (delivered_text_cases up
                      (replaceRelativePaths (Spec.text_of P up) (URL.protocol url)
                         (URL.host url) (URL.origin tu))) as [body ->];
          apply Hd|apply Hd].
      unfold Spec.redirected.
      destruct (parseURL P (Spec.location_of up)) as [e|location].
      * left. now exists e.
      * right. now exists (Spec.outbound inbound tu), up.
  - destruct (pipeline_idle_result P inbound H) as [(url & Hurl & Hroot)|(e & st & Hp & Hs)].
    + rewrite (root_page_response P inbound url Hurl Hroot).
      eexists. split; [reflexivity|]. left. auto.
    + rewrite (serve_of_pipeline P inbound _ Hp), Hs.
      eexists. split; [reflexivity|]. right. left. now exists e.
Qed.

(** X3.  While one inbound request is served at most one request goes
    upstream.  It has the method and the body of the inbound request, asks
    for redirects not to be followed, carries no header whose name starts
    with [cf-] in any case and every other inbound header, and goes to the
    URL the path resolves to. *)
Theorem outbound_requests (P : Platform) (inbound o : HttpRequest.t) :
  In o (snd (serve P inbound)) ->
  snd (serve P inbound) = [o] /\
  HttpRequest.method o = HttpRequest.method inbound /\
  HttpRequest.body o = HttpRequest.body inbound /\
  HttpRequest.redirect o = "manual" /\
  (forall name,
     HeaderList.get name (HttpRequest.headers o) =
     if startsWith (byteLowercase name) "cf-" then None
     else HeaderList.get name (HttpRequest.headers inbound)) /\
  exists url target tu,
    parseURL P (HttpRequest.url inbound) = inr url /\
    actualUrlStr url = inr target /\
    parseURL P target = inr tu /\
    HttpRequest.url o = URL.href tu.
Proof.
  intros Hin. destruct (dispatched_or_idle P inbound) as [(url & target & tu & H)|H].
  - rewrite (serve_dispatched _ _ _ _ _ H) in *.
    destruct Hin as [<-|[]]. split; [reflexivity|].
    cbn [Spec.outbound HttpRequest.method HttpRequest.body HttpRequest.redirect
         HttpRequest.headers HttpRequest.url].
    repeat split.
    + intros name. apply get_forwarded.
    + destruct H as (Hurl & _ & Htarget & Htu & _). now exists url, target, tu.
  - rewrite (serve_idle _ _ H) in Hin. destruct Hin.
Qed.

Lemma outbound_requests_witness :
  snd (serve (Demo.platform Relay.sites)
         (Relay.post "https://relay.example/example.com/k?x=1")) =
    [Relay.forwarded_post] /\
  HttpRequest.method Relay.forwarded_post =
    HttpRequest.method (Relay.post "https://relay.example/example.com/k?x=1") /\
  HttpRequest.body Relay.forwarded_post =
    HttpRequest.body (Relay.post "https://relay.example/example.com/k?x=1") /\
  HttpRequest.redirect Relay.forwarded_post = "manual" /\
  (forall name,
     HeaderList.get name (HttpRequest.headers Relay.forwarded_post) =
     if startsWith (byteLowercase name) "cf-" then None
     else HeaderList.get name
            (HttpRequest.headers
               (Relay.post "https://relay.example/example.com/k?x=1"))) /\
  exists url target tu,
    Demo.parse "https://relay.example/example.com/k?x=1" = inr url /\
    actualUrlStr url = inr target /\
    Demo.parse target = inr tu /\
    HttpRequest.url Relay.forwarded_post = URL.href tu.
Proof.
  exact (outbound_requests (Demo.platform Relay.sites)
           (Relay.post "https://relay.example/example.com/k?x=1")
           Relay.forwarded_post (or_introl eq_refl)).
Defined.

(** X4.  When the network fails for the outbound request, the caller
    receives the error envelope with the message of the network error; the
    one request was sent. *)
Theorem upstream_failure (P : Platform) (inbound : HttpRequest.t) (url : URL.t)
    (target : string) (tu : URL.t) (e : Error) :
  Relay.dispatched P inbound url target tu ->
  network P (Spec.outbound inbound tu) = inl e ->
  serve P inbound =
  (inr (Spec.error_envelope (message e)), [Spec.outbound inbound tu]).
Proof.
  intros H Hnet.
  rewrite (serve_of_pipeline P inbound _ (pipeline_dispatched _ _ _ _ _ H)), Hnet.
  reflexivity.
Qed.

Lemma upstream_failure_witness :
  serve (Demo.platform Relay.sites)
    (Demo.GET "https://relay.example/example.com/zzz" nil) =
  (inr (Spec.error_envelope "Network connection lost."),
   [HttpRequest.make "https://example.com/zzz" "GET" nil None "manual"]).
Proof.
  refine (upstream_failure (Demo.platform Relay.sites)
            (Demo.GET "https://relay.example/example.com/zzz" nil)
            (Demo.relay_url "/example.com/zzz") "https://example.com/zzz"
            (Demo.example_url "/zzz") Demo.NetworkError _ eq_refl).
  unfold Relay.dispatched. repeat split; try reflexivity. discriminate.
Defined.

(** X5.  When the target the path resolves to is no URL, the caller
    receives the error envelope with the message of the URL parser and
    nothing is sent. *)
Theorem target_unparsable (P : Platform) (inbound : HttpRequest.t) (url : URL.t)
    (target : string) (e : Error) :
  parseURL P (HttpRequest.url inbound) = inr url ->
  URL.pathname url <> "/" ->
  actualUrlStr url = inr target ->
  parseURL P target = inl e ->
  serve P inbound = (inr (Spec.error_envelope (message e)), nil).
Proof.
  intros Hurl Hroot Htarget Htu.
  rewrite (serve_of_pipeline P inbound
             (inl e, mkStore [HttpRequest.headers inbound;
                              Spec.forwarded_headers (HttpRequest.headers inbound)]
                             nil)); [reflexivity|].
  unfold pipeline, bind at 1, new_URL, lift. cbn [request_of Request.url].
  rewrite Hurl. cbn [ret]. rewrite (eqb_not_root _ Hroot).
  unfold bind at 1. rewrite Htarget. cbn [lift ret].
  unfold bind at 1. cbn [Request.headers]. rewrite filterHeaders_run.
  cbn [initial heap sent nth List.length app request_of Request.headers].
  unfold bind at 1, new_Request, bind at 1, new_URL, lift. now rewrite Htu.
Qed.

Lemma target_unparsable_witness :
  serve (Demo.platform Relay.sites) (Demo.GET "https://relay.example/http://" nil) =
  (inr (Spec.error_envelope "Invalid URL"), nil).
Proof.
  refine (target_unparsable (Demo.platform Relay.sites)
            (Demo.GET "https://relay.example/http://" nil)
            (Demo.relay_url "/http://") "http://" Demo.TypeError_invalid_URL
            eq_refl _ eq_refl eq_refl).
  discriminate.
Defined.

(* ================================================================= *)
(** ** Part XV.  More on the responses *)
(* ================================================================= *)

Section MoreHeaderListFacts.
Local Open Scope list_scope.
Import HeaderList.

Lemma same_name_sym (a b : string) : same_name a b = same_name b a.
Proof. unfold same_name. apply String.eqb_sym. Qed.

Lemma get_of_same_values (n : string) (l l' : t) :
  values_of n l = values_of n l' -> get n l = get n l'.
Proof.
  intros H. unfold get. rewrite <- H.
  destruct (contains n l) eqn:C, (contains n l') eqn:C'; try reflexivity.
  - apply values_contains in C. apply contains_values in C'. congruence.
  - apply values_contains in C'. apply contains_values in C. congruence.
Qed.

(** The policy injector leaves the headers of every other name alone. *)
Lemma values_of_inject (n : string) (l : t) :
  Relay.policy_name n = false ->
  values_of n (Spec.inject l) = values_of n l.
Proof.
  unfold Relay.policy_name, Relay.policy_names. cbn [existsb].
  rewrite !orb_false_iff. intros (H1 & H2 & H3 & H4 & _).
  rewrite same_name_sym in H1, H2, H3, H4.
  unfold Spec.inject.
  now rewrite !values_of_set_other by assumption.
Qed.

(** Iterating a [Headers] object keeps the [Set-Cookie] headers apart. *)
Lemma values_of_set_cookie (l : t) :
  values_of "Set-Cookie" (sort_and_combine l) = values_of "Set-Cookie" l.
Proof.
  rewrite <- (values_of_lower "Set-Cookie" l), <- (values_of_lower "Set-Cookie").
  change (byteLowercase "Set-Cookie") with "set-cookie".
  unfold sort_and_combine.
  rewrite (values_of_flat_map l _ "set-cookie" (selection_all l) eq_refl).
  destruct (existsb (String.eqb "set-cookie") (sorted_lowercase_set l)) eqn:E.
  - unfold entries_of. cbn [String.eqb Ascii.eqb Bool.eqb]. cbv iota.
    rewrite map_map. cbn [snd]. now rewrite map_id.
  - symmetry. apply contains_values.
    destruct (contains "set-cookie" l) eqn:C; [|reflexivity].
    apply contains_In in C. apply set_In in C.
    change (byteLowercase "set-cookie") with "set-cookie" in C.
    apply existsb_eqb_In in C. congruence.
Qed.

End MoreHeaderListFacts.

(** X6.  A redirect whose [Location] header is missing, read as [null], or
    does not parse as an absolute URL is answered with the error envelope
    that carries the message of the URL parser. *)
Theorem redirect_location_unparsable (P : Platform) (inbound : HttpRequest.t)
    (url : URL.t) (target : string) (tu : URL.t) (up : HttpResponse.t) (e : Error) :
  Spec.reaches P inbound url target tu up ->
  existsb (N.eqb (HttpResponse.status up)) redirect_statuses = true ->
  parseURL P match HeaderList.get "location" (HttpResponse.headers up) with
             | Some v => v
             | None => "null"
             end = inl e ->
  serve P inbound =
  (inr (Spec.error_envelope (message e)), [Spec.outbound inbound tu]).
Proof.
  intros Hreach Hred Hloc. rewrite (serve_redirect _ _ _ _ _ _ Hreach Hred).
  unfold Spec.redirected, Spec.location_of. now rewrite Hloc.
Qed.

Lemma redirect_location_unparsable_witness :
  serve (Demo.platform Relay.sites)
    (Demo.GET "https://relay.example/example.com/w" nil) =
  (inr (Spec.error_envelope "Invalid URL"),
   [HttpRequest.make "https://example.com/w" "GET" nil None "manual"]).
Proof.
  refine (redirect_location_unparsable (Demo.platform Relay.sites)
            (Demo.GET "https://relay.example/example.com/w" nil)
            (Demo.relay_url "/example.com/w") "https://example.com/w"
            (Demo.example_url "/w") Relay.found_nowhere Demo.TypeError_invalid_URL
            _ eq_refl eq_refl).
  unfold Spec.reaches. repeat split; try reflexivity. discriminate.
Defined.

(** X7.  A redirect whose [Location] parses is answered with the status,
    the status text and the body of the upstream response and with one
    header only, the rewritten [Location]: no other header of the upstream
    response and none of the policy headers is on the response. *)
Theorem redirect_carries_only_location (P : Platform) (inbound : HttpRequest.t)
    (url : URL.t) (target : string) (tu : URL.t) (up : HttpResponse.t)
    (location : URL.t) :
  Spec.reaches P inbound url target tu up ->
  existsb (N.eqb (HttpResponse.status up)) redirect_statuses = true ->
  parseURL P match HeaderList.get "location" (HttpResponse.headers up) with
             | Some v => v
             | None => "null"
             end = inr location ->
  exists response,
    serve P inbound = (inr response, [Spec.outbound inbound tu]) /\
    HttpResponse.status response = HttpResponse.status up /\
    HttpResponse.statusText response = HttpResponse.statusText up /\
    HttpResponse.body response = HttpResponse.body up /\
    HttpResponse.headers response =
      [("Location", "/" ++ encodeURIComponent (URL.href location))] /\
    forall name,
      HeaderList.same_name name "Location" = false ->
      HeaderList.get name (HttpResponse.headers response) = None.
Proof.
  intros Hreach Hred Hloc. rewrite (serve_redirect _ _ _ _ _ _ Hreach Hred).
  unfold Spec.redirected, Spec.location_of. rewrite Hloc.
  eexists. split; [reflexivity|]. cbn [HttpResponse.status HttpResponse.statusText
    HttpResponse.body HttpResponse.headers]. repeat split.
  intros name Hname. unfold HeaderList.get, HeaderList.contains, HeaderList.named.
  cbn [existsb fst]. rewrite same_name_sym, Hname. reflexivity.
Qed.

Lemma redirect_carries_only_location_witness :
  exists response,
    serve (Demo.platform Demo.sites)
      (Demo.GET "https://relay.example/example.com/a" nil) =
      (inr response,
       [HttpRequest.make "https://example.com/a" "GET" nil None "manual"]) /\
    HttpResponse.status response = 302 /\
    HttpResponse.statusText response = "Found" /\
    HttpResponse.body response = None /\
    HttpResponse.headers response =
      [("Location", "/https%3A%2F%2Fexample.com%2Fnext")] /\
    forall name,
      HeaderList.same_name name "Location" = false ->
      HeaderList.get name (HttpResponse.headers response) = None.
Proof.
  refine (redirect_carries_only_location (Demo.platform Demo.sites)
            (Demo.GET "https://relay.example/example.com/a" nil)
            (Demo.relay_url "/example.com/a") "https://example.com/a"
            (Demo.example_url "/a") Demo.found_with_cookies
            (Demo.example_url "/next") _ eq_refl eq_refl).
  unfold Spec.reaches. repeat split; try reflexivity. discriminate.
Defined.

(** The empty text has nothing to rewrite. *)
Lemma replaceRelativePaths_empty (protocol host origin : string) :
  replaceRelativePaths EmptyString protocol host origin = EmptyString.
Proof. reflexivity. Qed.

(** The response of the worker to an upstream response that is no redirect
    and whose status can be given to a response: a status between 200 and
    599 and, with a null body status, no body. *)
Lemma serve_delivered (P : Platform) (inbound : HttpRequest.t) (url : URL.t)
    (target : string) (tu : URL.t) (up : HttpResponse.t) :
  Spec.reaches P inbound url target tu up ->
  existsb (N.eqb (HttpResponse.status up)) redirect_statuses = false ->
  200 <= HttpResponse.status up <= 599 ->
  null_body_status (HttpResponse.status up) = false \/
  HttpResponse.body up = None ->
  exists body,
    serve P inbound =
    (inr (HttpResponse.make (HttpResponse.status up) (HttpResponse.statusText up)
            (Spec.inject (HeaderList.sort_and_combine (HttpResponse.headers up)))
            body),
     [Spec.outbound inbound tu]).
Proof.
  intros Hreach Hred [Hlo Hhi] Hnull.
  rewrite (serve_classified _ _ _ _ _ _ Hreach). unfold Spec.classify.
  rewrite redirect_statuses_eq in Hred. rewrite Hred.
  apply N.leb_le in Hlo, Hhi.
  assert (Hp : exists body,
    Spec.delivered up (HttpResponse.body up) =
    HttpResponse.make (HttpResponse.status up) (HttpResponse.statusText up)
      (Spec.inject (HeaderList.sort_and_combine (HttpResponse.headers up))) body).
  { unfold Spec.delivered, Spec.constructible. rewrite Hlo, Hhi.
    destruct Hnull as [Hnull|Hnull]; rewrite Hnull.
    - destruct (HttpResponse.body up); eexists; reflexivity.
    - eexists; reflexivity. }
  assert (Ht : exists body,
    Spec.delivered_text up
      (replaceRelativePaths (Spec.text_of P up) (URL.protocol url) (URL.host url)
         (URL.origin tu)) =
    HttpResponse.make (HttpResponse.status up) (HttpResponse.statusText up)
      (Spec.inject (HeaderList.sort_and_combine (HttpResponse.headers up))) body).
  { unfold Spec.delivered_text, Spec.delivered, Spec.constructible.
    rewrite Hlo, Hhi. destruct Hnull as [Hnull|Hnull].
    - rewrite Hnull. eexists; reflexivity.
    - unfold Spec.text_of. rewrite Hnull, replaceRelativePaths_empty.
      destruct (null_body_status (HttpResponse.status up)); eexists; reflexivity. }
  destruct (HeaderList.get "Content-Type" (HttpResponse.headers up)) as [v|];
    [destruct (includes v "text/html")|].
  - destruct Ht as [body ->]. now exists body.
  - destruct Hp as [body ->]. now exists body.
  - destruct Hp as [body ->]. now exists body.
Qed.

(** X8.  On the HTML and the passthrough branch the status and the status
    text of the upstream response are kept, every upstream header other
    than the four policy headers reads as it did upstream, and the
    [Set-Cookie] headers keep their number and their order. *)
Theorem upstream_headers_kept (P : Platform) (inbound : HttpRequest.t)
    (url : URL.t) (target : string) (tu : URL.t) (up : HttpResponse.t) :
  Spec.reaches P inbound url target tu up ->
  existsb (N.eqb (HttpResponse.status up)) redirect_statuses = false ->
  200 <= HttpResponse.status up <= 599 ->
  null_body_status (HttpResponse.status up) = false ->
  exists response,
    serve P inbound = (inr response, [Spec.outbound inbound tu]) /\
    HttpResponse.status response = HttpResponse.status up /\
    HttpResponse.statusText response = HttpResponse.statusText up /\
    (forall name, Relay.policy_name name = false ->
       HeaderList.get name (HttpResponse.headers response) =
       HeaderList.get name (HttpResponse.headers up)) /\
    HeaderList.values_of "Set-Cookie" (HttpResponse.headers response) =
    HeaderList.values_of "Set-Cookie" (HttpResponse.headers up).
Proof.
  intros Hreach Hred Hrange Hnull.
  destruct (serve_delivered _ _ _ _ _ _ Hreach Hred Hrange (or_introl Hnull))
    as [body ->].
  eexists. split; [reflexivity|]. cbn [HttpResponse.status HttpResponse.statusText
    HttpResponse.headers]. repeat split.
  - intros name Hname. rewrite <- (get_sort_and_combine (HttpResponse.headers up)).
    apply get_of_same_values. now apply values_of_inject.
  - rewrite values_of_inject by reflexivity. apply values_of_set_cookie.
Qed.

Lemma upstream_headers_kept_witness :
  exists response,
    serve (Demo.platform Relay.sites)
      (Demo.GET "https://relay.example/example.com/k" nil) =
      (inr response,
       [HttpRequest.make "https://example.com/k" "GET" nil None "manual"]) /\
    HttpResponse.status response = 200 /\
    HttpResponse.statusText response = "OK" /\
    (forall name, Relay.policy_name name = false ->
       HeaderList.get name (HttpResponse.headers response) =
       HeaderList.get name (HttpResponse.headers Relay.page_with_cookies)) /\
    HeaderList.values_of "Set-Cookie" (HttpResponse.headers response) =
      ["a=1"; "b=2"].
Proof.
  refine (upstream_headers_kept (Demo.platform Relay.sites)
            (Demo.GET "https://relay.example/example.com/k" nil)
            (Demo.relay_url "/example.com/k") "https://example.com/k"
            (Demo.example_url "/k") Relay.page_with_cookies _ eq_refl _ eq_refl).
  - unfold Spec.reaches. repeat split; try reflexivity. discriminate.
  - split; discriminate.
Defined.

(** X9.  On the HTML and the passthrough branch, when the upstream status
    lies between 200 and 599 and the upstream response has no body if its
    status is a null body status, each of [Cache-Control],
    [Access-Control-Allow-Origin], [Access-Control-Allow-Methods] and
    [Access-Control-Allow-Headers] is present exactly once, with the value
    the worker sets, whatever the upstream sent under these names in any
    case. *)
Theorem policy_headers_override (P : Platform) (inbound : HttpRequest.t)
    (url : URL.t) (target : string) (tu : URL.t) (up : HttpResponse.t) :
  Spec.reaches P inbound url target tu up ->
  existsb (N.eqb (HttpResponse.status up)) redirect_statuses = false ->
  200 <= HttpResponse.status up <= 599 ->
  (null_body_status (HttpResponse.status up) = true ->
   HttpResponse.body up = None) ->
  exists response,
    serve P inbound = (inr response, [Spec.outbound inbound tu]) /\
    HeaderList.values_of "Cache-Control" (HttpResponse.headers response) =
      ["no-store"] /\
    HeaderList.values_of "Access-Control-Allow-Origin" (HttpResponse.headers response) =
      ["*"] /\
    HeaderList.values_of "Access-Control-Allow-Methods" (HttpResponse.headers response) =
      ["GET, POST, PUT, DELETE"] /\
    HeaderList.values_of "Access-Control-Allow-Headers" (HttpResponse.headers response) =
      ["*"].
Proof.
  intros Hreach Hred Hrange Hnull.
  assert (H : null_body_status (HttpResponse.status up) = false \/
              HttpResponse.body up = None).
  { destruct (null_body_status (HttpResponse.status up)); auto. }
  destruct (serve_delivered _ _ _ _ _ _ Hreach Hred Hrange H) as [body ->].
  eexists. split; [reflexivity|]. cbn [HttpResponse.headers].
  apply policy_injected_inject.
Qed.

Lemma policy_headers_override_witness :
  exists response,
    serve (Demo.platform Relay.sites)
      (Demo.GET "https://relay.example/example.com/k" nil) =
      (inr response,
       [HttpRequest.make "https://example.com/k" "GET" nil None "manual"]) /\
    HeaderList.values_of "Cache-Control" (HttpResponse.headers response) =
      ["no-store"] /\
    HeaderList.values_of "Access-Control-Allow-Origin" (HttpResponse.headers response) =
      ["*"] /\
    HeaderList.values_of "Access-Control-Allow-Methods" (HttpResponse.headers response) =
      ["GET, POST, PUT, DELETE"] /\
    HeaderList.values_of "Access-Control-Allow-Headers" (HttpResponse.headers response) =
      ["*"].
Proof.
  refine (policy_headers_override (Demo.platform Relay.sites)
            (Demo.GET "https://relay.example/example.com/k" nil)
            (Demo.relay_url "/example.com/k") "https://example.com/k"
            (Demo.example_url "/k") Relay.page_with_cookies _ eq_refl _ _).
  - unfold Spec.reaches. repeat split; try reflexivity. discriminate.
  - split; discriminate.
  - discriminate.
Defined.

Lemma out_of_range_not_redirect (status : N) :
  status < 200 \/ 599 < status -> Spec.redirect_status status = false.
Proof.
  intros H. destruct (Spec.redirect_status status) eqn:E; [|reflexivity].
  apply redirect_status_range in E as [E _]. apply orb_false_iff in E as [E1 E2].
  apply N.ltb_ge in E1, E2. lia.
Qed.

(** X10.  An upstream status below 200 or above 599 cannot be given to a
    new response: the caller receives the error envelope with the message
    of the [RangeError], not the upstream response. *)
Theorem status_out_of_range (P : Platform) (inbound : HttpRequest.t)
    (url : URL.t) (target : string) (tu : URL.t) (up : HttpResponse.t) :
  Spec.reaches P inbound url target tu up ->
  HttpResponse.status up < 200 \/ 599 < HttpResponse.status up ->
  serve P inbound =
  (inr (Spec.error_envelope (message RangeError_status)), [Spec.outbound inbound tu]).
Proof.
  intros Hreach Hrange. rewrite (serve_classified _ _ _ _ _ _ Hreach).
  unfold Spec.classify. rewrite (out_of_range_not_redirect _ Hrange).
  assert (Hc : forall body, Spec.delivered up body = Spec.envelope_of RangeError_status).
  { intros body. unfold Spec.delivered, Spec.constructible, Spec.construction_error.
    assert (E : (200 <=? HttpResponse.status up) && (HttpResponse.status up <=? 599)
                = false).
    { apply andb_false_iff. destruct Hrange as [H|H]; [left|right];
        now apply N.leb_gt. }
    now rewrite E. }
  destruct (HeaderList.get "Content-Type" (HttpResponse.headers up)) as [v|];
    [destruct (includes v "text/html")|]; try now rewrite Hc.
  destruct (delivered_text_cases up
              (replaceRelativePaths (Spec.text_of P up) (URL.protocol url)
                 (URL.host url) (URL.origin tu))) as [body ->].
  now rewrite Hc.
Qed.

Lemma status_out_of_range_witness :
  serve (Demo.platform Relay.sites)
    (Demo.GET "https://relay.example/example.com/u" nil) =
  (inr (Spec.error_envelope
          "Responses may only be constructed with status codes in the range 200 to 599, inclusive."),
   [HttpRequest.make "https://example.com/u" "GET" nil None "manual"]).
Proof.
  refine (status_out_of_range (Demo.platform Relay.sites)
            (Demo.GET "https://relay.example/example.com/u" nil)
            (Demo.relay_url "/example.com/u") "https://example.com/u"
            (Demo.example_url "/u") Relay.request_denied _ (or_intror eq_refl)).
  unfold Spec.reaches. repeat split; try reflexivity. discriminate.
Defined.

(** X11.  An upstream response with status 204, 205 or 304 and no body
    whose [Content-Type] contains [text/html] is read as the empty text.
    The text of length zero handed to [new Response] is dropped, and the
    caller receives the upstream status and status text, no body, and the
    upstream headers with the policy headers set: no error. *)
Theorem html_with_null_body_status (P : Platform) (inbound : HttpRequest.t)
    (url : URL.t) (target : string) (tu : URL.t) (up : HttpResponse.t)
    (contentType : string) :
  Spec.reaches P inbound url target tu up ->
  In (HttpResponse.status up) [204; 205; 304] ->
  HeaderList.get "Content-Type" (HttpResponse.headers up) = Some contentType ->
  includes contentType "text/html" = true ->
  HttpResponse.body up = None ->
  serve P inbound =
  (inr (HttpResponse.make (HttpResponse.status up) (HttpResponse.statusText up)
          (Spec.inject (HeaderList.sort_and_combine (HttpResponse.headers up)))
          None),
   [Spec.outbound inbound tu]).
Proof.
  intros Hreach Hstatus Hct Hhtml Hbody. rewrite (serve_classified _ _ _ _ _ _ Hreach).
  unfold Spec.classify. rewrite Hct, Hhtml.
  unfold Spec.text_of. rewrite Hbody, replaceRelativePaths_empty.
  unfold Spec.delivered_text, Spec.delivered, Spec.constructible,
    Spec.redirect_status.
  destruct Hstatus as [<-|[<-|[<-|[]]]]; reflexivity.
Qed.

Lemma html_with_null_body_status_witness :
  serve (Demo.platform Relay.sites)
    (Demo.GET "https://relay.example/example.com/n" nil) =
  (inr (HttpResponse.make 304 "Not Modified"
          [("content-type", "text/html"); ("etag", "v1");
           ("Cache-Control", "no-store"); ("Access-Control-Allow-Origin", "*");
           ("Access-Control-Allow-Methods", "GET, POST, PUT, DELETE");
           ("Access-Control-Allow-Headers", "*")]
          None),
   [HttpRequest.make "https://example.com/n" "GET" nil None "manual"]).
Proof.
  refine (html_with_null_body_status (Demo.platform Relay.sites)
            (Demo.GET "https://relay.example/example.com/n" nil)
            (Demo.relay_url "/example.com/n") "https://example.com/n"
            (Demo.example_url "/n") Relay.not_modified "text/html" _
            (or_intror (or_intror (or_introl eq_refl))) eq_refl eq_refl eq_refl).
  unfold Spec.reaches. repeat split; try reflexivity. discriminate.
Defined.

(* ================================================================= *)
(** ** Part XVI.  More on the URL Resolver *)
(* ================================================================= *)

Lemma startsWith_append (a b p : string) :
  startsWith a p = true -> startsWith (a ++ b) p = true.
Proof.
  unfold startsWith. intros H. apply prefix_split in H. rewrite H, append_assoc.
  apply prefix_append.
Qed.

Lemma ensureProtocol_scheme (url defaultProtocol : string) :
  defaultProtocol = "http:" \/ defaultProtocol = "https:" ->
  startsWith (ensureProtocol url defaultProtocol) "http://" ||
  startsWith (ensureProtocol url defaultProtocol) "https://" = true.
Proof.
  intros Hp. unfold ensureProtocol.
  destruct (startsWith url "http://" || startsWith url "https://") eqn:E;
    [exact E|].
  unfold startsWith. destruct Hp as [-> | ->].
  - change ("http:" ++ "//" ++ url) with ("http://" ++ url).
    now rewrite prefix_append.
  - change ("https:" ++ "//" ++ url) with ("https://" ++ url).
    rewrite (prefix_append "https://"). apply orb_true_r.
Qed.

(** X12.  With [http:] or [https:] as the default protocol the result of
    [ensureProtocol] begins with [http://] or [https://], and applying
    [ensureProtocol] to it again, with any default, changes nothing. *)
Theorem ensureProtocol_gives_scheme (url defaultProtocol : string) :
  defaultProtocol = "http:" \/ defaultProtocol = "https:" ->
  (startsWith (ensureProtocol url defaultProtocol) "http://" ||
   startsWith (ensureProtocol url defaultProtocol) "https://" = true) /\
  forall other,
    ensureProtocol (ensureProtocol url defaultProtocol) other =
    ensureProtocol url defaultProtocol.
Proof.
  intros Hp. pose proof (ensureProtocol_scheme url _ Hp) as H.
  split; [exact H|]. intros other. unfold ensureProtocol at 1. now rewrite H.
Qed.

Lemma ensureProtocol_gives_scheme_witness :
  (startsWith (ensureProtocol "example.com/a" "https:") "http://" ||
   startsWith (ensureProtocol "example.com/a" "https:") "https://" = true) /\
  forall other,
    ensureProtocol (ensureProtocol "example.com/a" "https:") other =
    ensureProtocol "example.com/a" "https:".
Proof.
  exact (ensureProtocol_gives_scheme "example.com/a" "https:" (or_intror eq_refl)).
Defined.

(** X13.  When the inbound request came over [http:] or [https:], every
    target the path resolves to begins with [http://] or [https://]. *)
Theorem target_is_http (url : URL.t) (target : string) :
  URL.protocol url = "http:" \/ URL.protocol url = "https:" ->
  actualUrlStr url = inr target ->
  startsWith target "http://" || startsWith target "https://" = true.
Proof.
  intros Hp. unfold actualUrlStr.
  destruct (decodeURIComponent _) as [e|s]; [discriminate|].
  intros H. injection H as <-.
  pose proof (ensureProtocol_scheme s _ Hp) as H.
  apply orb_prop in H as [H|H]; rewrite (startsWith_append _ _ _ H);
    [reflexivity | apply orb_true_r].
Qed.

Lemma target_is_http_witness :
  startsWith "https://ftp://example.com/file" "http://" ||
  startsWith "https://ftp://example.com/file" "https://" = true.
Proof.
  exact (target_is_http (Demo.relay_url "/ftp://example.com/file")
           "https://ftp://example.com/file" (or_intror eq_refl) eq_refl).
Defined.

Lemma Decode_no_percent (s : string) :
  Relay.no_percent s = true -> Decode None s = Some s.
Proof.
  induction s as [|c s IH]; [reflexivity|]. cbn [Relay.no_percent Decode].
  intros H. apply andb_prop in H as [Hc Hs]. apply negb_true_iff in Hc.
  now rewrite Hc, (IH Hs).
Qed.

(** X14.  A path without a percent sign always resolves: to the path
    without its leading slash, given a protocol if it has none, followed by
    the query. *)
Theorem percent_free_path_resolves (url : URL.t) (path : string) :
  URL.pathname url = "/" ++ path ->
  Relay.no_percent path = true ->
  actualUrlStr url = inr (ensureProtocol path (URL.protocol url) ++ URL.search url).
Proof.
  intros Hpath Hfree. unfold actualUrlStr, decodeURIComponent.
  now rewrite Hpath, String_replace_leading_slash, (Decode_no_percent _ Hfree).
Qed.

Lemma percent_free_path_resolves_witness :
  actualUrlStr
    (URL.make "https://relay.example/example.com/index.html?x=1" "https:"
       EmptyString EmptyString "relay.example" "/example.com/index.html" "?x=1"
       "https://relay.example") =
  inr "https://example.com/index.html?x=1".
Proof.
  exact (percent_free_path_resolves
           (URL.make "https://relay.example/example.com/index.html?x=1" "https:"
              EmptyString EmptyString "relay.example" "/example.com/index.html"
              "?x=1" "https://relay.example")
           "example.com/index.html" eq_refl eq_refl).
Defined.

Lemma no_percent_append (a b : string) :
  Relay.no_percent (a ++ b) = Relay.no_percent a && Relay.no_percent b.
Proof.
  induction a as [|c a IH]; [reflexivity|].
  cbn [String.append Relay.no_percent]. now rewrite IH, andb_assoc.
Qed.

(** X15.  The references that the rewrite writes lead back to the target:
    a path made of a slash, an origin that begins with [http://] or
    [https://], a slash and the rest of a reference, all without percent
    signs, resolves to the origin, the slash and the rest, followed by the
    query. *)
Theorem rewritten_reference_resolves (url : URL.t) (origin rest : string) :
  URL.pathname url = "/" ++ origin ++ "/" ++ rest ->
  startsWith origin "http://" || startsWith origin "https://" = true ->
  Relay.no_percent origin = true ->
  Relay.no_percent rest = true ->
  actualUrlStr url = inr (origin ++ "/" ++ rest ++ URL.search url).
Proof.
  intros Hpath Horigin Ho Hr. unfold actualUrlStr, decodeURIComponent.
  rewrite Hpath, String_replace_leading_slash, Decode_no_percent.
  - unfold ensureProtocol.
    replace (startsWith (origin ++ "/" ++ rest) "http://" ||
             startsWith (origin ++ "/" ++ rest) "https://") with true.
    + now rewrite !append_assoc.
    + symmetry. apply orb_prop in Horigin as [H|H];
        rewrite (startsWith_append _ _ _ H); [reflexivity | apply orb_true_r].
  - rewrite !no_percent_append, Ho, Hr. reflexivity.
Qed.

Lemma rewritten_reference_resolves_witness :
  actualUrlStr (Demo.relay_url "/https://example.com/logo.png") =
  inr "https://example.com/logo.png".
Proof.
  exact (rewritten_reference_resolves (Demo.relay_url "/https://example.com/logo.png")
           "https://example.com" "logo.png" eq_refl eq_refl eq_refl eq_refl).
Defined.

(** *** Decoding undoes encoding *)

Lemma hexbyte_escape (c : ascii) :
  hexbyte (hexdigit (code c / 16)) (hexdigit (code c mod 16)) = Some (code c).
Proof. each_char c; reflexivity. Qed.

Lemma unreserved_ascii (c : ascii) : unreserved c = true -> (code c <? 128) = true.
Proof. each_char c; intros H; solve [reflexivity | discriminate H]. Qed.

Lemma chr_code (c : ascii) : chr (code c) = c.
Proof. apply ascii_N_embedding. Qed.

(** One escape, read by [Decode]. *)
Lemma Decode_escape (pend : option pending) (c : ascii) (rest : string) :
  Decode pend (escape c ++ rest) =
  match pend with
  | None =>
      if code c <? 128 then option_map (String c) (Decode None rest)
      else
        match lead (code c) with
        | Some p => Decode (Some p) rest
        | None => None
        end
  | Some p =>
      if is_continuation (code c) then
        match need (push p (code c)) with
        | O =>
            if valid_code_point (push p (code c)) then
              option_map (append (octets (push p (code c)))) (Decode None rest)
            else None
        | S _ => Decode (Some (push p (code c))) rest
        end
      else None
  end.
Proof.
  unfold escape. cbn [append Decode].
  change (Ascii.eqb percent percent) with true. cbv iota.
  rewrite hexbyte_escape, chr_code. reflexivity.
Qed.

Lemma encode_high (c : ascii) (rest : string) :
  (code c <? 128) = false ->
  encodeURIComponent (String c rest) = escape c ++ encodeURIComponent rest.
Proof.
  intros H. cbn [encodeURIComponent].
  destruct (unreserved c) eqn:U; [|reflexivity].
  apply unreserved_ascii in U. congruence.
Qed.

Ltac bounds :=
  unfold Relay.continuation, Relay.between in *;
  repeat match goal with
         | H : _ && _ = true |- _ => apply andb_prop in H as [? ?]
         | H : _ || _ = true |- _ => apply orb_prop in H as [?|?]
         | H : (_ <=? _) = true |- _ => apply N.leb_le in H
         | H : (_ <? _) = false |- _ => apply N.ltb_ge in H
         end.

Ltac decide_bounds :=
  repeat match goal with
         | |- context [?a <=? ?b] =>
             first [ replace (a <=? b) with true by (symmetry; apply N.leb_le; lia)
                   | replace (a <=? b) with false by (symmetry; apply N.leb_gt; lia) ]
         | |- context [?a <? ?b] =>
             first [ replace (a <? b) with true by (symmetry; apply N.ltb_lt; lia)
                   | replace (a <? b) with false by (symmetry; apply N.ltb_ge; lia) ]
         end.

Lemma Decode_two (c1 c2 : ascii) (rest : string) :
  Relay.between 194 223 c1 = true -> Relay.continuation c2 = true ->
  Decode None (escape c1 ++ escape c2 ++ rest) =
  option_map (String c1) (option_map (String c2) (Decode None rest)).
Proof.
  intros H1 H2. bounds. rewrite !Decode_escape.
  unfold lead. decide_bounds. cbn [andb].
  rewrite Decode_escape. unfold is_continuation, push, valid_code_point.
  cbn [need cp cp_min octets pred]. decide_bounds. cbn [andb negb].
  rewrite !chr_code. now destruct (Decode None rest).
Qed.

Lemma Decode_three (c1 c2 c3 : ascii) (rest : string) :
  Relay.three_bytes c1 c2 = true -> Relay.continuation c3 = true ->
  Decode None (escape c1 ++ escape c2 ++ escape c3 ++ rest) =
  option_map (String c1)
    (option_map (String c2) (option_map (String c3) (Decode None rest))).
Proof.
  intros H1 H3. unfold Relay.three_bytes in H1. bounds.
  all: rewrite Decode_escape; unfold lead; decide_bounds; cbn [andb];
    rewrite Decode_escape; unfold is_continuation, push;
    cbn [need cp cp_min octets pred]; decide_bounds; cbn [andb];
    rewrite Decode_escape; unfold is_continuation, push, valid_code_point;
    cbn [need cp cp_min octets pred]; decide_bounds; cbn [andb negb];
    rewrite !chr_code; now destruct (Decode None rest).
Qed.

Lemma Decode_four (c1 c2 c3 c4 : ascii) (rest : string) :
  Relay.four_bytes c1 c2 = true ->
  Relay.continuation c3 = true -> Relay.continuation c4 = true ->
  Decode None (escape c1 ++ escape c2 ++ escape c3 ++ escape c4 ++ rest) =
  option_map (String c1)
    (option_map (String c2)
       (option_map (String c3) (option_map (String c4) (Decode None rest)))).
Proof.
  intros H1 H3 H4. unfold Relay.four_bytes in H1. bounds.
  all: rewrite Decode_escape; unfold lead; decide_bounds; cbn [andb];
    rewrite Decode_escape; unfold is_continuation, push;
    cbn [need cp cp_min octets pred]; decide_bounds; cbn [andb];
    rewrite Decode_escape; unfold is_continuation, push;
    cbn [need cp cp_min octets pred]; decide_bounds; cbn [andb];
    rewrite Decode_escape; unfold is_continuation, push, valid_code_point;
    cbn [need cp cp_min octets pred]; decide_bounds; cbn [andb negb];
    rewrite !chr_code; now destruct (Decode None rest).
Qed.

Lemma continuation_high (c : ascii) :
  Relay.continuation c = true -> (code c <? 128) = false.
Proof. intros H. bounds. apply N.ltb_ge. lia. Qed.

(** On every well-formed string decoding undoes encoding. *)
Lemma Decode_encode (n : nat) :
  forall s, (String.length s <= n)%nat -> Relay.well_formed s = true ->
            Decode None (encodeURIComponent s) = Some s.
Proof.
  induction n as [|n IH]; intros s Hn Hs.
  { destruct s; [reflexivity | simpl in Hn; lia]. }
  destruct s as [|c1 r1]; [reflexivity|].
  cbn [Relay.well_formed] in Hs. cbn [String.length] in Hn.
  destruct (code c1 <? 128) eqn:A1.
  { cbn [encodeURIComponent]. rewrite (Decode_encoded_char c1 _ A1), IH;
      [reflexivity | lia | exact Hs]. }
  rewrite (encode_high _ _ A1).
  destruct r1 as [|c2 r2]; [discriminate|]. cbn [String.length] in Hn.
  destruct (Relay.between 194 223 c1 && Relay.continuation c2) eqn:E2.
  { apply andb_prop in E2 as [B1 B2].
    rewrite (encode_high _ _ (continuation_high _ B2)), (Decode_two _ _ _ B1 B2), IH;
      [reflexivity | lia | exact Hs]. }
  destruct r2 as [|c3 r3]; [discriminate|]. cbn [String.length] in Hn.
  destruct (Relay.three_bytes c1 c2 && Relay.continuation c3) eqn:E3.
  { apply andb_prop in E3 as [B1 B3].
    assert (A2 : (code c2 <? 128) = false).
    { unfold Relay.three_bytes in B1. bounds; apply N.ltb_ge; lia. }
    rewrite (encode_high _ _ A2), (encode_high _ _ (continuation_high _ B3)),
      (Decode_three _ _ _ _ B1 B3), IH; [reflexivity | lia | exact Hs]. }
  destruct r3 as [|c4 r4]; [discriminate|]. cbn [String.length] in Hn.
  apply andb_prop in Hs as [Hs H]. apply andb_prop in Hs as [Hs B4].
  apply andb_prop in Hs as [B1 B3].
  assert (A2 : (code c2 <? 128) = false).
  { unfold Relay.four_bytes in B1. bounds; apply N.ltb_ge; lia. }
  rewrite (encode_high _ _ A2), (encode_high _ _ (continuation_high _ B3)),
    (encode_high _ _ (continuation_high _ B4)),
    (Decode_four _ _ _ _ _ B1 B3 B4), IH; [reflexivity | lia | exact H].
Qed.

(** X16.  [decodeURIComponent] undoes [encodeURIComponent] on every
    well-formed string, and so the path made of a slash and the encoded
    form of a target, which is what the landing page opens and what a
    rewritten [Location] holds, resolves to that target, given a protocol
    if it has none, followed by the query. *)
Theorem encoded_target_resolves (url : URL.t) (t : string) :
  Relay.well_formed t = true ->
  URL.pathname url = "/" ++ encodeURIComponent t ->
  decodeURIComponent (encodeURIComponent t) = inr t /\
  actualUrlStr url = inr (ensureProtocol t (URL.protocol url) ++ URL.search url).
Proof.
  intros Ht Hpath.
  assert (E : decodeURIComponent (encodeURIComponent t) = inr t).
  { unfold decodeURIComponent. now rewrite (Decode_encode _ t (le_n _) Ht). }
  split; [exact E|].
  unfold actualUrlStr. now rewrite Hpath, String_replace_leading_slash, E.
Qed.

Lemma encoded_target_resolves_witness :
  decodeURIComponent "example.com%2Fcaf%C3%A9" = inr Relay.cafe /\
  actualUrlStr (Demo.relay_url "/example.com%2Fcaf%C3%A9") =
    inr ("https://" ++ Relay.cafe).
Proof.
  exact (encoded_target_resolves (Demo.relay_url "/example.com%2Fcaf%C3%A9")
           Relay.cafe eq_refl eq_refl).
Defined.

(* ================================================================= *)
(** ** Part XVII.  The Header Filter with any predicate *)
(* ================================================================= *)

Lemma filter_idem {A} (f : A -> bool) (l : list A) :
  filter f (filter f l) = filter f l.
Proof.
  induction l as [|x l IH]; simpl; [reflexivity|].
  destruct (f x) eqn:E; simpl; [rewrite E|]; now rewrite IH.
Qed.

Lemma filterHeaders_any (headers : nat) (filterFunc : string -> bool) (st : Store) :
  filterHeaders headers filterFunc st =
  (inr (List.length (heap st)),
   mkStore (heap st ++ [filter (fun '(name, _) => filterFunc name)
                          (HeaderList.sort_and_combine (nth headers (heap st) nil))])
           (sent st)).
Proof.
  unfold filterHeaders, bind, Headers_entries, read, ret, bind.
  now rewrite Headers_new_run.
Qed.

(** X17.  For every predicate [filterHeaders] returns a new [Headers]
    object and leaves the store otherwise as it is.  The predicate is
    applied to the lowercased names: a name reads in the new object as in
    the old one when its lowercased form passes, and is absent otherwise.
    Filtering the new object again with the same predicate yields an equal
    header list. *)
Theorem filterHeaders_keeps (headers : nat) (filterFunc : string -> bool)
    (st : Store) :
  exists kept,
    filterHeaders headers filterFunc st =
      (inr (List.length (heap st)), mkStore (heap st ++ [kept]) (sent st)) /\
    (forall name,
       HeaderList.get name kept =
       if filterFunc (byteLowercase name)
       then HeaderList.get name (nth headers (heap st) nil)
       else None) /\
    (forall h, In h kept -> filterFunc (fst h) = true) /\
    filterHeaders (List.length (heap st)) filterFunc
      (mkStore (heap st ++ [kept]) (sent st)) =
      (inr (S (List.length (heap st))),
       mkStore (heap st ++ [kept; kept]) (sent st)).
Proof.
  eexists. split; [apply filterHeaders_any|]. split; [|split].
  - intros name. apply get_filter.
  - intros [name value] H. apply filter_In in H. apply H.
  - rewrite filterHeaders_any. cbn [heap sent].
    rewrite nth_length_app, sort_and_combine_filter, filter_idem.
    rewrite length_app, <- app_assoc. cbn [List.length app].
    now rewrite Nat.add_1_r.
Qed.

(* ================================================================= *)
(** ** Part XVIII.  Texts without references, before and after the rewrite *)
(* ================================================================= *)

Lemma relative_slash_at_opening (before k rest : string) :
  In k Spec.openings -> startsWith rest "/" = false ->
  Spec.relative_slash (before ++ k) "/" rest = true.
Proof.
  intros Hk Hrest. unfold Spec.relative_slash. rewrite Hrest.
  cbn [Ascii.eqb Bool.eqb andb negb].
  apply existsb_exists. exists k. split; [exact Hk|].
  apply endsWith_iff. now exists before.
Qed.

Lemma no_reference_from_at (a before : string) (c : ascii) (s : string) :
  Relay.no_reference_from before (a ++ String c s) = true ->
  Spec.relative_slash (before ++ a) c s = false.
Proof.
  revert before. induction a as [|x a IH]; intros before H.
  - cbn [String.append Relay.no_reference_from] in H.
    apply andb_prop in H as [H _]. apply negb_true_iff in H.
    now rewrite append_empty_r.
  - cbn [String.append Relay.no_reference_from] in H.
    apply andb_prop in H as [_ H]. apply IH in H.
    now rewrite append_assoc in H.
Qed.

Lemma match_here_no_reference (before s : string) :
  Relay.no_reference_from before s = true ->
  match_here relativePathRegex s = None.
Proof.
  intros H.
  destruct (match_here relativePathRegex s) as [[[m caps] rest]|] eqn:Hhere;
    [|reflexivity].
  destruct (match_here_shape _ _ _ _ Hhere) as (k & Hk & -> & Hrest).
  apply no_reference_from_at in H.
  rewrite (relative_slash_at_opening _ _ _ Hk Hrest) in H. discriminate.
Qed.

Lemma replace_no_reference (template : string) (s before : string) :
  Relay.no_reference_from before s = true ->
  replace_from relativePathRegex template before O s = s.
Proof.
  revert before. induction s as [|c s IH]; intros before H.
  - cbn [replace_from]. now rewrite (match_here_no_reference _ _ H).
  - cbn [replace_from]. rewrite (match_here_no_reference _ _ H).
    cbn [Relay.no_reference_from] in H. apply andb_prop in H as [_ H].
    now rewrite (IH _ H).
Qed.

(** X18.  A text in which no attribute [href=], [src=] or [action=] with
    its quote is followed by a single slash is returned as it is, whatever
    the protocol, the host and the origin are, dollar signs included. *)
Theorem text_without_reference_unchanged (text protocol host origin : string) :
  Relay.no_reference text = true ->
  replaceRelativePaths text protocol host origin = text.
Proof. intros H. now apply replace_no_reference. Qed.

Lemma text_without_reference_unchanged_witness :
  replaceRelativePaths Relay.capitals "https:" "a$&b.example" "http://a$&b.example" =
  Relay.capitals.
Proof.
  exact (text_without_reference_unchanged Relay.capitals "https:" "a$&b.example"
           "http://a$&b.example" eq_refl).
Defined.

Lemma snoc_inj (a b : string) (x y : ascii) :
  a ++ str1 x = b ++ str1 y -> a = b /\ x = y.
Proof.
  revert b. induction a as [|c a IH]; intros b H.
  - destruct b as [|d b]; cbn in H.
    + now inversion H.
    + inversion H. now destruct b.
  - destruct b as [|d b]; cbn in H.
    + inversion H. now destruct a.
    + inversion H. destruct (IH b H2) as [-> ->]. auto.
Qed.

Lemma opening_quote (k : string) :
  In k Spec.openings ->
  exists k' q, k = k' ++ str1 q /\ (q = dquote \/ q = squote).
Proof.
  cbn. intros [<-|[<-|[<-|[<-|[<-|[<-|[]]]]]]].
  - exists "href=", dquote. auto.
  - exists "href=", squote. auto.
  - exists "src=", dquote. auto.
  - exists "src=", squote. auto.
  - exists "action=", dquote. auto.
  - exists "action=", squote. auto.
Qed.

Lemma no_quote_append (a b : string) :
  Relay.no_quote (a ++ b) = Relay.no_quote a && Relay.no_quote b.
Proof.
  induction a as [|c a IH]; [reflexivity|].
  cbn [String.append Relay.no_quote]. rewrite IH. now rewrite !andb_assoc.
Qed.

Lemma no_quote_last (a : string) (y : ascii) :
  Relay.no_quote (a ++ str1 y) = true -> y <> dquote /\ y <> squote.
Proof.
  rewrite no_quote_append. intros H. apply andb_prop in H as [_ H].
  cbn [Relay.no_quote str1] in H. rewrite andb_true_r in H.
  apply andb_prop in H as [H1 H2]. apply negb_true_iff in H1, H2.
  split; intros ->; [now rewrite Ascii.eqb_refl in H1 | now rewrite Ascii.eqb_refl in H2].
Qed.

(** A text that ends with a character that is no quote ends with no
    attribute and quote. *)
Lemma no_opening_after (before : string) (y : ascii) :
  y <> dquote -> y <> squote ->
  existsb (Spec.endsWith (before ++ str1 y)) Spec.openings = false.
Proof.
  intros H1 H2.
  destruct (existsb (Spec.endsWith (before ++ str1 y)) Spec.openings) eqn:E;
    [|reflexivity].
  apply existsb_exists in E as (k & Hk & Hends).
  apply endsWith_iff in Hends as [pre Hends].
  destruct (opening_quote k Hk) as (k' & q & -> & Hq).
  rewrite <- append_assoc in Hends. apply snoc_inj in Hends as [_ ->].
  destruct Hq as [->| ->]; contradiction.
Qed.

Lemma string_snoc (s : string) :
  s = EmptyString \/ exists s' y, s = s' ++ str1 y.
Proof.
  induction s as [|c s IH]; [now left|]. right.
  destruct IH as [->|(s' & y & ->)].
  - now exists EmptyString, c.
  - now exists (String c s'), y.
Qed.

Section Resolved.
Variable R : string.
Hypothesis R_quotes : Relay.no_quote R = true.
Hypothesis R_end : exists r, R = r ++ "/".
Hypothesis R_start : startsWith R "/" = true -> startsWith R "//" = true.

Lemma no_reference_through (a outB rest : string) :
  (forall pre x suf, a = pre ++ String x suf ->
     Spec.relative_slash (outB ++ pre) x (suf ++ rest) = false) ->
  Relay.no_reference_from outB (a ++ rest) =
  Relay.no_reference_from (outB ++ a) rest.
Proof.
  revert outB. induction a as [|c a IH]; intros outB H.
  - cbn [String.append]. now rewrite append_empty_r.
  - cbn [String.append Relay.no_reference_from].
    pose proof (H EmptyString c a eq_refl) as H0. rewrite append_empty_r in H0.
    rewrite H0. cbn [negb andb]. rewrite IH.
    + now rewrite append_assoc.
    + intros pre x suf ->. rewrite append_assoc. cbn [str1 String.append].
      now apply (H (String c pre) x suf).
Qed.

Lemma inside_replacement (outB rest pre : string) (x : ascii) (suf : string) :
  R = pre ++ String x suf ->
  Spec.relative_slash (outB ++ pre) x (suf ++ rest) = false.
Proof.
  intros HR. unfold Spec.relative_slash.
  destruct (Ascii.eqb_spec x "/") as [->|]; [|reflexivity]. cbn [andb].
  destruct (string_snoc pre) as [->|(pre' & y & ->)].
  - cbn [String.append] in HR.
    assert (H : startsWith R "//" = true).
    { apply R_start. rewrite HR. unfold startsWith. cbn. apply prefix_empty. }
    rewrite HR in H. unfold startsWith in H. cbn in H.
    now rewrite (startsWith_append suf rest "/" H).
  - rewrite <- append_assoc.
    assert (Hy : y <> dquote /\ y <> squote).
    { apply (no_quote_last pre'). rewrite HR in R_quotes.
      rewrite no_quote_append in R_quotes. now apply andb_prop in R_quotes. }
    rewrite (no_opening_after _ _ (proj1 Hy) (proj2 Hy)). apply andb_false_r.
Qed.

Lemma no_opening_after_slash (before : string) :
  existsb (Spec.endsWith (before ++ "/")) Spec.openings = false.
Proof. apply (no_opening_after before "/"); discriminate. Qed.

(** After the rewrite no reference with a single leading slash is left. *)
Lemma rewrite_resolved (s : string) :
  forall inB outB dI dO since,
    inB = dI ++ since -> outB = dO ++ since -> Relay.closed dI -> Relay.closed dO ->
    Relay.no_reference_from outB (Spec.rewrite_from R inB s) = true.
Proof.
  induction s as [|c s IH]; intros inB outB dI dO since HI HO CI CO;
    [reflexivity|].
  cbn [Spec.rewrite_from].
  destruct (Spec.relative_slash inB c s) eqn:Hrel.
  - rewrite no_reference_through by (intros pre x suf; apply inside_replacement).
    assert (Hc : c = "/"%char).
    { unfold Spec.relative_slash in Hrel.
      destruct (Ascii.eqb_spec c "/"); [assumption | discriminate]. }
    subst c. destruct R_end as [r Hr].
    apply (IH _ _ (inB ++ "/") (outB ++ R) EmptyString).
    + now rewrite append_empty_r.
    + now rewrite append_empty_r.
    + right. now exists inB.
    + right. exists (outB ++ r). now rewrite Hr, append_assoc.
  - cbn [str1 String.append Relay.no_reference_from].
    rewrite (IH _ _ dI dO (since ++ str1 c))
      by (subst; now rewrite ?append_assoc).
    rewrite andb_true_r. apply negb_true_iff.
    unfold Spec.relative_slash in *.
    destruct (Ascii.eqb_spec c "/") as [->|]; [|reflexivity]. cbn [andb] in *.
    destruct (existsb (Spec.endsWith outB) Spec.openings) eqn:E;
      [|apply andb_false_r].
    rewrite andb_true_r. apply negb_false_iff.
    assert (EI : existsb (Spec.endsWith inB) Spec.openings = true).
    { apply existsb_exists in E as (k & Hk & Hends).
      apply endsWith_iff in Hends as [pre0 Hends]. rewrite HO in Hends.
      destruct (opening_within _ _ _ _ CO Hk Hends) as [pre Hpre].
      apply existsb_exists. exists k. split; [exact Hk|].
      apply endsWith_iff. exists (dI ++ pre). now rewrite HI, Hpre, append_assoc. }
    rewrite EI, andb_true_r in Hrel. apply negb_false_iff in Hrel.
    destruct s as [|x s]; [discriminate Hrel|].
    assert (Hx : x = "/"%char).
    { revert Hrel. unfold startsWith. cbn [prefix].
      destruct (ascii_dec "/" x); [now subst | discriminate]. }
    subst x. cbn [Spec.rewrite_from]. unfold Spec.relative_slash.
    change (inB ++ str1 "/") with (inB ++ "/").
    rewrite no_opening_after_slash, andb_false_r.
    unfold startsWith. cbn. apply prefix_empty.
Qed.

End Resolved.

Lemma replacement_shape (protocol host origin : string) :
  Relay.plain protocol = true -> Relay.plain host = true ->
  Relay.plain origin = true -> startsWith protocol "/" = false ->
  Spec.no_dollar (Spec.replacement protocol host origin) = true /\
  Relay.no_quote (Spec.replacement protocol host origin) = true /\
  (exists r, Spec.replacement protocol host origin = r ++ "/") /\
  (startsWith (Spec.replacement protocol host origin) "/" = true ->
   startsWith (Spec.replacement protocol host origin) "//" = true).
Proof.
  unfold Relay.plain. intros Hp Hh Ho Hs.
  apply andb_prop in Hp as [Hp1 Hp2], Hh as [Hh1 Hh2], Ho as [Ho1 Ho2].
  split; [now apply no_dollar_replacement|]. split; [|split].
  - unfold Spec.replacement. rewrite !no_quote_append, Hp2, Hh2, Ho2. reflexivity.
  - exists (protocol ++ "//" ++ host ++ "/" ++ origin). unfold Spec.replacement.
    now rewrite !append_assoc.
  - unfold Spec.replacement. destruct protocol as [|c p].
    + intros _. apply (prefix_append "//").
    + unfold startsWith in *. cbn [String.append prefix] in *.
      destruct (ascii_dec "/" c); [|discriminate].
      now rewrite prefix_empty in Hs.
Qed.

(** X19.  When the protocol, the host and the origin contain neither a
    dollar sign nor a quote and the protocol does not begin with a slash,
    the rewritten text contains no reference with a single leading slash
    any more, and rewriting it a second time changes nothing. *)
Theorem references_resolved (text protocol host origin : string) :
  Relay.plain protocol = true -> Relay.plain host = true ->
  Relay.plain origin = true -> startsWith protocol "/" = false ->
  Relay.no_reference (replaceRelativePaths text protocol host origin) = true /\
  replaceRelativePaths (replaceRelativePaths text protocol host origin)
    protocol host origin =
  replaceRelativePaths text protocol host origin.
Proof.
  intros Hp Hh Ho Hs.
  destruct (replacement_shape _ _ _ Hp Hh Ho Hs) as (Hd & Hq & He & Hst).
  assert (H : Relay.no_reference (replaceRelativePaths text protocol host origin)
              = true).
  { rewrite (replaceRelativePaths_rewrite _ _ _ _ Hd).
    apply (rewrite_resolved _ Hq He Hst text EmptyString EmptyString
             EmptyString EmptyString EmptyString); try reflexivity; now left. }
  split; [exact H|]. now apply replace_no_reference.
Qed.

Lemma references_resolved_witness :
  Relay.no_reference
    (replaceRelativePaths Demo.page "https:" "relay.example" "https://example.com") =
    true /\
  replaceRelativePaths
    (replaceRelativePaths Demo.page "https:" "relay.example" "https://example.com")
    "https:" "relay.example" "https://example.com" =
  replaceRelativePaths Demo.page "https:" "relay.example" "https://example.com".
Proof.
  exact (references_resolved Demo.page "https:" "relay.example" "https://example.com"
           eq_refl eq_refl eq_refl eq_refl).
Defined.
